(** * kgtkr-icon: the procedural humanoid avatar and its VRM export hook

    A shallow embedding of [index.ts]: the skeleton list ([addBone]), the
    skin-weight blend ([smoothstep] and the per-vertex loops of [createArm],
    [createLeg], [createBody]), the head's vertex classification and
    triangle grouping ([createHead]), the scene composition ([Part.build])
    and the exporter plugin ([writeNode], [writeMaterialAsync],
    [afterParse]); also the debug colours ([addBoneWeightVisualization]),
    the texture atlas ([createFaceTextureAtlasCanvas]), the capsule geometry
    ([createSphereCylinder]) and the parts as the shared objects the top
    level links with [add].

    JavaScript numbers are modelled by [number]: NaN, the two infinities
    and finite values carried as exact rationals together with the sign bit
    of a zero.  Every arithmetic operation rounds its exact result with the
    operator [rnd] of a [Rounding] structure (the standard model of
    floating-point arithmetic: monotone, relative error at most [rnd_u],
    small integers exact) and is an infinity when the rounded value lies
    beyond the largest finite value [rnd_max]; underflow is not
    modelled. *)

From Stdlib Require Import QArith Qabs Lqa Lia ZArith NArith Bool Sorting.Sorted.
From stdpp Require Import base option list strings gmap.

Set Warnings "-register-all,-clear-no-such-hyp".

(** ** JavaScript numbers *)

Inductive number : Type :=
| NaN : number
| Infinity (negative : bool) : number
| Fin (negzero : bool) (q : Q) : number.

(** Rounding of an exact result to a representable value, as if the
    exponent had no upper limit, and the largest finite value
    ([Number.MAX_VALUE]): a result whose rounded value lies beyond it is an
    infinity.  Underflow is not modelled. *)
Class Rounding : Type := {
  rnd : Q -> Q;
  rnd_u : Q;
  rnd_max : Q;
  rnd_proper : forall p q, (p == q)%Q -> (rnd p == rnd q)%Q;
  rnd_mono : forall p q, (p <= q)%Q -> (rnd p <= rnd q)%Q;
  rnd_error : forall q, (Qabs (rnd q - q) <= rnd_u * Qabs q)%Q;
  rnd_u_small : (0 <= rnd_u /\ rnd_u <= 1 # 1000000)%Q;
  rnd_max_large : (1000000 <= rnd_max)%Q;
  rnd_1 : (rnd 1 == 1)%Q;
  rnd_2 : (rnd 2 == 2)%Q;
  rnd_3 : (rnd 3 == 3)%Q
}.

(** The largest finite value of binary64, [(2 - 2^-52) * 2^1023]. *)
Definition MAX_VALUE : Q := Eval vm_compute in inject_Z (2 ^ 1024 - 2 ^ 971).

(** Arithmetic that is exact up to the largest finite value of binary64
    and overflows beyond it is one instance; it is the one used to
    evaluate the definitions on concrete inputs. *)
#[refine] Instance exact : Rounding :=
  {| rnd := fun q => q; rnd_u := 0; rnd_max := MAX_VALUE |}.
Proof.
  - intros p q H; exact H.
  - intros p q H; exact H.
  - intros q. apply Qabs_case; intros; lra.
  - split; [apply Qle_refl | discriminate].
  - vm_compute. discriminate.
  - reflexivity.
  - reflexivity.
  - reflexivity.
Defined.

Definition Qltb (p q : Q) : bool := negb (Qle_bool q p).

Section Numbers.
Context {R : Rounding}.
Local Open Scope Q_scope.

(** The sign bit: stored for a zero, read off the value otherwise. *)
Definition signbit (a : number) : bool :=
  match a with
  | NaN => false
  | Infinity s => s
  | Fin s q => if Qeq_bool q 0 then s else Qltb q 0
  end.

Definition isNaN (a : number) : bool :=
  match a with NaN => true | _ => false end.

(** The integer literals of the program are exact; a decimal literal
    denotes the nearest representable value (the literals of the program
    are all far below the largest finite value). *)
Definition int (z : Z) : number := Fin false (inject_Z z).
Definition dec (q : Q) : number := Fin false (rnd q).

(** The result of an operation whose exact value is the finite [q]: [q]
    rounded, or the infinity of its sign when the rounded value is beyond
    the largest finite value. *)
Definition overflows (q : Q) : bool := Qltb rnd_max (Qabs (rnd q)).
Definition result (s : bool) (q : Q) : number :=
  if overflows q then Infinity (Qltb q 0) else Fin s (rnd q).

(** Unary minus. *)
Definition neg (a : number) : number :=
  match a with
  | NaN => NaN
  | Infinity s => Infinity (negb s)
  | Fin s q => Fin (negb (signbit a)) (- q)
  end.

(** [a + b] *)
Definition add (a b : number) : number :=
  match a, b with
  | NaN, _ | _, NaN => NaN
  | Infinity s, Infinity s' => if Bool.eqb s s' then Infinity s else NaN
  | Infinity s, Fin _ _ => Infinity s
  | Fin _ _, Infinity s => Infinity s
  | Fin _ p, Fin _ q => result (signbit a && signbit b) (p + q)
  end.

(** [a - b] *)
Definition sub (a b : number) : number := add a (neg b).

(** [a * b] *)
Definition mul (a b : number) : number :=
  match a, b with
  | NaN, _ | _, NaN => NaN
  | Infinity s, Infinity s' => Infinity (xorb s s')
  | Infinity s, Fin _ q =>
      if Qeq_bool q 0 then NaN else Infinity (xorb s (signbit b))
  | Fin _ p, Infinity s =>
      if Qeq_bool p 0 then NaN else Infinity (xorb (signbit a) s)
  | Fin _ p, Fin _ q => result (xorb (signbit a) (signbit b)) (p * q)
  end.

(** [a / b]: a zero divisor gives an infinity, or NaN for [0 / 0]; nothing
    is thrown. *)
Definition div (a b : number) : number :=
  match a, b with
  | NaN, _ | _, NaN => NaN
  | Infinity _, Infinity _ => NaN
  | Infinity s, Fin _ _ => Infinity (xorb s (signbit b))
  | Fin _ _, Infinity s => Fin (xorb (signbit a) s) 0
  | Fin _ p, Fin _ q =>
      if Qeq_bool q 0
      then (if Qeq_bool p 0 then NaN else Infinity (xorb (signbit a) (signbit b)))
      else result (xorb (signbit a) (signbit b)) (p / q)
  end.

(** [a < b]: false as soon as one side is NaN; the two zeros are equal. *)
Definition lt (a b : number) : bool :=
  match a, b with
  | NaN, _ | _, NaN => false
  | Infinity s, Infinity s' => s && negb s'
  | Infinity s, Fin _ _ => s
  | Fin _ _, Infinity s => negb s
  | Fin _ p, Fin _ q => Qltb p q
  end.

(** [a > b] *)
Definition gt (a b : number) : bool := lt b a.

(** [a == b] on numbers *)
Definition eqn (a b : number) : bool :=
  match a, b with
  | NaN, _ | _, NaN => false
  | Infinity s, Infinity s' => Bool.eqb s s'
  | Fin _ p, Fin _ q => Qeq_bool p q
  | _, _ => false
  end.

(** [Math.min(a, b)]: NaN if either is NaN, and [-0] is below [+0]. *)
Definition Math_min (a b : number) : number :=
  if isNaN a || isNaN b then NaN
  else if lt a b then a
  else if lt b a then b
  else if signbit a then a else b.

(** [Math.max(a, b)] *)
Definition Math_max (a b : number) : number :=
  if isNaN a || isNaN b then NaN
  else if lt a b then b
  else if lt b a then a
  else if signbit a then b else a.

(** [Math.abs(a)] *)
Definition Math_abs (a : number) : number :=
  match a with
  | NaN => NaN
  | Infinity _ => Infinity false
  | Fin _ q => Fin false (Qabs q)
  end.

End Numbers.

Declare Scope js_scope.
Delimit Scope js_scope with js.
Bind Scope js_scope with number.
Notation "0" := (int 0) : js_scope.
Notation "1" := (int 1) : js_scope.
Notation "2" := (int 2) : js_scope.
Notation "3" := (int 3) : js_scope.
Infix "+" := add : js_scope.
Infix "-" := sub : js_scope.
Infix "*" := mul : js_scope.
Infix "/" := div : js_scope.
Notation "- a" := (neg a) : js_scope.
Infix "<" := lt : js_scope.
Infix ">" := gt : js_scope.

(** ** Skin weights *)

Section SkinWeights.
Context {R : Rounding}.
Local Open Scope js_scope.

(** The first line of [smoothstep]: the clamped interpolation parameter. *)
Definition smoothstep_t (edge0 edge1 x : number) : number :=
  Math_max 0 (Math_min 1 ((x - edge0) / (edge1 - edge0))).

Definition smoothstep (edge0 edge1 x : number) : number :=
  let t := smoothstep_t edge0 edge1 x in
  let r := t * t * (3 - 2 * t) in
  Math_max 0 (Math_min 1 r).

(** [skinWeights.push(1 - weight, weight, 0, 0)], the four slots written
    for one vertex by [createArm] and [createBody]. *)
Definition blendSlots (weight : number) : list number :=
  [1 - weight; weight; 0; 0].

End SkinWeights.

Definition vec3 : Type := number * number * number.
Definition getX (p : vec3) : number := p.1.1.
Definition getY (p : vec3) : number := p.1.2.
Definition getZ (p : vec3) : number := p.2.

Section VertexLoops.
Context {R : Rounding}.
Local Open Scope js_scope.

(** The vertex loop of [createArm]: four bone indices and four weights per
    vertex.  [direction] is [1] for the left arm and [-1] for the right. *)
Definition createArm_skin (direction : number) (upperBoneIdx lowerBoneIdx : nat)
    (position : list vec3) : list nat * list number :=
  (flat_map (fun _ => [upperBoneIdx; lowerBoneIdx; 0%nat; 0%nat]) position,
   flat_map (fun p =>
      let x := getX p * direction in
      let centerX := - dec 0.2 in
      let threshold := dec 0.2 in
      let edge0 := centerX - threshold in
      let edge1 := centerX + threshold in
      let weight := smoothstep edge0 edge1 x in
      blendSlots weight) position).

(** The vertex loop of [createLeg]: the weight goes to the upper leg and
    its complement to the lower leg. *)
Definition createLeg_skin (upperLegBoneIdx lowerLegBoneIdx : nat)
    (position : list vec3) : list nat * list number :=
  (flat_map (fun _ => [upperLegBoneIdx; lowerLegBoneIdx; 0%nat; 0%nat]) position,
   flat_map (fun p =>
      let y := getY p in
      let threshold := dec 0.15 in
      let centerY := dec 0.25 in
      let edge0 := centerY - threshold in
      let edge1 := centerY + threshold in
      let weight := smoothstep edge0 edge1 y in
      [weight; 1 - weight; 0; 0]) position).

(** The vertex loop shared by [createHand], [createFoot] and [createHead]:
    every vertex follows one bone. *)
Definition createHand_skin (boneIdx : nat) (position : list vec3)
    : list nat * list number :=
  (flat_map (fun _ => [boneIdx; 0%nat; 0%nat; 0%nat]) position,
   flat_map (fun _ => [1; 0; 0; 0]) position).

(** The vertex loop of [createBody]: four stacked blend intervals. *)
Definition createBody_skin (hipsBoneIdx spineBoneIdx chestBoneIdx upperChestBoneIdx
    neckBoneIdx : nat) (position : list vec3) : list nat * list number :=
  let bodyHeight := dec 0.8 in
  let bodyOffsetY := - dec 0.5 in
  let edge0 := bodyOffsetY in
  let edge1 := bodyOffsetY + bodyHeight * dec 0.1 in
  let edge2 := bodyOffsetY + bodyHeight * dec 0.4 in
  let edge3 := bodyOffsetY + bodyHeight * dec 0.8 in
  let edge4 := bodyOffsetY + bodyHeight in
  (flat_map (fun p =>
      let y := getY p in
      if y < edge1 then [hipsBoneIdx; spineBoneIdx; 0%nat; 0%nat]
      else if y < edge2 then [spineBoneIdx; chestBoneIdx; 0%nat; 0%nat]
      else if y < edge3 then [chestBoneIdx; upperChestBoneIdx; 0%nat; 0%nat]
      else [upperChestBoneIdx; neckBoneIdx; 0%nat; 0%nat]) position,
   flat_map (fun p =>
      let y := getY p in
      if y < edge1 then blendSlots (smoothstep edge0 edge1 y)
      else if y < edge2 then blendSlots (smoothstep edge1 edge2 y)
      else if y < edge3 then blendSlots (smoothstep edge2 edge3 y)
      else blendSlots (smoothstep edge3 edge4 y)) position).

End VertexLoops.

(** ** Skeleton *)

Record Bone : Type := { bone_name : string; bone_position : vec3 }.

(** [addBone]: the global [bones] array is threaded through. *)
Definition addBone (bone : Bone) (bones : list Bone) : nat * list Bone :=
  let idx := length bones in
  (idx, bones ++ [bone]).

(** A run of [addBone] calls, collecting the returned indices. *)
Definition addBones (news : list Bone) (bones : list Bone) : list nat * list Bone :=
  foldl (fun acc bone => let '(idx, bones') := addBone bone acc.2 in
                         (acc.1 ++ [idx], bones')) ([], bones) news.

(** ** Head: texture kinds, vertex classification, triangle groups *)

Inductive TextureKind : Type :=
| normal | aa | ih | ou | ee | oh | blinkLeft | blinkRight.

#[global] Instance TextureKind_eq_dec : EqDecision TextureKind.
Proof. solve_decision. Defined.

Definition TextureKinds : list TextureKind :=
  [normal; aa; ih; ou; ee; oh; blinkLeft; blinkRight].

(** [Object.fromEntries(TextureKinds.map((k, i) => [k, i]))] read at [k]. *)
Definition TextureKindToIndex (k : TextureKind) : nat :=
  default 0%nat (fst <$> list_find (fun k' => k' = k) TextureKinds).

Record VertexSets : Type := {
  mouthVertexIndices : list N;
  leftEyeVertexIndices : list N;
  rightEyeVertexIndices : list N
}.

Record Groups : Type := {
  faceIndices : list (option N);
  mouthIndices : list (option N);
  leftEyeIndices : list (option N);
  rightEyeIndices : list (option N)
}.

(** One [geometry.addGroup(start, count, materialIndex)] call. *)
Record GeometryGroup : Type := {
  group_start : nat; group_count : nat; group_materialIndex : nat
}.

Definition GROUP_FACE : nat := 0.
Definition GROUP_MOUTH : nat := 1.
Definition GROUP_LEFT_EYE : nat := 2.
Definition GROUP_RIGHT_EYE : nat := 3.

Section Head.
Context {R : Rounding}.
Local Open Scope js_scope.

(** The loop rewriting the UVs: [(u, (1 - v) / TextureKinds.length)]. *)
Definition flipUV (uv : list (number * number)) : list (number * number) :=
  (fun p => (p.1, (1 - p.2) / int (Z.of_nat (length TextureKinds)))) <$> uv.

Definition inMouth (p : vec3) : bool :=
  (getY p < - dec 0.1) && (getY p > - dec 0.3) && (getZ p > dec 0.1)
  && (Math_abs (getX p) < dec 0.15).

Definition inLeftEye (t : number * number) : bool :=
  (dec 0.4 < t.1) && (t.1 < dec 0.5) && (dec 0.05 < t.2) && (t.2 < dec 0.1).

Definition inRightEye (t : number * number) : bool :=
  (dec 0.5 < t.1) && (t.1 < dec 0.6) && (dec 0.05 < t.2) && (t.2 < dec 0.1).

(** Body of the classification loop at vertex [i].  Reading a buffer past
    its end gives [undefined], which compares false with everything: NaN
    stands for it. *)
Definition classifyVertex (pos : list vec3) (uv : list (number * number))
    (acc : VertexSets) (i : nat) : VertexSets :=
  let p := default (NaN, NaN, NaN) (pos !! i) in
  let t := default (NaN, NaN) (uv !! i) in
  if inMouth p then
    {| mouthVertexIndices := mouthVertexIndices acc ++ [N.of_nat i];
       leftEyeVertexIndices := leftEyeVertexIndices acc;
       rightEyeVertexIndices := rightEyeVertexIndices acc |}
  else if inLeftEye t then
    {| mouthVertexIndices := mouthVertexIndices acc;
       leftEyeVertexIndices := leftEyeVertexIndices acc ++ [N.of_nat i];
       rightEyeVertexIndices := rightEyeVertexIndices acc |}
  else if inRightEye t then
    {| mouthVertexIndices := mouthVertexIndices acc;
       leftEyeVertexIndices := leftEyeVertexIndices acc;
       rightEyeVertexIndices := rightEyeVertexIndices acc ++ [N.of_nat i] |}
  else acc.

(** [for (let i = 0; i < pos.count; i++) ...] *)
Definition classifyVertices (pos : list vec3) (uv : list (number * number))
    : VertexSets :=
  foldl (classifyVertex pos uv)
    {| mouthVertexIndices := []; leftEyeVertexIndices := [];
       rightEyeVertexIndices := [] |}
    (seq 0 (length pos)).

End Head.

(** [index ? index.getX(k) : k]; a read past the end is [undefined]. *)
Definition vertexAt (index : option (list N)) (k : nat) : option N :=
  match index with
  | Some ix => ix !! k
  | None => Some (N.of_nat k)
  end.

(** Iterations of [for (let f = 0; f < faceCount; f++)], where [faceCount]
    is the quotient [count / 3] of numbers: the naturals below it. *)
Definition faceIterations (index : option (list N)) (positionCount : nat) : nat :=
  let count := match index with Some ix => length ix | None => positionCount end in
  (count + 2) / 3.

(** [l.includes(i)] *)
Definition includes (l : list N) (i : option N) : bool :=
  match i with
  | Some v => existsb (N.eqb v) l
  | None => false
  end.

(** [[i0, i1, i2].filter((i) => l.includes(i)).length] *)
Definition countIn (l : list N) (tri : list (option N)) : nat :=
  length (List.filter (includes l) tri).

Definition triangleAt (index : option (list N)) (f : nat) : list (option N) :=
  [vertexAt index (f * 3); vertexAt index (f * 3 + 1); vertexAt index (f * 3 + 2)].

(** Body of the triangle loop at face [f]. *)
Definition groupFace (vs : VertexSets) (index : option (list N))
    (g : Groups) (f : nat) : Groups :=
  let tri := triangleAt index f in
  let mouthCount := countIn (mouthVertexIndices vs) tri in
  let leftEyeCount := countIn (leftEyeVertexIndices vs) tri in
  let rightEyeCount := countIn (rightEyeVertexIndices vs) tri in
  if (2 <=? mouthCount)%nat then
    {| faceIndices := faceIndices g; mouthIndices := mouthIndices g ++ tri;
       leftEyeIndices := leftEyeIndices g; rightEyeIndices := rightEyeIndices g |}
  else if (2 <=? leftEyeCount)%nat then
    {| faceIndices := faceIndices g; mouthIndices := mouthIndices g;
       leftEyeIndices := leftEyeIndices g ++ tri; rightEyeIndices := rightEyeIndices g |}
  else if (2 <=? rightEyeCount)%nat then
    {| faceIndices := faceIndices g; mouthIndices := mouthIndices g;
       leftEyeIndices := leftEyeIndices g; rightEyeIndices := rightEyeIndices g ++ tri |}
  else
    {| faceIndices := faceIndices g ++ tri; mouthIndices := mouthIndices g;
       leftEyeIndices := leftEyeIndices g; rightEyeIndices := rightEyeIndices g |}.

Definition groupFaces (vs : VertexSets) (index : option (list N))
    (positionCount : nat) : Groups :=
  foldl (groupFace vs index)
    {| faceIndices := []; mouthIndices := []; leftEyeIndices := [];
       rightEyeIndices := [] |}
    (seq 0 (faceIterations index positionCount)).

(** Storing into a [Uint32Array]: [undefined] becomes 0, numbers wrap. *)
Definition toUint32 (v : option N) : N :=
  match v with
  | Some n => (n mod 2 ^ 32)%N
  | None => 0%N
  end.

(** [new Uint32Array([...faceIndices, ...mouthIndices, ...leftEyeIndices,
    ...rightEyeIndices])] *)
Definition newIndices (g : Groups) : list N :=
  toUint32 <$> (faceIndices g ++ mouthIndices g ++ leftEyeIndices g ++ rightEyeIndices g).

(** The four [addGroup] calls with the running [indexOffset]. *)
Definition addGroups (g : Groups) : list GeometryGroup :=
  let indexOffset := 0%nat in
  let g0 := {| group_start := indexOffset; group_count := length (faceIndices g);
               group_materialIndex := GROUP_FACE |} in
  let indexOffset := (indexOffset + length (faceIndices g))%nat in
  let g1 := {| group_start := indexOffset; group_count := length (mouthIndices g);
               group_materialIndex := GROUP_MOUTH |} in
  let indexOffset := (indexOffset + length (mouthIndices g))%nat in
  let g2 := {| group_start := indexOffset; group_count := length (leftEyeIndices g);
               group_materialIndex := GROUP_LEFT_EYE |} in
  let indexOffset := (indexOffset + length (leftEyeIndices g))%nat in
  let g3 := {| group_start := indexOffset; group_count := length (rightEyeIndices g);
               group_materialIndex := GROUP_RIGHT_EYE |} in
  [g0; g1; g2; g3].

(** ** Parts and the composed scene *)

Section Scene.
Variables Geometry Material : Type.
Context {R : Rounding}.

Inductive ObjectKind : Type :=
| GroupKind
| SkinnedMeshKind (geometry : Geometry) (material : Material)
| BoneKind.

(** A [THREE.Object3D]: what it is, its name, its position, its children. *)
Inductive Object3D : Type :=
| Object (kind : ObjectKind) (name : string) (position : option vec3)
         (children : list Object3D).

Definition object_kind (o : Object3D) : ObjectKind :=
  match o with Object k _ _ _ => k end.
Definition object_name (o : Object3D) : string :=
  match o with Object _ n _ _ => n end.
Definition object_children (o : Object3D) : list Object3D :=
  match o with Object _ _ _ c => c end.

(** [obj instanceof THREE.Mesh]; a skinned mesh is a mesh. *)
Definition isMesh (o : Object3D) : bool :=
  match object_kind o with SkinnedMeshKind _ _ => true | _ => false end.

Inductive Part : Type :=
| mkPart (name : string) (geometry : Geometry) (material : Material)
         (position : vec3) (children : list Part).

Definition part_name (p : Part) : string :=
  match p with mkPart n _ _ _ _ => n end.
Definition part_children (p : Part) : list Part :=
  match p with mkPart _ _ _ _ c => c end.

(** [Part.add] *)
Definition Part_add (p child : Part) : Part :=
  match p with
  | mkPart n g m pos c => mkPart n g m pos (c ++ [child])
  end.

(** [Part.build] with [enableBone] true: the mesh is pushed on [meshes],
    mesh and group both take the part's name, the children follow.  The
    array holds the mesh object itself, so the name set after the push is
    the name of the array's element too. *)
Fixpoint Part_build (p : Part) (meshes : list Object3D)
    : Object3D * list Object3D :=
  match p with
  | mkPart name geometry material position children =>
      let mesh := Object (SkinnedMeshKind geometry material) name None [] in
      let meshes := meshes ++ [mesh] in
      let '(added, meshes) :=
        foldl (fun acc child =>
                 let '(childGroup, meshes') := Part_build child acc.2 in
                 (acc.1 ++ [childGroup], meshes'))
              ([mesh], meshes) children in
      (Object GroupKind name (Some position) added, meshes)
  end.

(** [Object3D.add] *)
Definition Object3D_add (o child : Object3D) : Object3D :=
  match o with
  | Object k n p c => Object k n p (c ++ [child])
  end.

(** [Vector3.add] *)
Definition Vector3_add (a b : vec3) : vec3 :=
  (getX a + getX b, getY a + getY b, getZ a + getZ b)%js.

(** [obj.position.add(v)]; a position never set is the origin. *)
Definition position_add (o : Object3D) (v : vec3) : Object3D :=
  match o with
  | Object k n p c => Object k n (Some (Vector3_add (default (0, 0, 0)%js p) v)) c
  end.

(** [const model = body.part.build(meshes);
    model.position.add(new THREE.Vector3(0, 1, 0));
    model.add(body.hipsBone)]: the part tree composed and raised by one
    unit, with the root bone as its last child. *)
Definition composeModel (root : Part) (hipsBone : Object3D) : Object3D :=
  let model := (Part_build root []).1 in
  let model := position_add model (0, 1, 0)%js in
  Object3D_add model hipsBone.

(** [Object3D.traverse]: the object, then its descendants.  The exporter
    writes one node per object it visits. *)
Fixpoint traverse (o : Object3D) : list Object3D :=
  match o with
  | Object _ _ _ children => o :: flat_map traverse children
  end.

Definition nodeNames (o : Object3D) : list string :=
  object_name <$> traverse o.

(** All the parts of a tree, the root first. *)
Fixpoint parts (p : Part) : list Part :=
  match p with
  | mkPart _ _ _ _ children => p :: flat_map parts children
  end.

(** ** Exporter plugin *)

(** The variables captured by the closure passed to [exporter.register]. *)
Record PluginState : Type := {
  nodeCount : nat;
  meshToNodeIndex : gmap string nat;
  materialCount : nat;
  materialToIndex : gmap string nat
}.

Definition initialPluginState : PluginState :=
  {| nodeCount := 0; meshToNodeIndex := ∅; materialCount := 0; materialToIndex := ∅ |}.

Definition writeNode (obj : Object3D) (st : PluginState) : PluginState :=
  {| nodeCount := S (nodeCount st);
     meshToNodeIndex :=
       if isMesh obj then <[object_name obj := nodeCount st]> (meshToNodeIndex st)
       else meshToNodeIndex st;
     materialCount := materialCount st;
     materialToIndex := materialToIndex st |}.

End Scene.

Arguments Object {Geometry Material}.
Arguments GroupKind {Geometry Material}.
Arguments SkinnedMeshKind {Geometry Material}.
Arguments BoneKind {Geometry Material}.
Arguments mkPart {Geometry Material}.
Arguments object_name {Geometry Material}.
Arguments object_kind {Geometry Material}.
Arguments object_children {Geometry Material}.
Arguments isMesh {Geometry Material}.
Arguments part_name {Geometry Material}.
Arguments part_children {Geometry Material}.
Arguments Part_add {Geometry Material}.
Arguments Part_build {Geometry Material}.
Arguments traverse {Geometry Material}.
Arguments Object3D_add {Geometry Material}.
Arguments Vector3_add {R}.
Arguments position_add {Geometry Material R}.
Arguments composeModel {Geometry Material R}.
Arguments nodeNames {Geometry Material}.
Arguments parts {Geometry Material}.
Arguments writeNode {Geometry Material}.

(** [writeMaterialAsync]; only the material's name is read. *)
Definition writeMaterialAsync (material_name : string) (st : PluginState)
    : PluginState :=
  {| nodeCount := nodeCount st;
     meshToNodeIndex := meshToNodeIndex st;
     materialCount := S (materialCount st);
     materialToIndex := <[material_name := materialCount st]> (materialToIndex st) |}.

(** The part of the glTF JSON document the hook reads and writes. *)
Record NodeDef : Type := { node_name : option string }.

Record TextureTransformBind : Type := {
  bind_material : option nat;
  bind_offset : number * number;
  bind_scale : number * number
}.

Record Expression : Type := {
  isBinary : bool;
  overrideBlink : string;
  overrideLookAt : string;
  overrideMouth : string;
  textureTransformBinds : list TextureTransformBind
}.

Record HumanBone : Type := { node : nat }.

Record Meta : Type := {
  meta_name : string; meta_version : string; meta_authors : list string;
  meta_licenseUrl : string
}.

Record VRMC_vrm : Type := {
  specVersion : string;
  meta : Meta;
  humanBones : gmap string HumanBone;
  preset : list (string * Expression)
}.

Inductive ExtensionValue : Type :=
| VrmExtension (v : VRMC_vrm)
| OtherExtension.

Record Gltf : Type := {
  nodes : option (list NodeDef);
  extensionsUsed : option (list string);
  extensions : option (gmap string ExtensionValue)
}.

(** The exporter's writer object: its own set of used extensions (an object
    used as a set of keys) and the document under construction. *)
Record Parser : Type := {
  parser_extensionsUsed : gmap string bool;
  json : Gltf
}.

Inductive JSError : Type := TypeError.

(** How a call ends: normally with a value, or by a thrown error. *)
Inductive Completion (A : Type) : Type :=
| Normal (a : A)
| Throw (e : JSError).
Arguments Normal {A}.
Arguments Throw {A}.

Definition boneNames : list string :=
  ["hips"; "spine"; "chest"; "upperChest"; "neck"; "head";
   "leftUpperLeg"; "leftLowerLeg"; "leftFoot";
   "rightUpperLeg"; "rightLowerLeg"; "rightFoot";
   "leftShoulder"; "leftUpperArm"; "leftLowerArm"; "leftHand";
   "rightShoulder"; "rightUpperArm"; "rightLowerArm"; "rightHand"].

(** The names given to the head's materials by [createHead]. *)
Definition head_mouthMaterial_name : string := "headMouthMaterial".
Definition head_leftEyeMaterial_name : string := "headLeftEyeMaterial".
Definition head_rightEyeMaterial_name : string := "headRightEyeMaterial".

(** [gltf.nodes.forEach((node, index) => { if (node.name)
    nodeNameToIndex.set(node.name, index) })]: an absent or empty name is
    skipped, a repeated name keeps the later index. *)
Definition nodeNameToIndex_step (acc : gmap string nat * nat) (nd : NodeDef)
    : gmap string nat * nat :=
  (match node_name nd with
   | Some s => if decide (s = EmptyString) then acc.1 else <[s := acc.2]> acc.1
   | None => acc.1
   end, S acc.2).

Definition nodeNameToIndex (nds : list NodeDef) : gmap string nat :=
  (foldl nodeNameToIndex_step (∅, 0) nds).1.

(** The text of the [console.warn] call. *)
Definition dquote : string := String (Ascii.ascii_of_nat 34) EmptyString.
Definition boneWarning (boneName : string) : string :=
  "Bone " +:+ dquote +:+ boneName +:+ dquote +:+ " not found in the scene.".

(** [boneNames.forEach(...)]: the map under construction and the warnings
    written to the console. *)
Definition humanBones_step (nodeNameToIndex : gmap string nat)
    (acc : gmap string HumanBone * list string) (boneName : string)
    : gmap string HumanBone * list string :=
  match nodeNameToIndex !! boneName with
  | Some nodeIndex => (<[boneName := {| node := nodeIndex |}]> acc.1, acc.2)
  | None => (acc.1, acc.2 ++ [boneWarning boneName])
  end.

Definition collectHumanBones (nodeNameToIndex : gmap string nat)
    : gmap string HumanBone * list string :=
  foldl (humanBones_step nodeNameToIndex) (∅, []) boneNames.

Section AfterParse.
Context {R : Rounding}.
Local Open Scope js_scope.

(** One entry of a [textureTransformBinds] array. *)
Definition textureBind (st : PluginState) (materialName : string)
    (kind : TextureKind) : TextureTransformBind :=
  {| bind_material := materialToIndex st !! materialName;
     bind_offset :=
       (0, int (Z.of_nat (TextureKindToIndex kind))
           * (1 / int (Z.of_nat (length TextureKinds))));
     bind_scale := (1, 1) |}.

Definition binaryExpression (binds : list TextureTransformBind) : Expression :=
  {| isBinary := true; overrideBlink := "none"; overrideLookAt := "none";
     overrideMouth := "none"; textureTransformBinds := binds |}.

(** The object literal under [expressions.preset]. *)
Definition presetExpressions (st : PluginState) : list (string * Expression) :=
  [("aa", binaryExpression [textureBind st head_mouthMaterial_name aa]);
   ("ih", binaryExpression [textureBind st head_mouthMaterial_name ih]);
   ("ou", binaryExpression [textureBind st head_mouthMaterial_name ou]);
   ("ee", binaryExpression [textureBind st head_mouthMaterial_name ee]);
   ("oh", binaryExpression [textureBind st head_mouthMaterial_name oh]);
   ("blink", binaryExpression [textureBind st head_leftEyeMaterial_name blinkLeft;
                               textureBind st head_rightEyeMaterial_name blinkRight]);
   ("blinkLeft", binaryExpression [textureBind st head_leftEyeMaterial_name blinkLeft]);
   ("blinkRight", binaryExpression [textureBind st head_rightEyeMaterial_name blinkRight])].

(** [afterParse]: the parser with its document rewritten, and the warnings
    written to the console.  [gltf.nodes.forEach] throws when the document
    has no [nodes] array. *)
Definition afterParse (st : PluginState) (parser : Parser)
    : Completion (Parser * list string) :=
  let parserUsed := <["VRMC_vrm" := true]> (parser_extensionsUsed parser) in
  let gltf := json parser in
  match nodes gltf with
  | None => Throw TypeError
  | Some nds =>
      let nodeNameToIndex := nodeNameToIndex nds in
      let '(humanBones, warnings) := collectHumanBones nodeNameToIndex in
      let used := default [] (extensionsUsed gltf) ++ ["VRMC_vrm"] in
      let vrm :=
        {| specVersion := "1.0";
           meta := {| meta_name := "kgtkr"; meta_version := "1.0";
                      meta_authors := ["kgtkr"];
                      meta_licenseUrl := "https://vrm.dev/licenses/1.0/" |};
           humanBones := humanBones;
           preset := presetExpressions st |} in
      let exts := <["VRMC_vrm" := VrmExtension vrm]> (default ∅ (extensions gltf)) in
      Normal ({| parser_extensionsUsed := parserUsed;
                 json := {| nodes := Some nds; extensionsUsed := Some used;
                            extensions := Some exts |} |},
              warnings)
  end.

(** The hook run [n] times in a row on the same parser. *)
Fixpoint afterParse_times (n : nat) (st : PluginState) (parser : Parser)
    : Completion (Parser * list string) :=
  match n with
  | O => Normal (parser, [])
  | S n' =>
      match afterParse st parser with
      | Normal (parser', warnings) =>
          match afterParse_times n' st parser' with
          | Normal (parser'', warnings') => Normal (parser'', warnings ++ warnings')
          | Throw e => Throw e
          end
      | Throw e => Throw e
      end
  end.

(** The [VRMC_vrm] entry of a document's [extensions]. *)
Definition vrmOf (gltf : Gltf) : option VRMC_vrm :=
  match extensions gltf with
  | Some exts =>
      match exts !! "VRMC_vrm" with
      | Some (VrmExtension v) => Some v
      | _ => None
      end
  | None => None
  end.

End AfterParse.

(** ** The character assembled at top level *)

Section Character.
Context {R : Rounding}.
Local Open Scope js_scope.

(** [{ left: 1, right: -1 }[namePrefix]] *)
Definition direction (namePrefix : string) : number :=
  if decide (namePrefix = "left") then 1 else - int 1.

Definition leafPart (name : string) (position : vec3) : Part unit unit :=
  mkPart name tt tt position [].

(** The parts, with the [add] calls of the top level applied: geometry and
    material are left out. *)
Definition characterParts : Part unit unit :=
  let arm namePrefix :=
    mkPart (namePrefix +:+ "Arm") tt tt (dec 0.6 * direction namePrefix, dec 0.2, 0)
      [leafPart (namePrefix +:+ "Hand") (dec 0.1 * direction namePrefix, 0, 0)] in
  let leg namePrefix :=
    mkPart (namePrefix +:+ "Leg") tt tt (dec 0.15 * direction namePrefix, - dec 0.9, 0)
      [leafPart (namePrefix +:+ "Foot") (0, 0, dec 0.05)] in
  mkPart "body" tt tt (0, - dec 0.05, 0)
    [leafPart "head" (0, dec 0.65, 0); arm "left"; arm "right"; leg "left"; leg "right"].

Definition boneObject (name : string) (position : vec3)
    (children : list (Object3D unit unit)) : Object3D unit unit :=
  Object BoneKind name (Some position) children.

(** The bone hierarchy under [body.hipsBone] after the top-level [add]
    calls. *)
Definition characterBones : Object3D unit unit :=
  let arm namePrefix :=
    boneObject (namePrefix +:+ "Shoulder") (dec 0.05 * direction namePrefix, 0, 0)
      [boneObject (namePrefix +:+ "UpperArm") (dec 0.1 * direction namePrefix, 0, 0)
        [boneObject (namePrefix +:+ "LowerArm") (dec 0.2 * direction namePrefix, 0, 0)
          [boneObject (namePrefix +:+ "Hand") (direction namePrefix * dec 0.3, 0, 0) []]]] in
  let leg namePrefix :=
    boneObject (namePrefix +:+ "UpperLeg") (dec 0.15 * direction namePrefix, - dec 0.05, 0)
      [boneObject (namePrefix +:+ "LowerLeg") (0, - dec 0.3, 0)
        [boneObject (namePrefix +:+ "Foot") (0, - dec 0.3, 0) []]] in
  boneObject "hips" (0, - dec 0.3, 0)
    [boneObject "spine" (0, dec 0.1, 0)
      [boneObject "chest" (0, dec 0.2, 0)
        [boneObject "upperChest" (0, dec 0.2, 0)
          [boneObject "neck" (0, dec 0.1, 0)
             [boneObject "head" (0, dec 0.05, 0) []];
           arm "left"; arm "right"]]];
     leg "left"; leg "right"].

(** The names of the bones in the order the [create...] calls of the top
    level hand them to [addBone]. *)
Definition characterBoneOrder : list string :=
  ["head"; "leftShoulder"; "leftUpperArm"; "leftLowerArm";
   "rightShoulder"; "rightUpperArm"; "rightLowerArm"; "leftHand"; "rightHand";
   "hips"; "spine"; "chest"; "upperChest"; "neck";
   "leftUpperLeg"; "leftLowerLeg"; "rightUpperLeg"; "rightLowerLeg";
   "leftFoot"; "rightFoot"].

End Character.

(** ** Vocabulary of the statements *)

(** The number [a] is finite and its value is the rational [q]. *)
Definition represents (a : number) (q : Q) : Prop :=
  match a with Fin _ p => (p == q)%Q | _ => False end.

(** The number [a] is neither NaN nor an infinity. *)
Definition finite (a : number) : Prop :=
  match a with Fin _ _ => True | _ => False end.

(** The rational [q] brought into the interval [[0,1]]. *)
Definition Qclamp (q : Q) : Q :=
  if Qltb q 0 then 0%Q else if Qltb 1 q then 1%Q else q.



(** The group a face is pushed to, by the priority chain of the loop body. *)
Definition faceGroupOf (vs : VertexSets) (index : option (list N)) (f : nat) : nat :=
  let tri := triangleAt index f in
  if (2 <=? countIn (mouthVertexIndices vs) tri)%nat then GROUP_MOUTH
  else if (2 <=? countIn (leftEyeVertexIndices vs) tri)%nat then GROUP_LEFT_EYE
  else if (2 <=? countIn (rightEyeVertexIndices vs) tri)%nat then GROUP_RIGHT_EYE
  else GROUP_FACE.

(** The faces among the first [n] that go to group [k], in loop order. *)
Definition facesIn (vs : VertexSets) (index : option (list N)) (n : nat) (k : nat)
    : list nat :=
  List.filter (fun f => Nat.eqb (faceGroupOf vs index f) k) (seq 0 n).

(** Their vertices, as a flat index list. *)
Definition facesOf (vs : VertexSets) (index : option (list N)) (n : nat) (k : nat)
    : list (option N) :=
  flat_map (triangleAt index) (facesIn vs index n k).

(** The index range a group covers in a buffer. *)
Definition groupRange {A} (g : GeometryGroup) (buffer : list A) : list A :=
  take (group_count g) (drop (group_start g) buffer).

Section SceneVocabulary.
Context {Geometry Material : Type}.

(** The mesh and the group [Part.build] makes for a part, without the
    [meshes] accumulator. *)
Definition meshOf (p : Part Geometry Material) : Object3D Geometry Material :=
  match p with
  | mkPart name geometry material _ _ =>
      Object (SkinnedMeshKind geometry material) name None []
  end.

Fixpoint groupOf (p : Part Geometry Material) : Object3D Geometry Material :=
  match p with
  | mkPart name _ _ position children =>
      Object GroupKind name (Some position) (meshOf p :: map groupOf children)
  end.

End SceneVocabulary.

(** Node [i] of the list carries the name [s]. *)
Definition named (nds : list NodeDef) (i : nat) (s : string) : Prop :=
  node_name <$> nds !! i = Some (Some s).

(** Node [i] is the last one carrying the name [s]. *)
Definition lastNamed (nds : list NodeDef) (s : string) (i : nat) : Prop :=
  named nds i s /\ forall j, i < j -> ~ named nds j s.

(** [writeMaterialAsync] called on each material of a list in turn. *)
Definition writeMaterials (names : list string) (st : PluginState) : PluginState :=
  foldl (fun st name => writeMaterialAsync name st) st names.

(** The material index of every bind of every preset, by preset name. *)
Definition presetMaterials (v : VRMC_vrm) : list (string * list (option nat)) :=
  (fun e => (e.1, bind_material <$> textureTransformBinds e.2)) <$> preset v.

(** A document with an empty node list and no extension yet. *)
Definition emptyDocument : Parser :=
  {| parser_extensionsUsed := ∅;
     json := {| nodes := Some []; extensionsUsed := None; extensions := None |} |}.

(** A document whose nodes carry the twenty humanoid bone names. *)
Definition rigDocument : Parser :=
  {| parser_extensionsUsed := ∅;
     json := {| nodes := Some ((fun s => {| node_name := Some s |}) <$> boneNames);
                extensionsUsed := None; extensions := None |} |}.

(** How the classification loop fills the three sets. *)
Definition setsBelow (vs : VertexSets) (n : nat) : Prop :=
  forall x, x ∈ mouthVertexIndices vs ++ leftEyeVertexIndices vs ++ rightEyeVertexIndices vs
            -> (x < N.of_nat n)%N.

Definition setsDisjoint (vs : VertexSets) : Prop :=
  mouthVertexIndices vs ## leftEyeVertexIndices vs
  /\ mouthVertexIndices vs ## rightEyeVertexIndices vs
  /\ leftEyeVertexIndices vs ## rightEyeVertexIndices vs.

(** ** Debug colours, the texture atlas, runs of the hooks *)

Section Visualization.
Context {R : Rounding}.
Local Open Scope js_scope.

(** The inner loop of [addBoneWeightVisualization] over the slots [js] of
    vertex [i]: the weight of the first slot bound to the bone, 0 when no
    slot is.  A weight read past the end of its array is [undefined], which
    a float buffer stores as NaN. *)
Fixpoint slotWeight (debugBoneWeights : nat) (skinIndices : list nat)
    (skinWeights : list number) (i : nat) (js : list nat) : number :=
  match js with
  | [] => 0
  | j :: rest =>
      if bool_decide (skinIndices !! (i * 4 + j)%nat = Some debugBoneWeights)
      then default NaN (skinWeights !! (i * 4 + j)%nat)
      else slotWeight debugBoneWeights skinIndices skinWeights i rest
  end.

(** [addBoneWeightVisualization], for a bone index [debugBoneWeights] that
    is not [null]: the [color] attribute, three numbers per vertex. *)
Definition addBoneWeightVisualization (debugBoneWeights : nat) (vertexCount : nat)
    (skinIndices : list nat) (skinWeights : list number) : list number :=
  flat_map (fun i =>
      let weight := slotWeight debugBoneWeights skinIndices skinWeights i (seq 0 4) in
      let red := weight in
      let green := weight * dec 0.3 in
      let blue := 0 in
      [red; green; blue]) (seq 0 vertexCount).

End Visualization.

(** One [g.drawImage(image, dx, dy, dWidth, dHeight)] call of the atlas. *)
Record DrawImage : Type := {
  draw_kind : TextureKind;
  draw_dx : nat; draw_dy : nat; draw_dWidth : nat; draw_dHeight : nat
}.

Record AtlasCanvas : Type := {
  canvas_width : nat;
  canvas_height : nat;
  canvas_draws : list DrawImage
}.

(** [createFaceTextureAtlasCanvas], for any list of kinds: one tile per
    kind, stacked from the top. *)
Definition createFaceTextureAtlasCanvas_of (kinds : list TextureKind) : AtlasCanvas :=
  let width := 256 in
  let h := 256 in
  let height := h * length kinds in
  {| canvas_width := width;
     canvas_height := height;
     canvas_draws :=
       imap (fun i kind => {| draw_kind := kind; draw_dx := 0; draw_dy := i * h;
                              draw_dWidth := width; draw_dHeight := h |}) kinds |}.

Definition createFaceTextureAtlasCanvas : AtlasCanvas :=
  createFaceTextureAtlasCanvas_of TextureKinds.

(** [writeNode] called on each object of a list in turn. *)
Definition writeNodes {Geometry Material : Type}
    (objs : list (Object3D Geometry Material)) (st : PluginState) : PluginState :=
  foldl (fun st obj => writeNode obj st) st objs.

(** The four slots of vertex [i] in a buffer with four entries a vertex. *)
Definition vertexSlots {A} (buffer : list A) (i : nat) : list A :=
  take 4 (drop (4 * i) buffer).

(** The value of a finite number, when it has one. *)
Definition valueOf (a : number) : option Q :=
  match a with Fin _ q => Some q | _ => None end.

(** The number [a] is finite and its value lies within [e] of [q]. *)
Definition near (a : number) (q e : Q) : Prop :=
  exists s p, a = Fin s p /\ (q - e <= p <= q + e)%Q.

(** ** The capsule geometry *)

(** The geometries of three.js the program builds, by the arguments of
    their constructors. *)
Inductive BufferGeometry : Type :=
| SphereGeometry (radius : number) (widthSegments heightSegments : nat)
| CylinderGeometry (radiusTop radiusBottom height : number)
                   (radialSegments heightSegments : nat).

(** A geometry with the [translate(0, y, 0)] calls made on it, in order. *)
Record Translated : Type := {
  shape : BufferGeometry;
  translations : list number
}.

Section Capsule.
Context {R : Rounding}.
Local Open Scope js_scope.

(** [createSphereCylinder]: the geometries handed to [mergeGeometries], each
    with its own translation followed by the translation of the merged
    geometry. *)
Definition createSphereCylinder (radiusTop radiusBottom height : number)
    (sphereTop sphereBottom : bool) : list Translated :=
  let topHeight := if sphereTop then radiusTop else 0 in
  let bottomHeight := if sphereBottom then radiusBottom else 0 in
  let cylinderHeight := height - topHeight - bottomHeight in
  let geometries :=
    (if sphereTop
     then [{| shape := SphereGeometry radiusTop 16 16;
              translations := [cylinderHeight / 2] |}]
     else [])
    ++ [{| shape := CylinderGeometry radiusTop radiusBottom cylinderHeight 16 16;
           translations := [] |}]
    ++ (if sphereBottom
        then [{| shape := SphereGeometry radiusBottom 16 16;
                 translations := [(- cylinderHeight) / 2] |}]
        else []) in
  (fun g => {| shape := shape g;
               translations := translations g ++ [cylinderHeight / 2 + bottomHeight] |})
    <$> geometries.

(** Where the translations take a point of height [y]. *)
Definition translatedY (g : Translated) (y : number) : number :=
  foldl (fun y t => y + t) y (translations g).

End Capsule.

(** ** Parts as shared objects *)

(** A [Part] object as the program holds it: its children are references
    to other [Part] objects.  Geometry and material are left out. *)
Record PartCell : Type := {
  cell_name : string;
  cell_position : vec3;
  cell_children : list nat
}.

(** [new Part(name, geometry, material, position)]: a reference is the
    position of the object in the list of the objects created so far. *)
Definition Store_new (name : string) (position : vec3) (s : list PartCell)
    : nat * list PartCell :=
  (length s, s ++ [{| cell_name := name; cell_position := position;
                      cell_children := [] |}]).

(** [parent.add(child)] on references: the parent object is updated in
    place, so every holder of a reference to it sees the new child. *)
Definition Store_add (parent child : nat) (s : list PartCell) : list PartCell :=
  alter (fun c => {| cell_name := cell_name c; cell_position := cell_position c;
                     cell_children := cell_children c ++ [child] |}) parent s.

(** The tree [build] walks from the object [r]: [None] when [fuel] calls
    deep is not enough, or when a reference is dangling. *)
Fixpoint Store_part (fuel : nat) (s : list PartCell) (r : nat)
    : option (Part unit unit) :=
  match fuel with
  | O => None
  | S fuel =>
      match s !! r with
      | Some c =>
          match mapM (Store_part fuel s) (cell_children c) with
          | Some children => Some (mkPart (cell_name c) tt tt (cell_position c) children)
          | None => None
          end
      | None => None
      end
  end.

(** The objects met within [fuel] steps of the object [r]. *)
Fixpoint Store_reach (fuel : nat) (s : list PartCell) (r : nat) : list nat :=
  match fuel with
  | O => [r]
  | S fuel =>
      r :: flat_map (Store_reach fuel s)
             (match s !! r with Some c => cell_children c | None => [] end)
  end.

Section TopLevel.
Context {R : Rounding}.
Local Open Scope js_scope.

(** The [new Part] and [add] calls of the top level, in program order: the
    reference held by [body.part], and the objects. *)
Definition topLevelParts : nat * list PartCell :=
  let s := [] in
  let '(head, s) := Store_new "head" (0, dec 0.65, 0) s in
  let '(armL, s) :=
    Store_new ("left" +:+ "Arm") (dec 0.6 * direction "left", dec 0.2, 0) s in
  let '(armR, s) :=
    Store_new ("right" +:+ "Arm") (dec 0.6 * direction "right", dec 0.2, 0) s in
  let '(handL, s) :=
    Store_new ("left" +:+ "Hand") (dec 0.1 * direction "left", 0, 0) s in
  let '(handR, s) :=
    Store_new ("right" +:+ "Hand") (dec 0.1 * direction "right", 0, 0) s in
  let '(body, s) := Store_new "body" (0, - dec 0.05, 0) s in
  let s := Store_add body head s in
  let s := Store_add body armL s in
  let s := Store_add body armR s in
  let s := Store_add armL handL s in
  let s := Store_add armR handR s in
  let '(legL, s) :=
    Store_new ("left" +:+ "Leg") (dec 0.15 * direction "left", - dec 0.9, 0) s in
  let '(legR, s) :=
    Store_new ("right" +:+ "Leg") (dec 0.15 * direction "right", - dec 0.9, 0) s in
  let s := Store_add body legL s in
  let s := Store_add body legR s in
  let '(footL, s) := Store_new ("left" +:+ "Foot") (0, 0, dec 0.05) s in
  let '(footR, s) := Store_new ("right" +:+ "Foot") (0, 0, dec 0.05) s in
  let s := Store_add legL footL s in
  let s := Store_add legR footR s in
  (body, s).

End TopLevel.

(** * Properties *)

(** ** Numbers *)

Lemma Qltb_lt p q : Qltb p q = true <-> (p < q)%Q.
Proof.
  unfold Qltb. rewrite negb_true_iff. split.
  - intros H. apply Qnot_le_lt. intros Hle. apply Qle_bool_iff in Hle. congruence.
  - intros H. destruct (Qle_bool q p) eqn:E; [|reflexivity].
    apply Qle_bool_iff in E. lra.
Qed.

Lemma Qltb_ge p q : Qltb p q = false <-> (q <= p)%Q.
Proof.
  unfold Qltb. rewrite negb_false_iff. apply Qle_bool_iff.
Qed.

Lemma Qeq_bool_false p q : Qeq_bool p q = false <-> ~ (p == q)%Q.
Proof.
  split.
  - intros H Hq. apply Qeq_bool_iff in Hq. congruence.
  - intros H. destruct (Qeq_bool p q) eqn:E; [|reflexivity].
    apply Qeq_bool_iff in E. contradiction.
Qed.

Section RoundingFacts.
Context {R : Rounding}.
Local Open Scope Q_scope.

(** The error bound without absolute values. *)
Lemma rnd_error_bounds q :
  (0 <= q -> q - rnd_u * q <= rnd q <= q + rnd_u * q) /\
  (q <= 0 -> q + rnd_u * q <= rnd q <= q - rnd_u * q).
Proof.
  pose proof (rnd_error q) as H. apply Qabs_Qle_condition in H.
  split; intros Hq.
  - rewrite (Qabs_pos q Hq) in H. lra.
  - rewrite (Qabs_neg q Hq) in H. lra.
Qed.

Lemma rnd_0 : rnd 0 == 0.
Proof. destruct (rnd_error_bounds 0) as [H _]. lra. Qed.

Lemma rnd_u_half : rnd_u <= 1 # 2.
Proof.
  destruct rnd_u_small as [_ H]. eapply Qle_trans; [exact H | discriminate].
Qed.

Lemma rnd_nonzero q : rnd q == 0 -> q == 0.
Proof.
  intros H. destruct (rnd_error_bounds q) as [Hp Hn].
  pose proof rnd_u_half. pose proof rnd_u_small as [Hu _].
  destruct (Qlt_le_dec q 0) as [Hq | Hq].
  - assert (q <= 0) as Hq' by lra. specialize (Hn Hq'). nra.
  - specialize (Hp Hq). nra.
Qed.

Lemma rnd_pos q : 0 < q -> 0 < rnd q.
Proof.
  intros Hq. pose proof (rnd_mono 0 q) as Hm. pose proof rnd_0.
  destruct (Qeq_dec (rnd q) 0) as [E | E].
  - apply rnd_nonzero in E. lra.
  - assert (0 <= rnd q) by lra. lra.
Qed.

Lemma rnd_neg q : q < 0 -> rnd q < 0.
Proof.
  intros Hq. pose proof (rnd_mono q 0) as Hm. pose proof rnd_0.
  destruct (Qeq_dec (rnd q) 0) as [E | E].
  - apply rnd_nonzero in E. lra.
  - assert (rnd q <= 0) by lra. lra.
Qed.

Lemma rnd_unit q : 0 <= q <= 1 -> 0 <= rnd q <= 1.
Proof.
  intros [H0 H1]. pose proof (rnd_mono _ _ H0). pose proof (rnd_mono _ _ H1).
  pose proof rnd_0. pose proof rnd_1. lra.
Qed.

Lemma rnd_nonneg q : 0 <= q -> 0 <= rnd q.
Proof. intros H. pose proof (rnd_mono _ _ H). pose proof rnd_0. lra. Qed.

Lemma rnd_nonpos q : q <= 0 -> rnd q <= 0.
Proof. intros H. pose proof (rnd_mono _ _ H). pose proof rnd_0. lra. Qed.

Lemma rnd_ge_1 q : 1 <= q -> 1 <= rnd q.
Proof. intros H. pose proof (rnd_mono _ _ H). pose proof rnd_1. lra. Qed.

(** *** Overflow *)

(** Rounding moves a value of size at most 1000 by less than 1. *)
Lemma rnd_small q : -1000 <= q <= 1000 -> -1001 <= rnd q <= 1001.
Proof.
  intros [Hl Hh]. destruct (rnd_error_bounds q) as [Hp Hn].
  destruct rnd_u_small as [Hu0 Hu1].
  destruct (Qlt_le_dec q 0) as [Hq | Hq].
  - assert (q <= 0) as Hq' by lra. specialize (Hn Hq'). split; nra.
  - specialize (Hp Hq). split; nra.
Qed.

(** No value of size at most 1000 overflows. *)
Lemma overflows_small q : -1000 <= q <= 1000 -> overflows q = false.
Proof.
  intros H. unfold overflows. apply Qltb_ge.
  pose proof (rnd_small q H). pose proof rnd_max_large.
  apply Qabs_Qle_condition. lra.
Qed.

Lemma result_Fin s q : overflows q = false -> result s q = Fin s (rnd q).
Proof. unfold result. intros ->. reflexivity. Qed.

Lemma result_Infinity s q :
  overflows q = true -> result s q = Infinity (Qltb q 0).
Proof. unfold result. intros ->. reflexivity. Qed.

Lemma result_small s q : -1000 <= q <= 1000 -> result s q = Fin s (rnd q).
Proof. intros H. apply result_Fin, overflows_small, H. Qed.

(** What overflows is not zero. *)
Lemma overflows_nonzero q : overflows q = true -> ~ q == 0.
Proof.
  unfold overflows. intros H E. apply Qltb_lt in H.
  pose proof (rnd_proper _ _ E) as E'. pose proof rnd_0. pose proof rnd_max_large.
  revert H. apply Qabs_case; intros; lra.
Qed.

Lemma finite_result s q : finite (result s q) <-> overflows q = false.
Proof.
  unfold result. destruct (overflows q); simpl; split; try done.
Qed.

(** The sign bit of a finite value that is not a zero. *)
Lemma signbit_nonzero s q : ~ q == 0 -> signbit (Fin s q) = Qltb q 0.
Proof.
  intros H. unfold signbit. apply Qeq_bool_false in H. by rewrite H.
Qed.

(** The sign of a rounded value. *)
Lemma Qltb_rnd q : Qltb (rnd q) 0 = Qltb q 0.
Proof.
  destruct (Qltb q 0) eqn:E.
  - apply Qltb_lt in E. apply Qltb_lt, rnd_neg, E.
  - apply Qltb_ge in E. apply Qltb_ge, rnd_nonneg, E.
Qed.

End RoundingFacts.

(** ** Skin weights *)

(** The third and fourth slot of every vertex written by the vertex loops. *)
Lemma flat_map_slots_zero {A} (f : A -> list number) (l : list A) :
  (forall p, exists a b, f p = [a; b; 0%js; 0%js]) ->
  forall k x, flat_map f l !! k = Some x -> 2 <= k mod 4 -> x = 0%js.
Proof.
  intros Hf. induction l as [|p l IH]; intros k x Hk Hmod; [destruct k; discriminate|].
  simpl in Hk. destruct (Hf p) as (a & b & E). rewrite E in Hk.
  destruct k as [|[|[|[|k]]]]; simpl in Hk.
  1-2: exfalso; vm_compute in Hmod; lia.
  1-2: congruence.
  apply (IH k x Hk).
  replace (S (S (S (S k)))) with (k + 1 * 4) in Hmod by lia.
  by rewrite Nat.Div0.mod_add in Hmod.
Qed.

Section LoopSlots.
Context {R : Rounding}.

Lemma createArm_skin_slots direction upper lower position k x :
  (createArm_skin direction upper lower position).2 !! k = Some x ->
  2 <= k mod 4 -> x = 0%js.
Proof. apply flat_map_slots_zero. intros p. eexists _, _. reflexivity. Qed.

Lemma createLeg_skin_slots upper lower position k x :
  (createLeg_skin upper lower position).2 !! k = Some x ->
  2 <= k mod 4 -> x = 0%js.
Proof. apply flat_map_slots_zero. intros p. eexists _, _. reflexivity. Qed.

Lemma createHand_skin_slots bone position k x :
  (createHand_skin bone position).2 !! k = Some x ->
  2 <= k mod 4 -> x = 0%js.
Proof. apply flat_map_slots_zero. intros p. eexists _, _. reflexivity. Qed.

Lemma createBody_skin_slots hips spine chest upperChest neck position k x :
  (createBody_skin hips spine chest upperChest neck position).2 !! k = Some x ->
  2 <= k mod 4 -> x = 0%js.
Proof.
  apply flat_map_slots_zero. intros p.
  cbv beta zeta.
  destruct (lt _ _); [|destruct (lt _ _); [|destruct (lt _ _)]];
    eexists _, _; reflexivity.
Qed.
End LoopSlots.

Section SmoothstepProperties.
Context {R : Rounding}.
Local Open Scope Q_scope.

#[local] Instance rnd_Proper : Proper (Qeq ==> Qeq) rnd.
Proof. intros p q H. apply rnd_proper, H. Qed.

Lemma Qclamp_unit q : 0 <= Qclamp q <= 1.
Proof.
  unfold Qclamp. destruct (Qltb q 0) eqn:E0; [lra|].
  destruct (Qltb 1 q) eqn:E1; [lra|].
  apply Qltb_ge in E0, E1. lra.
Qed.

Lemma Qclamp_eq q c : q == c -> 0 <= c <= 1 -> Qclamp q == c.
Proof.
  intros E [H0 H1]. unfold Qclamp.
  destruct (Qltb q 0) eqn:E0; [apply Qltb_lt in E0; lra|].
  destruct (Qltb 1 q) eqn:E1; [apply Qltb_lt in E1; lra|]. exact E.
Qed.

Lemma Qclamp_low q : q <= 0 -> Qclamp q == 0.
Proof.
  intros H. unfold Qclamp. destruct (Qltb q 0) eqn:E0; [reflexivity|].
  apply Qltb_ge in E0.
  destruct (Qltb 1 q) eqn:E1; [apply Qltb_lt in E1; lra | lra].
Qed.

Lemma Qclamp_high q : 1 <= q -> Qclamp q == 1.
Proof.
  intros H. unfold Qclamp.
  destruct (Qltb q 0) eqn:E0; [apply Qltb_lt in E0; lra|].
  destruct (Qltb 1 q) eqn:E1; [reflexivity | apply Qltb_ge in E1; lra].
Qed.

(** The sign of a quotient. *)
Lemma Qdiv_nonpos n d : (0 < d /\ n <= 0) \/ (d < 0 /\ 0 <= n) -> n / d <= 0.
Proof.
  intros [[Hd Hn] | [Hd Hn]].
  - apply Qle_shift_div_r; [exact Hd | lra].
  - assert (n / d == (- n) / (- d)) as -> by (field; lra).
    apply Qle_shift_div_r; lra.
Qed.

Lemma Qdiv_ge_1 n d : (0 < d /\ d <= n) \/ (d < 0 /\ n <= d) -> 1 <= n / d.
Proof.
  intros [[Hd Hn] | [Hd Hn]].
  - apply Qle_shift_div_l; [exact Hd | lra].
  - assert (n / d == (- n) / (- d)) as -> by (field; lra).
    apply Qle_shift_div_l; lra.
Qed.

(** The double clamp [Math.max(0, Math.min(1, a))] on a finite value. *)
Lemma clamp_Fin s p :
  exists s' q, Math_max 0%js (Math_min 1%js (Fin s p)) = Fin s' q /\ q == Qclamp p.
Proof.
  unfold Math_min, Math_max, Qclamp, int; simpl.
  change (inject_Z 1) with 1. change (inject_Z 0) with 0.
  destruct (Qltb 1 p) eqn:E1; simpl.
  - apply Qltb_lt in E1.
    assert (Qltb p 0 = false) as -> by (apply Qltb_ge; lra).
    exists false, 1. split; reflexivity.
  - apply Qltb_ge in E1. destruct (Qltb p 1) eqn:E2; simpl.
    + destruct (Qltb 0 p) eqn:E3; simpl.
      * apply Qltb_lt in E3.
        assert (Qltb p 0 = false) as -> by (apply Qltb_ge; lra).
        eexists _, _; split; reflexivity.
      * destruct (Qltb p 0) eqn:E4; eexists _, _; (split; [reflexivity|]).
        -- reflexivity.
        -- apply Qltb_ge in E3, E4. lra.
    + apply Qltb_ge in E2.
      assert (Qltb 0 p = true) as -> by (apply Qltb_lt; lra).
      assert (Qltb p 0 = false) as -> by (apply Qltb_ge; lra).
      eexists _, _; split; reflexivity.
Qed.

Lemma clamp_Infinity s :
  Math_max 0%js (Math_min 1%js (Infinity s)) = if s then 0%js else 1%js.
Proof. destruct s; reflexivity. Qed.

Lemma clamp_NaN : Math_max 0%js (Math_min 1%js NaN) = NaN.
Proof. reflexivity. Qed.

(** The polynomial before the second clamp, on a parameter in [[0,1]]:
    none of its operations overflows. *)
Lemma smoothstep_poly_value s t :
  0 <= t <= 1 ->
  exists b, (Fin s t * Fin s t * (3 - 2 * Fin s t))%js
            = Fin b (rnd (rnd (t * t) * rnd (3 + - rnd (2 * t)))).
Proof.
  intros Ht.
  assert (0 <= rnd (t * t) <= 1) as H1 by (apply rnd_unit; nra).
  assert (0 <= rnd (2 * t) <= 2) as H2.
  { pose proof (rnd_mono 0 (2 * t)). pose proof (rnd_mono (2 * t) 2).
    pose proof rnd_0. pose proof rnd_2. lra. }
  assert (1 <= rnd (3 + - rnd (2 * t)) <= 3) as H3.
  { pose proof (rnd_mono 1 (3 + - rnd (2 * t))).
    pose proof (rnd_mono (3 + - rnd (2 * t)) 3).
    pose proof rnd_1. pose proof rnd_3. lra. }
  eexists. unfold int. change (inject_Z 2) with 2. change (inject_Z 3) with 3.
  unfold mul at 2. rewrite result_small by nra.
  unfold mul at 2. rewrite result_small by lra.
  unfold sub, neg, add. rewrite result_small by lra.
  unfold mul. rewrite result_small by nra.
  reflexivity.
Qed.

(** The polynomial and the second clamp, on a parameter in [[0,1]]. *)
Lemma smoothstep_poly s t :
  0 <= t <= 1 ->
  exists s' w,
    Math_max 0%js (Math_min 1%js
      (Fin s t * Fin s t * (3 - 2 * Fin s t))%js) = Fin s' w
    /\ 0 <= w <= 1 /\ (t == 0 -> w == 0) /\ (t == 1 -> w == 1).
Proof.
  intros Ht.
  destruct (smoothstep_poly_value s t Ht) as [b ->].
  destruct (clamp_Fin b (rnd (rnd (t * t) * rnd (3 + - rnd (2 * t)))))
    as (s' & w & -> & Hw).
  exists s', w. split; [reflexivity|]. rewrite Hw.
  split; [apply Qclamp_unit|].
  split; intros E.
  - apply Qclamp_eq; [|lra].
    rewrite E. rewrite Qmult_0_l, rnd_0, Qmult_0_l, rnd_0.
    reflexivity.
  - apply Qclamp_eq; [|lra].
    rewrite E. rewrite !Qmult_1_l, rnd_1, Qmult_1_l, Qmult_1_r, rnd_2.
    assert (3 + - (2) == 1) as -> by reflexivity.
    rewrite rnd_1, rnd_1. reflexivity.
Qed.

Lemma smoothstep_of_t e0 e1 x s t :
  smoothstep_t e0 e1 x = Fin s t -> 0 <= t <= 1 ->
  exists s' w, smoothstep e0 e1 x = Fin s' w
               /\ 0 <= w <= 1 /\ (t == 0 -> w == 0) /\ (t == 1 -> w == 1).
Proof.
  intros Et Ht. unfold smoothstep. rewrite Et. cbv zeta.
  apply smoothstep_poly, Ht.
Qed.

(** The difference of two finite numbers: it is finite unless it
    overflows. *)
Lemma sub_Fin s p s' q :
  exists b, (Fin s p - Fin s' q)%js = result b (p + - q).
Proof. eexists. reflexivity. Qed.

(** The width of the interval, when it is finite and not zero. *)
Lemma width_Fin s0 p0 s1 p1 :
  ~ p0 == p1 -> overflows (p1 + - p0) = false ->
  exists b, (Fin s1 p1 - Fin s0 p0)%js = Fin b (rnd (p1 + - p0))
            /\ ~ rnd (p1 + - p0) == 0
            /\ signbit (Fin b (rnd (p1 + - p0))) = Qltb (p1 + - p0) 0.
Proof.
  intros Hne Hov. destruct (sub_Fin s1 p1 s0 p0) as [b ->].
  rewrite (result_Fin _ _ Hov). exists b. split; [reflexivity|].
  assert (~ rnd (p1 + - p0) == 0) as Hd
    by (intros H; apply rnd_nonzero in H; lra).
  split; [exact Hd|]. rewrite (signbit_nonzero _ _ Hd). apply Qltb_rnd.
Qed.

(** The parameter [t] at an infinite [x], over a finite width. *)
Lemma smoothstep_t_Infinity s0 p0 s1 p1 sx :
  ~ p0 == p1 -> overflows (p1 + - p0) = false ->
  smoothstep_t (Fin s0 p0) (Fin s1 p1) (Infinity sx)
  = if xorb sx (Qltb (p1 + - p0) 0) then 0%js else 1%js.
Proof.
  intros Hne Hov. unfold smoothstep_t.
  destruct (width_Fin s0 p0 s1 p1 Hne Hov) as (b & -> & Hd & Hs).
  assert ((Infinity sx - Fin s0 p0)%js = Infinity sx) as -> by reflexivity.
  unfold div. rewrite Hs. apply clamp_Infinity.
Qed.

(** The parameter [t] at a finite [x], over a finite width: the difference
    [x - edge0] and the quotient may overflow, and the clamp brings the
    infinity back to 0 or to 1. *)
Lemma smoothstep_t_Fin_width s0 p0 s1 p1 sx px :
  ~ p0 == p1 -> overflows (p1 + - p0) = false ->
  exists s t,
    smoothstep_t (Fin s0 p0) (Fin s1 p1) (Fin sx px) = Fin s t
    /\ 0 <= t <= 1
    /\ ((p0 < p1 /\ px <= p0) \/ (p1 < p0 /\ p0 <= px) -> t == 0)
    /\ ((p0 < p1 /\ p1 <= px) \/ (p1 < p0 /\ px <= p1) -> t == 1).
Proof.
  intros Hne Hov. unfold smoothstep_t.
  destruct (width_Fin s0 p0 s1 p1 Hne Hov) as (b & -> & Hd & Hs).
  set (d := rnd (p1 + - p0)) in *.
  assert (p0 < p1 -> 0 < d) as Hdpos by (intros; apply rnd_pos; lra).
  assert (p1 < p0 -> d < 0) as Hdneg by (intros; apply rnd_neg; lra).
  destruct (sub_Fin sx px s0 p0) as [bn ->].
  destruct (overflows (px + - p0)) eqn:Hn.
  - (* the difference overflows *)
    rewrite (result_Infinity _ _ Hn). apply overflows_nonzero in Hn.
    unfold div. rewrite Hs, clamp_Infinity.
    destruct (Qltb (px + - p0) 0) eqn:Sn, (Qltb (p1 + - p0) 0) eqn:Sd; simpl;
      [apply Qltb_lt in Sn | apply Qltb_lt in Sn | apply Qltb_ge in Sn
       | apply Qltb_ge in Sn];
      [apply Qltb_lt in Sd | apply Qltb_ge in Sd | apply Qltb_lt in Sd
       | apply Qltb_ge in Sd].
    + exists false, 1. split; [reflexivity|]. split; [lra|].
      split; [intros [[? ?] | [? ?]]; lra | reflexivity].
    + exists false, 0. split; [reflexivity|]. split; [lra|].
      split; [reflexivity | intros [[? ?] | [? ?]]; lra].
    + exists false, 0. split; [reflexivity|]. split; [lra|].
      split; [reflexivity | intros [[? ?] | [? ?]]; lra].
    + exists false, 1. split; [reflexivity|]. split; [lra|].
      split; [intros [[? ?] | [? ?]]; lra | reflexivity].
  - rewrite (result_Fin _ _ Hn). set (n := rnd (px + - p0)).
    assert (px <= p0 -> n <= 0) as Hn0 by (intros; apply rnd_nonpos; lra).
    assert (p0 <= px -> 0 <= n) as Hn1 by (intros; apply rnd_nonneg; lra).
    assert (p1 <= px -> d <= n) as Hn2 by (intros; apply rnd_mono; lra).
    assert (px <= p1 -> n <= d) as Hn3 by (intros; apply rnd_mono; lra).
    assert (exists bq, (Fin bn n / Fin b d)%js = result bq (n / d)) as [bq ->].
    { unfold div. apply Qeq_bool_false in Hd. rewrite Hd. eexists. reflexivity. }
    assert ((p0 < p1 /\ px <= p0) \/ (p1 < p0 /\ p0 <= px) -> n / d <= 0) as Hlow.
    { intros H. apply Qdiv_nonpos. destruct H as [[? ?] | [? ?]]; [left | right]; auto. }
    assert ((p0 < p1 /\ p1 <= px) \/ (p1 < p0 /\ px <= p1) -> 1 <= n / d) as Hhigh.
    { intros H. apply Qdiv_ge_1. destruct H as [[? ?] | [? ?]]; [left | right]; auto. }
    destruct (overflows (n / d)) eqn:Hq.
    + (* the quotient overflows *)
      rewrite (result_Infinity _ _ Hq), clamp_Infinity.
      apply overflows_nonzero in Hq.
      destruct (Qltb (n / d) 0) eqn:Sq;
        [apply Qltb_lt in Sq | apply Qltb_ge in Sq].
      * exists false, 0. split; [reflexivity|]. split; [lra|].
        split; [reflexivity|]. intros H. apply Hhigh in H. lra.
      * exists false, 1. split; [reflexivity|]. split; [lra|].
        split; [|reflexivity]. intros H. apply Hlow in H. lra.
    + rewrite (result_Fin _ _ Hq).
      destruct (clamp_Fin bq (rnd (n / d))) as (s & t & -> & Ht).
      exists s, t. split; [reflexivity|]. rewrite Ht.
      split; [apply Qclamp_unit|]. split; intros H.
      * apply Qclamp_low, rnd_nonpos, Hlow, H.
      * apply Qclamp_high, rnd_ge_1, Hhigh, H.
Qed.

Lemma smoothstep_saturates_Fin s0 p0 s1 p1 sx px :
  ~ p0 == p1 -> overflows (p1 + - p0) = false ->
  exists s w,
    smoothstep (Fin s0 p0) (Fin s1 p1) (Fin sx px) = Fin s w
    /\ 0 <= w <= 1
    /\ ((p0 < p1 /\ px <= p0) \/ (p1 < p0 /\ p0 <= px) -> w == 0)
    /\ ((p0 < p1 /\ p1 <= px) \/ (p1 < p0 /\ px <= p1) -> w == 1).
Proof.
  intros Hne Hov.
  destruct (smoothstep_t_Fin_width s0 p0 s1 p1 sx px Hne Hov)
    as (s & t & Et & Hu & T0 & T1).
  destruct (smoothstep_of_t _ _ _ s t Et Hu) as (s' & w & -> & Hw & W0 & W1).
  exists s', w. split; [reflexivity|]. split; [exact Hw|]. split; auto.
Qed.

Lemma signbit_neg_Fin s q :
  signbit (- Fin s q)%js = negb (signbit (Fin s q)).
Proof.
  unfold neg, signbit.
  destruct (Qeq_bool q 0) eqn:E.
  - apply Qeq_bool_iff in E.
    assert (Qeq_bool (- q) 0 = true) as -> by (apply Qeq_bool_iff; lra).
    reflexivity.
  - apply Qeq_bool_false in E.
    assert (Qeq_bool (- q) 0 = false) as -> by (apply Qeq_bool_false; lra).
    destruct (Qltb q 0) eqn:E1.
    + apply Qltb_lt in E1. simpl. apply Qltb_ge. lra.
    + apply Qltb_ge in E1. simpl. apply Qltb_lt. lra.
Qed.

(** The complement [1 - w] of a weight in [[0,1]]. *)
Lemma complement_Fin s w :
  0 <= w <= 1 ->
  exists b, (1 - Fin s w)%js = Fin b (rnd (1 + - w))
            /\ 0 <= rnd (1 + - w) <= 1
            /\ Qabs (rnd (1 + - w) + w - 1) <= 1 # 1000000.
Proof.
  intros Hw. destruct (sub_Fin false 1 s w) as [b E].
  change (Fin false 1) with 1%js in E. rewrite E, result_small by lra.
  exists b. split; [reflexivity|].
  assert (0 <= rnd (1 + - w) <= 1) as Ha by (apply rnd_unit; lra).
  split; [exact Ha|].
  destruct (rnd_error_bounds (1 + - w)) as [Hb _].
  destruct rnd_u_small as [Hu0 Hu1].
  apply Qabs_Qle_condition. assert (0 <= 1 + - w) as Hp by lra.
  specialize (Hb Hp). split; nra.
Qed.

(** C1, as amended. For finite edges with [edge0 < edge1] whose width
    [edge1 - edge0] is finite (it does not overflow) and a finite axis
    value [v], the pair [(1 - w, w)] with [w = smoothstep edge0 edge1 v]
    has both components in [[0,1]] and sums to 1 within 1e-6; it is
    [(1,0)] at [v = edge0] and [(0,1)] at [v = edge1]; the four slots
    pushed are [1 - w, w, 0, 0], and in the weight buffers of the arm,
    body, leg and single-bone loops the third and fourth slot of every
    vertex are 0. *)
Theorem smoothstep_weight_pair (edge0 edge1 v : number) :
  finite edge0 -> finite edge1 -> finite v -> (edge0 < edge1)%js = true ->
  finite (edge1 - edge0)%js ->
  exists a b : Q,
    represents (1 - smoothstep edge0 edge1 v)%js a
    /\ represents (smoothstep edge0 edge1 v) b
    /\ 0 <= a <= 1 /\ 0 <= b <= 1
    /\ Qabs (a + b - 1) <= 1 # 1000000
    /\ (eqn v edge0 = true -> a == 1 /\ b == 0)
    /\ (eqn v edge1 = true -> a == 0 /\ b == 1)
    /\ blendSlots (smoothstep edge0 edge1 v)
       = [(1 - smoothstep edge0 edge1 v)%js; smoothstep edge0 edge1 v; 0%js; 0%js]
    /\ (forall direction upper lower position k x,
          (createArm_skin direction upper lower position).2 !! k = Some x ->
          (2 <= k mod 4)%nat -> x = 0%js)
    /\ (forall hips spine chest upperChest neck position k x,
          (createBody_skin hips spine chest upperChest neck position).2 !! k = Some x ->
          (2 <= k mod 4)%nat -> x = 0%js)
    /\ (forall upper lower position k x,
          (createLeg_skin upper lower position).2 !! k = Some x ->
          (2 <= k mod 4)%nat -> x = 0%js)
    /\ (forall bone position k x,
          (createHand_skin bone position).2 !! k = Some x ->
          (2 <= k mod 4)%nat -> x = 0%js).
Proof.
  destruct edge0 as [| |s0 p0], edge1 as [| |s1 p1], v as [| |sx px]; try contradiction.
  intros _ _ _ Hlt Hwidth. apply Qltb_lt in Hlt.
  destruct (sub_Fin s1 p1 s0 p0) as [bw Ew]. rewrite Ew in Hwidth.
  apply finite_result in Hwidth.
  destruct (smoothstep_saturates_Fin s0 p0 s1 p1 sx px) as (s & w & -> & Hw & W0 & W1);
    [lra | exact Hwidth |].
  destruct (complement_Fin s w Hw) as (b & Ec & Ha & Hsum).
  exists (rnd (1 + - w)), w.
  split; [rewrite Ec; reflexivity|]. split; [reflexivity|].
  split; [exact Ha|]. split; [exact Hw|]. split; [exact Hsum|].
  split; [|split; [|split; [reflexivity|]]].
  - intros E. apply Qeq_bool_iff in E.
    assert (w == 0) as E0 by (apply W0; left; split; lra).
    split; [|exact E0].
    rewrite E0. assert (1 + - 0 == 1) as -> by reflexivity. apply rnd_1.
  - intros E. apply Qeq_bool_iff in E.
    assert (w == 1) as E1 by (apply W1; left; split; lra).
    split; [|exact E1].
    rewrite E1. assert (1 + - (1) == 0) as -> by reflexivity. apply rnd_0.
  - split; [|split; [|split]]; intros.
    + eapply createArm_skin_slots; eassumption.
    + eapply createBody_skin_slots; eassumption.
    + eapply createLeg_skin_slots; eassumption.
    + eapply createHand_skin_slots; eassumption.
Qed.

(** C2, as amended. For a degenerate interval ([edge0 == edge1], finite)
    the division by the zero width is carried out, and its quotient is
    never finite: at [x == edge0] it is NaN, so [t] and both weights are
    NaN; elsewhere it is an infinity, [t] is clamped to 0 or to 1 and the
    weight is 0 or 1 (0 below the edge and 1 above it when both edges carry
    the same sign bit).  Nothing is thrown and nothing is reported. *)
Theorem smoothstep_degenerate (edge0 edge1 x : number) :
  finite edge0 -> finite edge1 -> finite x -> eqn edge0 edge1 = true ->
  ~ finite ((x - edge0) / (edge1 - edge0))%js
  /\ (eqn x edge0 = true ->
        smoothstep_t edge0 edge1 x = NaN
        /\ blendSlots (smoothstep edge0 edge1 x) = [NaN; NaN; 0%js; 0%js])
  /\ (eqn x edge0 = false ->
        (smoothstep_t edge0 edge1 x = 0%js /\ represents (smoothstep edge0 edge1 x) 0)
        \/ (smoothstep_t edge0 edge1 x = 1%js /\ represents (smoothstep edge0 edge1 x) 1))
  /\ (signbit edge0 = signbit edge1 -> (x < edge0)%js = true ->
        smoothstep_t edge0 edge1 x = 0%js)
  /\ (signbit edge0 = signbit edge1 -> (edge0 < x)%js = true ->
        smoothstep_t edge0 edge1 x = 1%js).
Proof.
  destruct edge0 as [| |s0 p0], edge1 as [| |s1 p1], x as [| |sx px]; try contradiction.
  intros _ _ _ He. apply Qeq_bool_iff in He.
  assert (p1 + - p0 == 0) as Hz by lra.
  assert (rnd (p1 + - p0) == 0) as Hd by (rewrite Hz; apply rnd_0).
  (* the width is a zero *)
  assert (exists bd, (Fin s1 p1 - Fin s0 p0)%js = Fin bd (rnd (p1 + - p0))
            /\ (signbit (Fin s0 p0) = signbit (Fin s1 p1) ->
                signbit (Fin bd (rnd (p1 + - p0))) = false)) as (bd & Ed & Hsd).
  { eexists. split.
    - unfold sub, add. cbn [neg]. apply result_small. lra.
    - intros Hs. unfold signbit at 1.
      pose proof Hd as Hd'. apply Qeq_bool_iff in Hd'. rewrite Hd'.
      change (Fin (negb (signbit (Fin s0 p0))) (- p0)) with (- Fin s0 p0)%js.
      rewrite signbit_neg_Fin, Hs. apply andb_negb_r. }
  assert (forall s t, smoothstep_t (Fin s0 p0) (Fin s1 p1) (Fin sx px) = Fin s t
            -> 0 <= t <= 1 -> (t == 0 \/ t == 1)
            -> represents (smoothstep (Fin s0 p0) (Fin s1 p1) (Fin sx px)) t) as Hpoly.
  { intros s t Et Ht Hc. unfold smoothstep. rewrite Et. cbv zeta.
    destruct (smoothstep_poly s t Ht) as (s' & w & -> & _ & W0 & W1).
    simpl. destruct Hc as [Hc | Hc]; [rewrite (W0 Hc) | rewrite (W1 Hc)]; lra. }
  destruct (sub_Fin sx px s0 p0) as [bn En].
  destruct (Qeq_bool px p0) eqn:Ex.
  - (* x == edge0: 0 / 0 *)
    pose proof Ex as Ex'. apply Qeq_bool_iff in Ex.
    assert (px + - p0 == 0) as Hnz by lra.
    assert (rnd (px + - p0) == 0) as Hn by (rewrite Hnz; apply rnd_0).
    assert (((Fin sx px - Fin s0 p0) / (Fin s1 p1 - Fin s0 p0))%js = NaN) as Hq.
    { rewrite En, Ed, result_small by lra. unfold div.
      apply Qeq_bool_iff in Hd, Hn. rewrite Hd, Hn. reflexivity. }
    assert (smoothstep_t (Fin s0 p0) (Fin s1 p1) (Fin sx px) = NaN) as Ht.
    { unfold smoothstep_t. rewrite Hq. reflexivity. }
    split; [rewrite Hq; intros []|].
    split; [intros _; split; [exact Ht|]|].
    { unfold smoothstep. rewrite Ht. reflexivity. }
    split; [simpl; rewrite Ex'; discriminate|].
    split; intros _ Hl; simpl in Hl; apply Qltb_lt in Hl; lra.
  - (* x <> edge0: a value that is not zero, or an infinity, over 0 *)
    apply Qeq_bool_false in Ex.
    assert (~ px + - p0 == 0) as Hnz by lra.
    assert (~ rnd (px + - p0) == 0) as Hn.
    { intros H. apply rnd_nonzero in H. lra. }
    assert (exists b, ((Fin sx px - Fin s0 p0) / (Fin s1 p1 - Fin s0 p0))%js = Infinity b
              /\ (signbit (Fin s0 p0) = signbit (Fin s1 p1) ->
                  b = Qltb (px + - p0) 0)) as (b & Hq & Hb).
    { rewrite En, Ed. destruct (overflows (px + - p0)) eqn:Hov.
      - rewrite (result_Infinity _ _ Hov). unfold div.
        eexists. split; [reflexivity|]. intros Hs. rewrite (Hsd Hs).
        apply xorb_false_r.
      - rewrite (result_Fin _ _ Hov). unfold div.
        pose proof Hd as Hd'. apply Qeq_bool_iff in Hd'.
        pose proof Hn as Hn'. apply Qeq_bool_false in Hn'.
        rewrite Hd', Hn'. eexists. split; [reflexivity|]. intros Hs.
        rewrite (Hsd Hs), xorb_false_r, (signbit_nonzero _ _ Hn).
        apply Qltb_rnd. }
    assert (smoothstep_t (Fin s0 p0) (Fin s1 p1) (Fin sx px)
            = if b then 0%js else 1%js) as Ht.
    { unfold smoothstep_t. rewrite Hq. apply clamp_Infinity. }
    split; [rewrite Hq; intros []|].
    split; [simpl; intros E; apply Qeq_bool_iff in E; contradiction|].
    split.
    { intros _. destruct b; [left | right]; (split; [exact Ht|]).
      - apply (Hpoly false); [exact Ht | lra | left; reflexivity].
      - apply (Hpoly false); [exact Ht | lra | right; reflexivity]. }
    split; intros Hs Hl; simpl in Hl; apply Qltb_lt in Hl; rewrite Ht, (Hb Hs).
    + assert (Qltb (px + - p0) 0 = true) as ->; [|reflexivity].
      apply Qltb_lt. lra.
    + assert (Qltb (px + - p0) 0 = false) as ->; [|reflexivity].
      apply Qltb_ge. lra.
Qed.

End SmoothstepProperties.

(** C1 at the interval [[0,1]] and [v = 0.5]. *)
Lemma smoothstep_weight_pair_witness :
  exists a b : Q,
    represents (1 - smoothstep 0 1 (dec 0.5))%js a
    /\ represents (smoothstep 0 1 (dec 0.5))%js b
    /\ (0 <= a <= 1 /\ 0 <= b <= 1
    /\ Qabs (a + b - 1) <= 1 # 1000000
    /\ (eqn (dec 0.5) 0%js = true -> a == 1 /\ b == 0)
    /\ (eqn (dec 0.5) 1%js = true -> a == 0 /\ b == 1)
    /\ blendSlots (smoothstep 0 1 (dec 0.5))%js
       = [(1 - smoothstep 0 1 (dec 0.5))%js; (smoothstep 0 1 (dec 0.5))%js; 0%js; 0%js])%Q.
Proof.
  destruct (smoothstep_weight_pair (R := exact) 0%js 1%js (dec 0.5) I I I eq_refl I)
    as (a & b & Ha & Hb & Ia & Ib & Hsum & H0 & H1 & Hs & _).
  exists a, b. repeat (split; [assumption|]). assumption.
Defined.

(** ** Head *)

Lemma includes_Some l v : includes l (Some v) = true <-> v ∈ l.
Proof.
  simpl. rewrite existsb_exists. split.
  - intros (x & Hin & E). apply N.eqb_eq in E. subst. by apply list_elem_of_In.
  - intros H. exists v. split; [by apply list_elem_of_In | apply N.eqb_refl].
Qed.

Lemma foldl_seq_S {A} (f : A -> nat -> A) a n :
  foldl f a (seq 0 (S n)) = f (foldl f a (seq 0 n)) n.
Proof. rewrite seq_S, foldl_app. reflexivity. Qed.

(** *** Vertex classification *)


Section HeadFacts.
Context {R : Rounding}.

Lemma classifyVertex_inv pos uv acc i :
  setsBelow acc i -> setsDisjoint acc ->
  setsBelow (classifyVertex pos uv acc i) (S i)
  /\ setsDisjoint (classifyVertex pos uv acc i).
Proof.
  unfold setsBelow, setsDisjoint, classifyVertex.
  intros Hb (H1 & H2 & H3).
  assert (forall x, x ∈ mouthVertexIndices acc -> (x < N.of_nat i)%N) as Bm
    by (intros x Hx; apply Hb; set_solver).
  assert (forall x, x ∈ leftEyeVertexIndices acc -> (x < N.of_nat i)%N) as Bl
    by (intros x Hx; apply Hb; set_solver).
  assert (forall x, x ∈ rightEyeVertexIndices acc -> (x < N.of_nat i)%N) as Br
    by (intros x Hx; apply Hb; set_solver).
  assert (N.of_nat i ∉ mouthVertexIndices acc) as Nm by (intros Hx; apply Bm in Hx; lia).
  assert (N.of_nat i ∉ leftEyeVertexIndices acc) as Nl by (intros Hx; apply Bl in Hx; lia).
  assert (N.of_nat i ∉ rightEyeVertexIndices acc) as Nr by (intros Hx; apply Br in Hx; lia).
  assert (forall x, (x < N.of_nat i)%N -> (x < N.of_nat (S i))%N) as Hlt by (intros; lia).
  assert (N.of_nat i < N.of_nat (S i))%N as Hi by lia.
  destruct (inMouth _); [|destruct (inLeftEye _); [|destruct (inRightEye _)]]; simpl;
    (split; [intros x Hx; rewrite !elem_of_app in Hx; set_unfold; naive_solver
            | set_unfold; naive_solver]).
Qed.

Lemma classifyVertices_inv pos uv n :
  let vs := foldl (classifyVertex pos uv)
              {| mouthVertexIndices := []; leftEyeVertexIndices := [];
                 rightEyeVertexIndices := [] |} (seq 0 n) in
  setsBelow vs n /\ setsDisjoint vs.
Proof.
  induction n as [|n IH].
  - simpl. split; [intros x Hx; set_solver | repeat split; set_solver].
  - cbv zeta. rewrite foldl_seq_S. destruct IH as [Hb Hd].
    apply classifyVertex_inv; assumption.
Qed.

End HeadFacts.

(** A vertex slot counts for at most one of two disjoint sets. *)
Lemma countIn_disjoint3 (a b c : list N) tri :
  a ## b -> a ## c -> b ## c ->
  countIn a tri + countIn b tri + countIn c tri <= length tri.
Proof.
  intros Hab Hac Hbc. unfold countIn. induction tri as [|v tri IH]; simpl; [lia|].
  destruct v as [v|]; simpl.
  - destruct (existsb (N.eqb v) a) eqn:Ea, (existsb (N.eqb v) b) eqn:Eb,
             (existsb (N.eqb v) c) eqn:Ec; simpl; try lia;
    exfalso;
    repeat match goal with
    | H : existsb (N.eqb v) ?l = true |- _ => apply (includes_Some l v) in H
    end; set_solver.
  - lia.
Qed.


Lemma triangleAt_length index f : length (triangleAt index f) = 3.
Proof. reflexivity. Qed.


(** The loop body pushes the face on the list of its group and leaves the
    other three lists alone. *)
Lemma groupFace_spec vs index g f :
  let tri := triangleAt index f in
  let k := faceGroupOf vs index f in
  let g' := groupFace vs index g f in
  faceIndices g' = faceIndices g ++ (if Nat.eqb k GROUP_FACE then tri else [])
  /\ mouthIndices g' = mouthIndices g ++ (if Nat.eqb k GROUP_MOUTH then tri else [])
  /\ leftEyeIndices g' = leftEyeIndices g ++ (if Nat.eqb k GROUP_LEFT_EYE then tri else [])
  /\ rightEyeIndices g' = rightEyeIndices g ++ (if Nat.eqb k GROUP_RIGHT_EYE then tri else []).
Proof.
  cbv zeta. unfold groupFace, faceGroupOf.
  destruct (2 <=? countIn (mouthVertexIndices vs) (triangleAt index f));
    [simpl; rewrite ?app_nil_r; auto|].
  destruct (2 <=? countIn (leftEyeVertexIndices vs) (triangleAt index f));
    [simpl; rewrite ?app_nil_r; auto|].
  destruct (2 <=? countIn (rightEyeVertexIndices vs) (triangleAt index f));
    simpl; rewrite ?app_nil_r; auto.
Qed.






Lemma faceGroupOf_range vs index f : faceGroupOf vs index f < 4.
Proof.
  unfold faceGroupOf, GROUP_MOUTH, GROUP_LEFT_EYE, GROUP_RIGHT_EYE, GROUP_FACE.
  repeat case_match; lia.
Qed.

(** Splitting a list by a four-valued key rearranges it. *)
Lemma filter4_Permutation (key : nat -> nat) (l : list nat) :
  (forall x, key x < 4) ->
  List.filter (fun x => Nat.eqb (key x) 0) l
  ++ List.filter (fun x => Nat.eqb (key x) 1) l
  ++ List.filter (fun x => Nat.eqb (key x) 2) l
  ++ List.filter (fun x => Nat.eqb (key x) 3) l ≡ₚ l.
Proof.
  intros Hk. induction l as [|x l IH]; [reflexivity|]. simpl.
  pose proof (Hk x) as Hx.
  destruct (key x) as [|[|[|[|?]]]]; simpl; try lia.
  - by rewrite IH.
  - rewrite <- Permutation_middle. by rewrite IH.
  - rewrite app_assoc, <- Permutation_middle, <- app_assoc. by rewrite IH.
  - rewrite 2!app_assoc, <- Permutation_middle, <- 2!app_assoc. by rewrite IH.
Qed.

Lemma facesIn_S vs index n k :
  facesIn vs index (S n) k
  = facesIn vs index n k ++ (if Nat.eqb (faceGroupOf vs index n) k then [n] else []).
Proof. unfold facesIn. rewrite seq_S, List.filter_app. reflexivity. Qed.

Lemma facesOf_S vs index n k :
  facesOf vs index (S n) k
  = facesOf vs index n k
    ++ (if Nat.eqb (faceGroupOf vs index n) k then triangleAt index n else []).
Proof.
  unfold facesOf. rewrite facesIn_S, flat_map_app.
  destruct (Nat.eqb _ _); simpl; rewrite ?app_nil_r; reflexivity.
Qed.

Lemma facesOf_length vs index n k :
  length (facesOf vs index n k) = 3 * length (facesIn vs index n k).
Proof.
  unfold facesOf. induction (facesIn vs index n k) as [|f l IH]; simpl in *; lia.
Qed.

Lemma groupFaces_fold vs index n :
  let g := foldl (groupFace vs index)
             {| faceIndices := []; mouthIndices := []; leftEyeIndices := [];
                rightEyeIndices := [] |} (seq 0 n) in
  faceIndices g = facesOf vs index n GROUP_FACE
  /\ mouthIndices g = facesOf vs index n GROUP_MOUTH
  /\ leftEyeIndices g = facesOf vs index n GROUP_LEFT_EYE
  /\ rightEyeIndices g = facesOf vs index n GROUP_RIGHT_EYE.
Proof.
  induction n as [|n IH]; [repeat split|].
  cbv zeta in *. rewrite foldl_seq_S.
  destruct IH as (Hf & Hm & Hl & Hr).
  destruct (groupFace_spec vs index
              (foldl (groupFace vs index)
                 {| faceIndices := []; mouthIndices := []; leftEyeIndices := [];
                    rightEyeIndices := [] |} (seq 0 n)) n) as (Hf' & Hm' & Hl' & Hr').
  rewrite Hf', Hm', Hl', Hr', Hf, Hm, Hl, Hr, !facesOf_S. auto.
Qed.

Lemma faceIterations_exact (ix : list N) pc m :
  length ix = 3 * m -> faceIterations (Some ix) pc = m.
Proof.
  intros H. unfold faceIterations. rewrite H.
  replace (3 * m + 2) with (2 + m * 3) by lia.
  rewrite Nat.div_add by lia. reflexivity.
Qed.

(** C4. The four lists built by the triangle loop hold, in loop order, the
    faces whose group is the list's, and these four sets of faces together
    are a rearrangement of all the faces: every face is in exactly one
    list.  The new index buffer has three entries per face, as many as the
    input buffer when that holds whole triangles, and the four
    [addGroup] ranges follow one another from 0 to its end, each range
    holding the list of its group. *)
Theorem segmentation_partition (vs : VertexSets) (index : option (list N))
    (positionCount : nat) :
  let n := faceIterations index positionCount in
  let g := groupFaces vs index positionCount in
  let buffer := newIndices g in
  (* each face goes to the one group the priority chain gives it *)
  faceIndices g = facesOf vs index n GROUP_FACE
  /\ mouthIndices g = facesOf vs index n GROUP_MOUTH
  /\ leftEyeIndices g = facesOf vs index n GROUP_LEFT_EYE
  /\ rightEyeIndices g = facesOf vs index n GROUP_RIGHT_EYE
  /\ facesIn vs index n GROUP_FACE ++ facesIn vs index n GROUP_MOUTH
     ++ facesIn vs index n GROUP_LEFT_EYE ++ facesIn vs index n GROUP_RIGHT_EYE
     ≡ₚ seq 0 n
  (* the triangle count is kept *)
  /\ length buffer = 3 * n
  /\ (forall ix m, index = Some ix -> length ix = 3 * m ->
        n = m /\ length buffer = length ix)
  (* the four groups tile the new buffer, each one a single range *)
  /\ (exists g0 g1 g2 g3,
        addGroups g = [g0; g1; g2; g3]
        /\ group_materialIndex g0 = GROUP_FACE
        /\ group_materialIndex g1 = GROUP_MOUTH
        /\ group_materialIndex g2 = GROUP_LEFT_EYE
        /\ group_materialIndex g3 = GROUP_RIGHT_EYE
        /\ group_start g0 = 0
        /\ group_start g1 = group_start g0 + group_count g0
        /\ group_start g2 = group_start g1 + group_count g1
        /\ group_start g3 = group_start g2 + group_count g2
        /\ length buffer = group_start g3 + group_count g3
        /\ groupRange g0 buffer = toUint32 <$> faceIndices g
        /\ groupRange g1 buffer = toUint32 <$> mouthIndices g
        /\ groupRange g2 buffer = toUint32 <$> leftEyeIndices g
        /\ groupRange g3 buffer = toUint32 <$> rightEyeIndices g).
Proof.
  cbv zeta. unfold groupFaces.
  destruct (groupFaces_fold vs index (faceIterations index positionCount))
    as (Hf & Hm & Hl & Hr).
  set (g := foldl _ _ _) in *.
  set (n := faceIterations index positionCount) in *.
  assert (facesIn vs index n GROUP_FACE ++ facesIn vs index n GROUP_MOUTH
          ++ facesIn vs index n GROUP_LEFT_EYE ++ facesIn vs index n GROUP_RIGHT_EYE
          ≡ₚ seq 0 n) as Hperm.
  { apply (filter4_Permutation (faceGroupOf vs index)). apply faceGroupOf_range. }
  assert (length (newIndices g) = 3 * n) as Hlen.
  { unfold newIndices. rewrite length_fmap, !length_app, Hf, Hm, Hl, Hr.
    rewrite !facesOf_length.
    apply Permutation_length in Hperm. rewrite !length_app, length_seq in Hperm. lia. }
  do 4 (split; [assumption|]).
  split; [exact Hperm|]. split; [exact Hlen|]. split.
  { intros ix m -> Hix. subst n.
    rewrite (faceIterations_exact ix positionCount m Hix) in *. lia. }
  eexists _, _, _, _. split; [reflexivity|]. simpl.
  do 4 (split; [reflexivity|]). split; [reflexivity|].
  do 3 (split; [lia|]).
  split; [unfold newIndices; rewrite length_fmap, !length_app; lia|].
  unfold groupRange, newIndices. simpl.
  rewrite !fmap_app.
  assert (forall l : list (option N), length (toUint32 <$> l) = length l) as Hfl
    by (intros; apply length_fmap).
  repeat split.
  - rewrite drop_0, take_app_length'; [reflexivity | by rewrite Hfl].
  - rewrite drop_app_length' by (by rewrite Hfl).
    rewrite take_app_length'; [reflexivity | by rewrite Hfl].
  - rewrite app_assoc, drop_app_length' by (rewrite length_app, !Hfl; lia).
    rewrite take_app_length'; [reflexivity | by rewrite Hfl].
  - rewrite 2!app_assoc, drop_app_length' by (rewrite !length_app, !Hfl; lia).
    rewrite firstn_all2; [reflexivity | rewrite Hfl; lia].
Qed.

Section ClassificationClaim.
Context {R : Rounding}.

(** C10. The mouth, left-eye and right-eye vertex lists built by the
    classification loop are pairwise disjoint; hence the three counts of a
    triangle add up to at most 3 and no two regions reach 2 together. *)
Theorem vertex_classes_exclusive (pos : list vec3) (uv : list (number * number)) :
  let vs := classifyVertices pos uv in
  mouthVertexIndices vs ## leftEyeVertexIndices vs
  /\ mouthVertexIndices vs ## rightEyeVertexIndices vs
  /\ leftEyeVertexIndices vs ## rightEyeVertexIndices vs
  /\ (forall (index : option (list N)) (f : nat),
        let tri := triangleAt index f in
        countIn (mouthVertexIndices vs) tri + countIn (leftEyeVertexIndices vs) tri
          + countIn (rightEyeVertexIndices vs) tri <= 3
        /\ ~ (2 <= countIn (mouthVertexIndices vs) tri
              /\ 2 <= countIn (leftEyeVertexIndices vs) tri)
        /\ ~ (2 <= countIn (mouthVertexIndices vs) tri
              /\ 2 <= countIn (rightEyeVertexIndices vs) tri)
        /\ ~ (2 <= countIn (leftEyeVertexIndices vs) tri
              /\ 2 <= countIn (rightEyeVertexIndices vs) tri)).
Proof.
  cbv zeta. unfold classifyVertices.
  destruct (classifyVertices_inv pos uv (length pos)) as [_ (H1 & H2 & H3)].
  do 3 (split; [assumption|]).
  intros index f.
  pose proof (countIn_disjoint3 _ _ _ (triangleAt index f) H1 H2 H3) as Hc.
  rewrite triangleAt_length in Hc. lia.
Qed.

End ClassificationClaim.

(** ** Skeleton *)

Lemma addBones_spec news bones :
  addBones news bones = (seq (length bones) (length news), bones ++ news).
Proof.
  unfold addBones.
  assert (forall acc, foldl (fun acc bone => let '(idx, bones') := addBone bone acc.2 in
                                 (acc.1 ++ [idx], bones')) acc news
          = (acc.1 ++ seq (length acc.2) (length news), acc.2 ++ news)) as H.
  { induction news as [|b news IH]; intros [ids bs]; simpl.
    - by rewrite !app_nil_r.
    - rewrite IH. simpl. rewrite length_app. simpl.
      rewrite <- !app_assoc. simpl. by rewrite Nat.add_1_r. }
  rewrite H. reflexivity.
Qed.

(** C7, as amended. [addBone] returns the number of bones added before,
    the bone stays at that index whatever is added later, and earlier bones
    keep theirs; the indices returned next follow on.  No name is checked:
    a bone whose name is already in the skeleton is appended like any
    other, next to the bone that has the name. *)
Theorem addBone_insertion_order (bone : Bone) (bones later : list Bone) :
  let idx := (addBone bone bones).1 in
  let bones' := (addBone bone bones).2 in
  idx = length bones
  /\ bones' = bones ++ [bone]
  /\ bones' !! idx = Some bone
  /\ (addBones later bones').2 !! idx = Some bone
  /\ (forall k b, bones !! k = Some b -> (addBones later bones').2 !! k = Some b)
  /\ (addBones later bones').1 = seq (S idx) (length later)
  /\ (forall b, b ∈ bones -> bone_name b = bone_name bone ->
        b ∈ bones' /\ bones' !! idx = Some bone /\ length bones' = S (length bones)).
Proof.
  cbv zeta. unfold addBone. simpl. rewrite addBones_spec. simpl.
  repeat split.
  - rewrite lookup_app_r by lia. by rewrite Nat.sub_diag.
  - rewrite <- app_assoc. rewrite lookup_app_r by lia. by rewrite Nat.sub_diag.
  - intros k b Hk. rewrite <- app_assoc. by apply lookup_app_l_Some.
  - rewrite length_app. simpl. by rewrite Nat.add_1_r.
  - set_solver.
  - rewrite lookup_app_r by lia. by rewrite Nat.sub_diag.
  - rewrite length_app. simpl. lia.
Qed.

(** ** Scene composition *)

Section SceneFacts.
Context {Geometry Material : Type} {R : Rounding}.

Lemma Part_induction (P : Part Geometry Material -> Prop) :
  (forall name geometry material position children,
      Forall P children -> P (mkPart name geometry material position children)) ->
  forall p, P p.
Proof.
  intros H. fix IH 1. intros [name geometry material position children].
  apply H. induction children as [|c cs IHcs]; constructor; [apply IH | exact IHcs].
Qed.

Lemma Part_build_spec (p : Part Geometry Material) :
  forall meshes, Part_build p meshes = (groupOf p, meshes ++ (meshOf <$> parts p)).
Proof.
  induction p as [name geometry material position children IH] using Part_induction.
  intros meshes. simpl.
  assert (forall acc ms,
            foldl (fun acc child =>
                     let '(childGroup, meshes') := Part_build child acc.2 in
                     (acc.1 ++ [childGroup], meshes')) (acc, ms) children
            = (acc ++ map groupOf children,
               ms ++ (meshOf <$> flat_map parts children))) as Hfold.
  { clear meshes. induction IH as [|c cs Hc _ IHcs]; intros acc ms; simpl.
    - by rewrite !app_nil_r.
    - rewrite Hc. simpl. rewrite IHcs.
      rewrite fmap_app, <- !app_assoc. reflexivity. }
  rewrite Hfold. simpl. rewrite <- app_assoc. reflexivity.
Qed.

Lemma nodeNames_groupOf (p : Part Geometry Material) :
  nodeNames (groupOf p) = flat_map (fun q => [part_name q; part_name q]) (parts p).
Proof.
  induction p as [name geometry material position children IH] using Part_induction.
  unfold nodeNames. simpl. f_equal. f_equal.
  induction IH as [|c cs Hc _ IHcs]; simpl; [reflexivity|].
  rewrite flat_map_app, fmap_app. unfold nodeNames in Hc.
  rewrite Hc. f_equal. exact IHcs.
Qed.

Lemma nodeNames_add (o child : Object3D Geometry Material) :
  nodeNames (Object3D_add o child) = nodeNames o ++ nodeNames child.
Proof.
  destruct o as [k n p c]. unfold nodeNames. simpl.
  rewrite flat_map_app, !fmap_app. simpl. by rewrite app_nil_r.
Qed.

Lemma nodeNames_position_add (o : Object3D Geometry Material) (v : vec3) :
  nodeNames (position_add o v) = nodeNames o.
Proof. by destruct o. Qed.

Lemma parts_self (p : Part Geometry Material) : p ∈ parts p.
Proof. destruct p. simpl. left. Qed.

Lemma twice_not_NoDup (f : Part Geometry Material -> string) l q :
  q ∈ l -> ~ NoDup (flat_map (fun q => [f q; f q]) l).
Proof.
  induction l as [|x l IH]; intros Hq Hnd; [by apply elem_of_nil in Hq|].
  simpl in Hnd. apply NoDup_cons in Hnd as [Hx Hnd].
  apply elem_of_cons in Hq as [-> | Hq].
  - apply Hx. left.
  - apply NoDup_cons in Hnd as [_ Hnd]. by apply IH.
Qed.

(** C9, as amended. The group built for a part takes the part's name, and
    so does the mesh that is its first child: the names of the composed
    scene's objects are the names of the parts, each one twice in a row,
    so every part name is carried by two different nodes and the node
    names are never free of repeats; nor are they, in whatever order the
    nodes are listed, once the root bone is attached. *)
Theorem part_names_twice (root : Part Geometry Material)
    (meshes : list (Object3D Geometry Material)) :
  let scene := (Part_build root meshes).1 in
  object_name scene = part_name root
  /\ (exists mesh rest, object_children scene = mesh :: rest
        /\ isMesh mesh = true /\ object_name mesh = part_name root)
  /\ nodeNames scene = flat_map (fun q => [part_name q; part_name q]) (parts root)
  /\ (forall q, q ∈ parts root ->
        exists i j, i <> j /\ nodeNames scene !! i = Some (part_name q)
                    /\ nodeNames scene !! j = Some (part_name q))
  /\ ~ NoDup (nodeNames scene)
  /\ (forall hipsBone l,
        l ≡ₚ nodeNames (composeModel root hipsBone) -> ~ NoDup l).
Proof.
  cbv zeta. rewrite Part_build_spec. simpl.
  split; [by destruct root|]. split.
  { destruct root as [name geometry material position children]. simpl.
    eexists _, _. split; [reflexivity|]. split; reflexivity. }
  rewrite nodeNames_groupOf. split; [reflexivity|]. split.
  - intros q Hq. induction (parts root) as [|x l IH]; [by apply elem_of_nil in Hq|].
    apply elem_of_cons in Hq as [-> | Hq].
    + exists 0, 1. split; [lia|]. split; reflexivity.
    + destruct (IH Hq) as (i & j & Hij & Hi & Hj).
      exists (S (S i)), (S (S j)). split; [lia|]. split; assumption.
  - split; [apply (twice_not_NoDup part_name _ root), parts_self|].
    intros hipsBone l Hl Hnd. rewrite Hl in Hnd. revert Hnd. unfold composeModel.
    rewrite Part_build_spec. cbn [fst].
    rewrite nodeNames_add, nodeNames_position_add, nodeNames_groupOf.
    intros Hnd. apply NoDup_app in Hnd as [Hnd _].
    by apply (twice_not_NoDup part_name _ root (parts_self root)).
Qed.

End SceneFacts.

(** C7 fails as stated: adding a bone named head twice gives indices 0
    and 1 and a skeleton with two bones of that name; nothing fails. *)
Lemma addBone_duplicate_accepted :
  let head := {| bone_name := "head"; bone_position := (int 0, dec 0.05, int 0) |} in
  addBones [head; head] [] = ([0; 1], [head; head])
  /\ ~ NoDup (bone_name <$> (addBones [head; head] []).2).
Proof.
  cbv zeta. split; [reflexivity|].
  simpl. intros H. apply NoDup_cons in H as [H _]. apply H. left.
Qed.

(** C9 fails as stated: a single part named body composes to two nodes,
    both named body. *)
Lemma part_name_not_unique :
  let body := mkPart "body" tt tt (int 0, int 0, int 0) [] in
  nodeNames (Part_build body []).1 = ["body"; "body"]
  /\ ~ NoDup (nodeNames (Part_build body []).1).
Proof.
  cbv zeta. split; [reflexivity|].
  simpl. intros H. apply NoDup_cons in H as [H _]. apply H. left.
Qed.

(** ** Exporter plugin *)

(** *** The name-to-index map *)

Lemma nodeNameToIndex_fold (nds : list NodeDef) :
  let r := foldl nodeNameToIndex_step (∅, 0) nds in
  r.2 = length nds
  /\ forall s i, r.1 !! s = Some i <-> s <> EmptyString /\ lastNamed nds s i.
Proof.
  induction nds as [|nd nds IH] using rev_ind; cbv zeta.
  - simpl. split; [reflexivity|]. intros s i. rewrite lookup_empty. split; [done|].
    intros [_ [H _]]. unfold named in H. by rewrite lookup_nil in H.
  - rewrite foldl_app. simpl. cbv zeta in IH. destruct IH as [Hc Hm].
    set (r := foldl nodeNameToIndex_step (∅, 0) nds) in *.
    split; [rewrite length_app; simpl; lia|].
    intros s i. rewrite Hc.
    assert (forall j t, named (nds ++ [nd]) j t <->
              named nds j t \/ (j = length nds /\ node_name nd = Some t)) as Hnamed.
    { intros j t. unfold named.
      destruct (decide (j < length nds)) as [Hj | Hj].
      - rewrite lookup_app_l by lia. split; [by left|].
        intros [H | [-> _]]; [done | lia].
      - destruct (decide (j = length nds)) as [-> | Hne].
        + rewrite lookup_app_r by lia. rewrite Nat.sub_diag. simpl. split.
          * intros [= H]. by right.
          * intros [H | [_ H]]; [|by rewrite H].
            rewrite lookup_ge_None_2 in H by lia. done.
        + rewrite lookup_ge_None_2 by (rewrite length_app; simpl; lia).
          split; [done|].
          intros [H | [-> _]]; [|done].
          rewrite lookup_ge_None_2 in H by lia. done. }
    assert (forall j t, named nds j t -> j < length nds) as Hlt.
    { intros j t H. unfold named in H.
      destruct (nds !! j) eqn:E; [|done]. by apply lookup_lt_Some in E. }
    assert (s <> EmptyString /\ lastNamed (nds ++ [nd]) s i <->
            (node_name nd = Some s /\ s <> EmptyString /\ i = length nds)
            \/ (node_name nd <> Some s /\ s <> EmptyString /\ lastNamed nds s i)) as ->.
    { unfold lastNamed. setoid_rewrite Hnamed. split.
      - intros (Hs & [Hi | [-> Hi]] & Hlast).
        + right. split; [|split; [done|split; [done|]]].
          * intros Hnd. apply (Hlast (length nds)); [by eapply Hlt | by right].
          * intros j Hj Hn. apply (Hlast j Hj). by left.
        + left. done.
      - intros [(Hnd & Hs & ->) | (Hnd & Hs & Hi & Hlast)].
        + split; [done|]. split; [by right|].
          intros j Hj [Hn | [-> _]]; [apply Hlt in Hn|]; lia.
        + split; [done|]. split; [by left|].
          intros j Hj [Hn | [_ Hn]]; [by apply (Hlast j) | done]. }
    destruct (node_name nd) as [t|] eqn:Hnd.
    + destruct (decide (t = EmptyString)) as [-> | Ht].
      * rewrite Hm. split; [intros [? ?]; right; split; [congruence | done]|].
        intros [([= <-] & ? & _) | (_ & ?)]; done.
      * destruct (decide (t = s)) as [-> | Hts].
        -- rewrite lookup_insert_eq. split.
           ++ intros [= <-]. by left.
           ++ intros [(_ & _ & ->) | (? & _)]; done.
        -- rewrite lookup_insert_ne by done. rewrite Hm. split.
           ++ intros [? ?]. right. split; [congruence | done].
           ++ intros [([= ?] & _) | (_ & ?)]; done.
    + rewrite Hm. split; [intros [? ?]; right; done|].
      intros [(? & _) | (_ & ?)]; done.
Qed.

Lemma nodeNameToIndex_spec nds s i :
  nodeNameToIndex nds !! s = Some i <-> s <> EmptyString /\ lastNamed nds s i.
Proof. apply (nodeNameToIndex_fold nds). Qed.

(** A name carried by some node has a last node carrying it. *)
Lemma named_last nds s i : named nds i s -> exists k, lastNamed nds s k.
Proof.
  revert i. induction nds as [|nd nds IH] using rev_ind; intros i H.
  - unfold named in H. by rewrite lookup_nil in H.
  - destruct (decide (node_name nd = Some s)) as [Hnd | Hnd].
    + exists (length nds). split.
      * unfold named. rewrite lookup_app_r by lia. rewrite Nat.sub_diag. simpl.
        by rewrite Hnd.
      * intros j Hj Hn. unfold named in Hn.
        rewrite lookup_ge_None_2 in Hn by (rewrite length_app; simpl; lia). done.
    + assert (forall j, named (nds ++ [nd]) j s -> named nds j s) as Hback.
      { intros j Hn. unfold named in *.
        destruct (decide (j < length nds)); [by rewrite lookup_app_l in Hn by lia|].
        destruct (decide (j = length nds)) as [-> | Hne].
        - rewrite lookup_app_r in Hn by lia. rewrite Nat.sub_diag in Hn.
          simpl in Hn. congruence.
        - rewrite lookup_ge_None_2 in Hn by (rewrite length_app; simpl; lia).
          done. }
      destruct (IH i (Hback i H)) as (k & Hk & Hlast).
      exists k. split.
      * unfold named in *. destruct (nds !! k) eqn:E; [|done].
        by rewrite (lookup_app_l_Some _ _ _ _ E).
      * intros j Hj Hn. by apply (Hlast j Hj), Hback.
Qed.

(** *** The rig descriptor *)

Lemma collect_fold (m : gmap string nat) (names : list string) :
  let r := foldl (humanBones_step m) (∅, []) names in
  (forall b hb, r.1 !! b = Some hb <-> b ∈ names /\ m !! b = Some (node hb))
  /\ r.2 = boneWarning <$> List.filter (fun b => bool_decide (m !! b = None)) names.
Proof.
  induction names as [|x names IH] using rev_ind; cbv zeta.
  - simpl. split; [|reflexivity]. intros b hb. rewrite lookup_empty.
    split; [done|]. intros [H _]. by apply elem_of_nil in H.
  - rewrite foldl_app. simpl. cbv zeta in IH. destruct IH as [Hm Hw].
    set (r := foldl (humanBones_step m) (∅, []) names) in *.
    unfold humanBones_step. rewrite List.filter_app, fmap_app. simpl.
    destruct (m !! x) as [i|] eqn:Hx; simpl.
    + split; [|by rewrite app_nil_r].
      intros b hb. destruct (decide (x = b)) as [-> | Hne].
      * rewrite lookup_insert_eq. split.
        -- intros [= <-]. split; [set_solver | done].
        -- intros [_ H]. rewrite Hx in H. injection H as ->. by destruct hb.
      * rewrite lookup_insert_ne by done. rewrite Hm. set_solver.
    + split; [|by rewrite Hw].
      intros b hb. rewrite Hm. split; [set_solver|].
      intros [Hb Hl]. split; [|done]. apply elem_of_app in Hb as [Hb | Hb]; [done|].
      apply list_elem_of_singleton in Hb as ->. congruence.
Qed.

Lemma collect_size (m : gmap string nat) (names : list string) :
  NoDup names ->
  size (foldl (humanBones_step m) (∅, []) names).1
  + length (foldl (humanBones_step m) (∅, []) names).2 = length names.
Proof.
  intros Hnd. induction names as [|x names IH] using rev_ind; [reflexivity|].
  apply NoDup_app in Hnd as (Hnd & Hx & _).
  rewrite foldl_app. simpl. specialize (IH Hnd).
  destruct (collect_fold m names) as [Hm _]. cbv zeta in Hm.
  set (r := foldl (humanBones_step m) (∅, []) names) in *.
  unfold humanBones_step. rewrite length_app. simpl.
  destruct (m !! x) as [i|] eqn:E; simpl.
  - rewrite map_size_insert_None; [lia|].
    destruct (r.1 !! x) as [hb|] eqn:Er; [|done].
    apply Hm in Er as [Hin _]. exfalso. apply (Hx x Hin). set_solver.
  - rewrite length_app. simpl. lia.
Qed.

Lemma boneNames_NoDup : NoDup boneNames.
Proof. apply (bool_decide_unpack _). vm_compute. reflexivity. Qed.

Lemma boneNames_nonempty b : b ∈ boneNames -> b <> EmptyString.
Proof.
  intros Hb ->. revert Hb. apply (bool_decide_unpack _). vm_compute. reflexivity.
Qed.

Section ExportClaims.
Context {R : Rounding}.

(** What a run of the hook leaves behind when the document has nodes. *)
Lemma afterParse_Normal st parser nds :
  nodes (json parser) = Some nds ->
  afterParse st parser
  = Normal
      ({| parser_extensionsUsed := <["VRMC_vrm" := true]> (parser_extensionsUsed parser);
          json :=
            {| nodes := Some nds;
               extensionsUsed :=
                 Some (default [] (extensionsUsed (json parser)) ++ ["VRMC_vrm"]);
               extensions :=
                 Some (<["VRMC_vrm" :=
                          VrmExtension
                            {| specVersion := "1.0";
                               meta := {| meta_name := "kgtkr"; meta_version := "1.0";
                                          meta_authors := ["kgtkr"];
                                          meta_licenseUrl := "https://vrm.dev/licenses/1.0/" |};
                               humanBones := (collectHumanBones (nodeNameToIndex nds)).1;
                               preset := presetExpressions st |}]>
                        (default ∅ (extensions (json parser)))) |} |},
       (collectHumanBones (nodeNameToIndex nds)).2).
Proof.
  intros H. unfold afterParse. rewrite H.
  destruct (collectHumanBones (nodeNameToIndex nds)). reflexivity.
Qed.

(** C5. On a document with a node list the hook ends normally.  The
    [humanBones] map has an entry for a name exactly when the name is one of
    the twenty bone names and some node carries it, and the entry's [node]
    is the index of the last such node; a bone name carried by no node has
    no entry and its warning is logged; entries and warnings add up to 20,
    and when every bone name is carried by a node there are 20 entries and
    no warning. *)
Theorem humanBones_complete (st : PluginState) (parser : Parser) (nds : list NodeDef) :
  nodes (json parser) = Some nds ->
  exists parser' warnings vrm,
    afterParse st parser = Normal (parser', warnings)
    /\ vrmOf (json parser') = Some vrm
    /\ (forall b i, humanBones vrm !! b = Some {| node := i |}
                    <-> b ∈ boneNames /\ lastNamed nds b i)
    /\ (forall b, b ∈ boneNames -> (forall i, ~ named nds i b) ->
          humanBones vrm !! b = None /\ boneWarning b ∈ warnings)
    /\ size (humanBones vrm) + length warnings = 20
    /\ ((forall b, b ∈ boneNames -> exists i, named nds i b) ->
          size (humanBones vrm) = 20 /\ warnings = []).
Proof.
  intros Hn. rewrite (afterParse_Normal st parser nds Hn).
  eexists _, _, _. split; [reflexivity|].
  split; [unfold vrmOf; simpl; rewrite lookup_insert_eq; reflexivity|]. simpl.
  unfold collectHumanBones.
  destruct (collect_fold (nodeNameToIndex nds) boneNames) as [Hm Hw]. cbv zeta in Hm, Hw.
  pose proof (collect_size (nodeNameToIndex nds) boneNames boneNames_NoDup) as Hsz.
  set (r := foldl (humanBones_step (nodeNameToIndex nds)) (∅, []) boneNames) in *.
  split; [|split; [|split; [exact Hsz|]]].
  - intros b i. rewrite Hm. simpl. rewrite nodeNameToIndex_spec. split.
    + intros (Hb & _ & Hl). done.
    + intros (Hb & Hl). split; [done|]. split; [by apply boneNames_nonempty | done].
  - intros b Hb Habs.
    assert (nodeNameToIndex nds !! b = None) as Hnone.
    { destruct (nodeNameToIndex nds !! b) as [i|] eqn:E; [|done].
      apply nodeNameToIndex_spec in E as (_ & Hi & _). by apply Habs in Hi. }
    split.
    + destruct (r.1 !! b) as [hb|] eqn:E; [|done].
      apply Hm in E as [_ E]. congruence.
    + rewrite Hw. apply list_elem_of_fmap. exists b. split; [done|].
      apply list_elem_of_In, filter_In. split; [by apply list_elem_of_In|].
      by apply bool_decide_eq_true_2.
  - intros Hall.
    assert (r.2 = []) as Hnil.
    { rewrite Hw.
      assert (List.filter (fun b => bool_decide (nodeNameToIndex nds !! b = None))
                boneNames = []) as ->; [|reflexivity].
      assert (forall l, (forall b, b ∈ l -> b ∈ boneNames) ->
                List.filter (fun b => bool_decide (nodeNameToIndex nds !! b = None)) l = [])
        as Hf; [|apply Hf; auto].
      induction l as [|b l IH]; intros Hl; [reflexivity|]. simpl.
      destruct (Hall b) as [i Hi]; [apply Hl; left|].
      destruct (named_last nds b i Hi) as [k Hk].
      assert (nodeNameToIndex nds !! b = Some k) as ->.
      { apply nodeNameToIndex_spec. split; [|done].
        apply boneNames_nonempty, Hl. left. }
      simpl. apply IH. intros b' Hb'. apply Hl. by right. }
    rewrite Hnil in Hsz |- *. simpl in Hsz. split; [lia | reflexivity].
Qed.

(** C6, as amended. One run of the hook appends the identifier to the
    document's [extensionsUsed] list, so a list that was free of it and of
    repeats stays free of repeats; a second run appends it once more.  Only
    the exporter's own key set [parser.extensionsUsed] is the same after
    one run and after two. *)
Theorem extensionsUsed_appended (st : PluginState) (parser : Parser) (nds : list NodeDef) :
  nodes (json parser) = Some nds ->
  let before := default [] (extensionsUsed (json parser)) in
  (exists once w1,
      afterParse_times 1 st parser = Normal (once, w1)
      /\ extensionsUsed (json once) = Some (before ++ ["VRMC_vrm"])
      /\ parser_extensionsUsed once = <["VRMC_vrm" := true]> (parser_extensionsUsed parser)
      /\ ("VRMC_vrm" ∉ before -> NoDup before ->
            NoDup (before ++ ["VRMC_vrm"]))
      /\ exists twice w2,
           afterParse_times 2 st parser = Normal (twice, w2)
           /\ extensionsUsed (json twice) = Some (before ++ ["VRMC_vrm"; "VRMC_vrm"])
           /\ parser_extensionsUsed twice = parser_extensionsUsed once).
Proof.
  intros Hn. cbv zeta. simpl.
  rewrite (afterParse_Normal st parser nds Hn).
  eexists _, _. split; [rewrite app_nil_r; reflexivity|]. simpl.
  split; [reflexivity|]. split; [reflexivity|]. split.
  { intros Hin Hnd. apply NoDup_app. split; [done|]. split.
    - intros x Hx Hx'. apply list_elem_of_singleton in Hx' as ->. done.
    - apply NoDup_singleton. }
  rewrite (afterParse_Normal st _ nds) by reflexivity.
  eexists _, _. split; [reflexivity|]. simpl.
  split; [by rewrite <- app_assoc|]. apply insert_insert_eq.
Qed.

Lemma writeMaterials_absent names st name :
  name ∉ names -> materialToIndex (writeMaterials names st) !! name
                  = materialToIndex st !! name.
Proof.
  unfold writeMaterials. revert st.
  induction names as [|x names IH]; intros st Hn; [reflexivity|]. simpl.
  rewrite IH by set_solver. simpl. apply lookup_insert_ne. set_solver.
Qed.

(** C8, as amended. On a document with a node list the hook ends normally
    whatever materials were written, and each bind of each preset carries
    the result of looking its material name up in [materialToIndex]: the
    index recorded by [writeMaterialAsync] when the material was written,
    and [undefined] for a material that none of the [writeMaterialAsync]
    calls named. *)
Theorem missing_material_binding (st : PluginState) (parser : Parser)
    (nds : list NodeDef) :
  nodes (json parser) = Some nds ->
  exists parser' warnings vrm,
    afterParse st parser = Normal (parser', warnings)
    /\ vrmOf (json parser') = Some vrm
    /\ (let mouth := materialToIndex st !! head_mouthMaterial_name in
        let leftEye := materialToIndex st !! head_leftEyeMaterial_name in
        let rightEye := materialToIndex st !! head_rightEyeMaterial_name in
        presetMaterials vrm
        = [("aa", [mouth]); ("ih", [mouth]); ("ou", [mouth]); ("ee", [mouth]);
           ("oh", [mouth]); ("blink", [leftEye; rightEye]);
           ("blinkLeft", [leftEye]); ("blinkRight", [rightEye])])
    /\ (forall names name,
          st = writeMaterials names initialPluginState -> name ∉ names ->
          materialToIndex st !! name = None)
    /\ (forall name st0, st = writeMaterialAsync name st0 ->
          materialToIndex st !! name = Some (materialCount st0)).
Proof.
  intros Hn. rewrite (afterParse_Normal st parser nds Hn).
  eexists _, _, _. split; [reflexivity|].
  split; [unfold vrmOf; simpl; rewrite lookup_insert_eq; reflexivity|].
  split; [reflexivity|]. split.
  - intros names name -> Hname. rewrite writeMaterials_absent by done. apply lookup_empty.
  - intros name st0 ->. simpl. apply lookup_insert_eq.
Qed.

End ExportClaims.


(** C6 fails as stated: after two runs on the empty document the list
    holds the identifier twice. *)
Lemma extensionsUsed_duplicated :
  exists twice warnings,
    afterParse_times 2 initialPluginState emptyDocument = Normal (twice, warnings)
    /\ extensionsUsed (json twice) = Some ["VRMC_vrm"; "VRMC_vrm"]
    /\ ~ NoDup (default [] (extensionsUsed (json twice))).
Proof.
  simpl. rewrite (afterParse_Normal initialPluginState emptyDocument []) by reflexivity.
  rewrite (afterParse_Normal initialPluginState _ []) by reflexivity.
  eexists _, _. split; [reflexivity|]. simpl. split; [reflexivity|].
  intros H. apply NoDup_cons in H as [H _]. apply H. left.
Qed.

(** C8 fails as stated: with no material written at all the hook still
    ends normally and installs the extension, every bind carrying an
    undefined material. *)
Lemma missing_material_not_reported :
  materialToIndex initialPluginState !! head_mouthMaterial_name = None
  /\ exists parser' warnings vrm,
       afterParse initialPluginState emptyDocument = Normal (parser', warnings)
       /\ vrmOf (json parser') = Some vrm
       /\ presetMaterials vrm
          = [("aa", [None]); ("ih", [None]); ("ou", [None]); ("ee", [None]);
             ("oh", [None]); ("blink", [None; None]);
             ("blinkLeft", [None]); ("blinkRight", [None])].
Proof.
  split; [reflexivity|].
  rewrite (afterParse_Normal initialPluginState emptyDocument []) by reflexivity.
  eexists _, _, _. split; [reflexivity|].
  split; [unfold vrmOf; simpl; rewrite lookup_insert_eq; reflexivity|]. reflexivity.
Qed.


(** ** The statements at concrete inputs *)

(** C1 fails as stated: over the interval from [-2^1023] to [2^1023],
    whose edges are finite and in order, the width [edge1 - edge0]
    overflows to [Infinity]; at [v = edge1] so does [v - edge0], the
    quotient [Infinity / Infinity] is NaN and the pair is [(NaN, NaN)]
    instead of [(0, 1)]. *)
Lemma smoothstep_width_overflow :
  let edge0 := (- int (2 ^ 1023))%js in
  let edge1 := int (2 ^ 1023) in
  let v := edge1 in
  finite edge0 /\ finite edge1 /\ finite v
  /\ (edge0 < edge1)%js = true /\ eqn v edge1 = true
  /\ (edge1 - edge0)%js = Infinity false
  /\ (v - edge0)%js = Infinity false
  /\ ((v - edge0) / (edge1 - edge0))%js = NaN
  /\ smoothstep edge0 edge1 v = NaN
  /\ blendSlots (smoothstep edge0 edge1 v) = [NaN; NaN; 0%js; 0%js]
  /\ ~ (exists b, represents (smoothstep edge0 edge1 v) b).
Proof.
  cbv zeta. do 3 (split; [exact I|]).
  do 7 (split; [vm_compute; reflexivity|]).
  intros [b H]. vm_compute in H. exact H.
Qed.

(** C2 fails as stated: with [edge0 = edge1 = 0] and [x = 0] the quotient
    [0 / 0] is NaN, [t] is NaN instead of 0 and the weight pair is
    [(NaN, NaN)]; with [x = 1] the quotient is [Infinity] and [t] is 1. *)
Lemma smoothstep_degenerate_NaN :
  eqn 0%js 0%js = true
  /\ ((0 - 0) / (0 - 0))%js = NaN
  /\ smoothstep_t 0%js 0%js 0%js = NaN
  /\ smoothstep 0%js 0%js 0%js = NaN
  /\ blendSlots (smoothstep 0%js 0%js 0%js) = [NaN; NaN; 0%js; 0%js]
  /\ ((1 - 0) / (0 - 0))%js = Infinity false
  /\ smoothstep_t 0%js 0%js 1%js = 1%js.
Proof. repeat split; reflexivity. Qed.

(** C2 as amended, at [edge0 = edge1 = 2] and [x = 5]. *)
Lemma smoothstep_degenerate_witness :
  ~ finite ((int 5 - 2) / (2 - 2))%js
  /\ smoothstep_t 2%js 2%js (int 5) = 1%js.
Proof.
  destruct (smoothstep_degenerate 2%js 2%js (int 5) I I I eq_refl)
    as (Hq & _ & _ & _ & H1).
  split; [exact Hq | apply H1; reflexivity].
Defined.

(** C5 on a document whose nodes are named after the twenty bones. *)
Lemma humanBones_complete_witness :
  exists parser' warnings vrm,
    afterParse initialPluginState rigDocument = Normal (parser', warnings)
    /\ vrmOf (json parser') = Some vrm
    /\ size (humanBones vrm) + length warnings = 20.
Proof.
  destruct (humanBones_complete initialPluginState rigDocument
              ((fun s => {| node_name := Some s |}) <$> boneNames) eq_refl)
    as (parser' & warnings & vrm & H1 & H2 & _ & _ & H3 & _).
  exists parser', warnings, vrm. split; [exact H1|]. split; [exact H2 | exact H3].
Defined.

(** C6 as amended, on the empty document. *)
Lemma extensionsUsed_appended_witness :
  exists once w1,
    afterParse_times 1 initialPluginState emptyDocument = Normal (once, w1)
    /\ extensionsUsed (json once) = Some ["VRMC_vrm"].
Proof.
  destruct (extensionsUsed_appended initialPluginState emptyDocument [] eq_refl)
    as (once & w1 & H1 & H2 & _).
  exists once, w1. split; [exact H1 | exact H2].
Defined.

(** C8 as amended, on the empty document with no material written. *)
Lemma missing_material_binding_witness :
  exists parser' warnings vrm,
    afterParse initialPluginState emptyDocument = Normal (parser', warnings)
    /\ vrmOf (json parser') = Some vrm.
Proof.
  destruct (missing_material_binding initialPluginState emptyDocument [] eq_refl)
    as (parser' & warnings & vrm & H1 & H2 & _).
  exists parser', warnings, vrm. split; [exact H1 | exact H2].
Defined.

(** ** Evaluation of the definitions, in exact arithmetic *)

Example smoothstep_mid : represents (smoothstep 0%js 1%js (dec 0.5)) 0.5.
Proof. vm_compute. reflexivity. Qed.

Example smoothstep_below : represents (smoothstep (dec 0.1) (dec 0.4) (- dec 3)%js) 0.
Proof. vm_compute. reflexivity. Qed.

Example createBody_skin_vertex :
  (createBody_skin 9 10 11 12 13 [(0%js, (- dec 0.46)%js, 0%js)]).1 = [9; 10; 0; 0]
  /\ Forall2 represents
       (createBody_skin 9 10 11 12 13 [(0%js, (- dec 0.46)%js, 0%js)]).2
       [0.5; 0.5; 0; 0]%Q.
Proof.
  split; [reflexivity|].
  repeat constructor; vm_compute; reflexivity.
Qed.

Example createLeg_skin_vertex :
  Forall2 represents (createLeg_skin 14 15 [(0%js, dec 0.1, 0%js)]).2 [0; 1; 0; 0]%Q.
Proof. repeat constructor; vm_compute; reflexivity. Qed.

Example TextureKindToIndex_blinkRight : TextureKindToIndex blinkRight = 7.
Proof. reflexivity. Qed.

Example classifyVertices_three :
  classifyVertices
    [(0%js, (- dec 0.2)%js, dec 0.2); (0%js, 0%js, 0%js); (0%js, 0%js, 0%js)]
    (flipUV [(dec 0.45, dec 0.44); (dec 0.45, dec 0.44); (dec 0.55, dec 0.44)])
  = {| mouthVertexIndices := [0%N]; leftEyeVertexIndices := [1%N];
       rightEyeVertexIndices := [2%N] |}.
Proof. vm_compute. reflexivity. Qed.

Example groupFaces_four :
  let vs := {| mouthVertexIndices := [0; 1]%N; leftEyeVertexIndices := [2; 3]%N;
               rightEyeVertexIndices := [4; 5]%N |} in
  let g := groupFaces vs (Some [6; 7; 8; 0; 1; 2; 3; 2; 0; 5; 6; 4]%N) 9 in
  newIndices g = [6; 7; 8; 0; 1; 2; 3; 2; 0; 5; 6; 4]%N
  /\ addGroups g
     = [ {| group_start := 0; group_count := 3; group_materialIndex := 0 |};
         {| group_start := 3; group_count := 3; group_materialIndex := 1 |};
         {| group_start := 6; group_count := 3; group_materialIndex := 2 |};
         {| group_start := 9; group_count := 3; group_materialIndex := 3 |} ].
Proof. vm_compute. split; reflexivity. Qed.

Example nodeNameToIndex_repeated :
  nodeNameToIndex [ {| node_name := Some "head" |}; {| node_name := None |};
                    {| node_name := Some "head" |} ] !! "head" = Some 2.
Proof. reflexivity. Qed.

Example character_node_names :
  length (nodeNames (composeModel characterParts characterBones)) = 40
  /\ length (List.filter (String.eqb "head")
               (nodeNames (composeModel characterParts characterBones))) = 3
  /\ length (List.filter (String.eqb "leftHand")
               (nodeNames (composeModel characterParts characterBones))) = 3
  /\ length (List.filter (String.eqb "hips")
               (nodeNames (composeModel characterParts characterBones))) = 1.
Proof. vm_compute. repeat split; reflexivity. Qed.

Example character_bone_indices :
  (addBones ((fun n => {| bone_name := n; bone_position := (0%js, 0%js, 0%js) |})
               <$> characterBoneOrder) []).1 = seq 0 20
  /\ characterBoneOrder ≡ₚ boneNames.
Proof.
  split; [reflexivity|].
  apply (bool_decide_unpack _). vm_compute. reflexivity.
Qed.

(** * Further properties *)

(** ** The blend function: saturation, range, monotonicity *)

Section SmoothstepFurther.
Context {R : Rounding}.
Local Open Scope Q_scope.

#[local] Instance rnd_Proper_further : Proper (Qeq ==> Qeq) rnd.
Proof. intros p q H. apply rnd_proper, H. Qed.

(** X1. For finite edges with [edge0 < edge1] whose width [edge1 - edge0]
    is finite, [smoothstep] is 0 at every finite [x] at or below [edge0]
    and at [-Infinity], and 1 at every finite [x] at or above [edge1] and
    at [Infinity]; the difference [x - edge0] and the quotient may
    overflow on the way. *)
Theorem smoothstep_saturates (edge0 edge1 x : number) :
  finite edge0 -> finite edge1 -> (edge0 < edge1)%js = true ->
  finite (edge1 - edge0)%js ->
  ((x < edge0)%js = true \/ eqn x edge0 = true ->
     represents (smoothstep edge0 edge1 x) 0)
  /\ ((edge1 < x)%js = true \/ eqn x edge1 = true ->
     represents (smoothstep edge0 edge1 x) 1).
Proof.
  destruct edge0 as [| |s0 p0], edge1 as [| |s1 p1]; try contradiction.
  intros _ _ Hlt Hwidth. apply Qltb_lt in Hlt.
  destruct (sub_Fin s1 p1 s0 p0) as [bw Ew]. rewrite Ew in Hwidth.
  apply finite_result in Hwidth.
  assert (~ p0 == p1) as Hne by lra.
  destruct x as [|sx|sx px].
  - split; intros [H | H]; discriminate.
  - (* an infinite x *)
    pose proof (smoothstep_t_Infinity s0 p0 s1 p1 sx Hne Hwidth) as Et.
    assert (Qltb (p1 + - p0) 0 = false) as E by (apply Qltb_ge; lra).
    rewrite E, xorb_false_r in Et.
    destruct sx.
    + destruct (smoothstep_of_t _ _ _ false 0 Et) as (s' & w & -> & _ & W0 & _); [lra|].
      split; intros [H | H]; try discriminate. simpl. apply W0. reflexivity.
    + destruct (smoothstep_of_t _ _ _ false 1 Et) as (s' & w & -> & _ & _ & W1); [lra|].
      split; intros [H | H]; try discriminate. simpl. apply W1. reflexivity.
  - destruct (smoothstep_saturates_Fin s0 p0 s1 p1 sx px Hne Hwidth)
      as (s & w & -> & _ & W0 & W1).
    simpl. split; intros H.
    + apply W0. left. split; [exact Hlt|].
      destruct H as [H | H]; [apply Qltb_lt in H | apply Qeq_bool_iff in H]; lra.
    + apply W1. left. split; [exact Hlt|].
      destruct H as [H | H]; [apply Qltb_lt in H | apply Qeq_bool_iff in H]; lra.
Qed.

(** X2. With the edges in reverse order ([edge1 < edge0], finite, of
    finite width) the step descends: [smoothstep] is 0 at every finite
    [x] at or above [edge0] and 1 at every finite [x] at or below
    [edge1]. *)
Theorem smoothstep_reversed (edge0 edge1 x : number) :
  finite edge0 -> finite edge1 -> finite x -> (edge1 < edge0)%js = true ->
  finite (edge1 - edge0)%js ->
  ((edge0 < x)%js = true \/ eqn x edge0 = true ->
     represents (smoothstep edge0 edge1 x) 0)
  /\ ((x < edge1)%js = true \/ eqn x edge1 = true ->
     represents (smoothstep edge0 edge1 x) 1).
Proof.
  destruct edge0 as [| |s0 p0], edge1 as [| |s1 p1], x as [| |sx px]; try contradiction.
  intros _ _ _ Hlt Hwidth. apply Qltb_lt in Hlt.
  destruct (sub_Fin s1 p1 s0 p0) as [bw Ew]. rewrite Ew in Hwidth.
  apply finite_result in Hwidth.
  destruct (smoothstep_saturates_Fin s0 p0 s1 p1 sx px) as (s & w & -> & _ & W0 & W1);
    [lra | exact Hwidth |].
  simpl. split; intros H.
  - apply W0. right. split; [exact Hlt|].
    destruct H as [H | H]; [apply Qltb_lt in H | apply Qeq_bool_iff in H]; lra.
  - apply W1. right. split; [exact Hlt|].
    destruct H as [H | H]; [apply Qltb_lt in H | apply Qeq_bool_iff in H]; lra.
Qed.

(** X3. Whatever its three arguments are, [smoothstep] returns NaN or a
    finite value in [[0,1]], never an infinity, and it returns NaN exactly
    when the quotient [(x - edge0) / (edge1 - edge0)] is NaN; on finite
    arguments that is exactly when [x - edge0] and [edge1 - edge0] are
    both zero ([edge0], [edge1] and [x] are equal) or both overflow. *)
Theorem smoothstep_range (edge0 edge1 x : number) :
  (smoothstep edge0 edge1 x = NaN
   \/ exists q, represents (smoothstep edge0 edge1 x) q /\ 0 <= q <= 1)
  /\ (smoothstep edge0 edge1 x = NaN
      <-> ((x - edge0) / (edge1 - edge0))%js = NaN)
  /\ (finite edge0 -> finite edge1 -> finite x ->
        (smoothstep edge0 edge1 x = NaN
         <-> (eqn x edge0 = true /\ eqn edge1 edge0 = true)
             \/ (~ finite (x - edge0)%js /\ ~ finite (edge1 - edge0)%js))).
Proof.
  assert (forall s t, 0 <= t <= 1 ->
            Math_max 0%js (Math_min 1%js
              (Fin s t * Fin s t * (3 - 2 * Fin s t))%js) <> NaN) as Hfin.
  { intros s t Ht. destruct (smoothstep_poly s t Ht) as (s' & w & -> & _). discriminate. }
  assert (smoothstep edge0 edge1 x = NaN
          <-> ((x - edge0) / (edge1 - edge0))%js = NaN) as Hnan.
  { unfold smoothstep, smoothstep_t.
    destruct ((x - edge0) / (edge1 - edge0))%js as [|b|b q] eqn:Eq.
    - split; reflexivity.
    - rewrite clamp_Infinity. split; [|discriminate]. intros H. exfalso. revert H.
      destruct b; [apply (Hfin false (inject_Z 0)) | apply (Hfin false (inject_Z 1))];
        split; discriminate.
    - split; [|discriminate]. intros H. exfalso. revert H.
      destruct (clamp_Fin b q) as (s & t & -> & Ht).
      apply Hfin. rewrite Ht. apply Qclamp_unit. }
  split; [|split; [exact Hnan|]].
  - unfold smoothstep.
    match goal with |- context [Math_min 1%js ?r] => destruct r as [|b|b q] end.
    + left. reflexivity.
    + right. rewrite clamp_Infinity. destruct b; [exists 0 | exists 1]; (split; [reflexivity | lra]).
    + right. destruct (clamp_Fin b q) as (s & t & -> & Ht).
      exists t. split; [reflexivity|]. rewrite Ht. apply Qclamp_unit.
  - destruct edge0 as [| |s0 p0], edge1 as [| |s1 p1], x as [| |sx px];
      try contradiction.
    intros _ _ _. rewrite Hnan.
    destruct (sub_Fin sx px s0 p0) as [bn ->].
    destruct (sub_Fin s1 p1 s0 p0) as [bd ->].
    unfold eqn.
    destruct (overflows (px + - p0)) eqn:On, (overflows (p1 + - p0)) eqn:Od.
    + rewrite !result_Infinity by assumption. simpl. split; [|reflexivity].
      intros _. right. split; intros [].
    + rewrite (result_Infinity _ _ On), (result_Fin _ _ Od). cbn [div].
      apply overflows_nonzero in On. split; [discriminate|].
      intros [[E _] | [_ H]].
      * apply Qeq_bool_iff in E. exfalso. apply On. lra.
      * exfalso. apply H. exact I.
    + rewrite (result_Fin _ _ On), (result_Infinity _ _ Od). cbn [div].
      apply overflows_nonzero in Od. split; [discriminate|].
      intros [[_ E] | [H _]].
      * apply Qeq_bool_iff in E. exfalso. apply Od. lra.
      * exfalso. apply H. exact I.
    + rewrite (result_Fin _ _ On), (result_Fin _ _ Od). unfold div.
      destruct (Qeq_bool (rnd (p1 + - p0)) 0) eqn:Ed.
      * apply Qeq_bool_iff, rnd_nonzero in Ed.
        destruct (Qeq_bool (rnd (px + - p0)) 0) eqn:En.
        -- apply Qeq_bool_iff, rnd_nonzero in En. split; [|reflexivity].
           intros _. left. split; apply Qeq_bool_iff; lra.
        -- apply Qeq_bool_false in En. split; [discriminate|].
           intros [[E _] | [H _]].
           ++ apply Qeq_bool_iff in E. exfalso. apply En.
              assert (px + - p0 == 0) as -> by lra. apply rnd_0.
           ++ exfalso. apply H. exact I.
      * apply Qeq_bool_false in Ed. split.
        -- unfold result.
           destruct (overflows (rnd (px + - p0) / rnd (p1 + - p0)));
             intros H; discriminate H.
        -- intros [[_ E] | [H _]].
           ++ apply Qeq_bool_iff in E. exfalso. apply Ed.
              assert (p1 + - p0 == 0) as -> by lra. apply rnd_0.
           ++ exfalso. apply H. exact I.
Qed.

End SmoothstepFurther.

(** ** Monotonicity of [smoothstep] *)

Section SmoothstepMonotone.
Context {R : Rounding}.
Local Open Scope Q_scope.

#[local] Instance rnd_Proper_monotone : Proper (Qeq ==> Qeq) rnd.
Proof. intros p q H. apply rnd_proper, H. Qed.

Lemma Qclamp_mono p q : p <= q -> Qclamp p <= Qclamp q.
Proof.
  intros H. unfold Qclamp.
  destruct (Qltb p 0) eqn:P0, (Qltb q 0) eqn:Q0, (Qltb 1 p) eqn:P1, (Qltb 1 q) eqn:Q1;
    repeat match goal with
    | E : Qltb _ _ = true |- _ => apply Qltb_lt in E
    | E : Qltb _ _ = false |- _ => apply Qltb_ge in E
    end; lra.
Qed.

(** The clamp moves no value away from a point of the unit interval. *)
Lemma Qclamp_near q c e :
  0 <= c <= 1 -> Qabs (q - c) <= e -> Qabs (Qclamp q - c) <= e.
Proof.
  intros Hc H. apply Qabs_Qle_condition in H. apply Qabs_Qle_condition.
  unfold Qclamp.
  destruct (Qltb q 0) eqn:E0; [apply Qltb_lt in E0; lra | apply Qltb_ge in E0].
  destruct (Qltb 1 q) eqn:E1; [apply Qltb_lt in E1; lra | lra].
Qed.

(** The cubic [t * t * (3 - 2 * t)] on the unit interval. *)
Lemma hermite_unit t : 0 <= t <= 1 -> 0 <= t * t * (3 + - (2 * t)) <= 1.
Proof.
  intros [H0 H1].
  assert (0 <= t * t) by (apply Qmult_le_0_compat; lra).
  assert (0 <= (1 - t) * (1 - t)) by (apply Qmult_le_0_compat; lra).
  assert (0 <= t * t * (3 + - (2 * t))) by (apply Qmult_le_0_compat; lra).
  assert (0 <= (1 - t) * (1 - t) * (1 + 2 * t)) by (apply Qmult_le_0_compat; lra).
  assert (1 - t * t * (3 + - (2 * t)) == (1 - t) * (1 - t) * (1 + 2 * t)) by ring.
  lra.
Qed.

Lemma hermite_mono a b :
  0 <= a -> a <= b -> b <= 1 ->
  a * a * (3 + - (2 * a)) <= b * b * (3 + - (2 * b)).
Proof.
  intros H0 Hab H1.
  assert (b * b * (3 + - (2 * b)) - a * a * (3 + - (2 * a))
          == (b - a) * (3 * (a + b) - 2 * (a * a + a * b + b * b))) as E by ring.
  assert (0 <= 3 * (a + b) - 2 * (a * a + a * b + b * b)) by nra.
  assert (0 <= (b - a) * (3 * (a + b) - 2 * (a * a + a * b + b * b)))
    by (apply Qmult_le_0_compat; lra).
  lra.
Qed.

(** Overflow is kept by a value further from zero. *)
Lemma overflows_above q q' :
  overflows q = true -> 0 <= q -> q <= q' -> overflows q' = true.
Proof.
  unfold overflows. intros H H0 Hq. apply Qltb_lt in H. apply Qltb_lt.
  pose proof (rnd_nonneg q H0). pose proof (rnd_mono _ _ Hq).
  rewrite Qabs_pos in H by assumption. rewrite Qabs_pos by lra. lra.
Qed.

Lemma overflows_below q q' :
  overflows q' = true -> q' <= 0 -> q <= q' -> overflows q = true.
Proof.
  unfold overflows. intros H H0 Hq. apply Qltb_lt in H. apply Qltb_lt.
  pose proof (rnd_nonpos q' H0). pose proof (rnd_mono _ _ Hq).
  rewrite Qabs_neg in H by assumption. rewrite Qabs_neg by lra. lra.
Qed.

(** The double clamp of the result of an operation. *)
Lemma clamp_result b q :
  exists s t,
    Math_max 0%js (Math_min 1%js (result b q)) = Fin s t
    /\ 0 <= t <= 1
    /\ (overflows q = true -> t == if Qltb q 0 then 0 else 1)
    /\ (overflows q = false -> t == Qclamp (rnd q)).
Proof.
  unfold result. destruct (overflows q) eqn:E.
  - rewrite clamp_Infinity. destruct (Qltb q 0).
    + exists false, 0. split; [reflexivity|]. split; [lra|].
      split; [reflexivity | discriminate].
    + exists false, 1. split; [reflexivity|]. split; [lra|].
      split; [reflexivity | discriminate].
  - destruct (clamp_Fin b (rnd q)) as (s & t & -> & Ht).
    exists s, t. split; [reflexivity|]. rewrite Ht.
    split; [apply Qclamp_unit|]. split; [discriminate | reflexivity].
Qed.

(** The double clamp of a result never decreases as the exact value
    grows. *)
Lemma clamp_result_mono b q b' q' :
  q <= q' ->
  exists s t s' t',
    Math_max 0%js (Math_min 1%js (result b q)) = Fin s t
    /\ Math_max 0%js (Math_min 1%js (result b' q')) = Fin s' t'
    /\ 0 <= t /\ t <= t' /\ t' <= 1.
Proof.
  intros Hq.
  destruct (clamp_result b q) as (s & t & E & Ht & Ho & Hf).
  destruct (clamp_result b' q') as (s' & t' & E' & Ht' & Ho' & Hf').
  exists s, t, s', t'. split; [exact E|]. split; [exact E'|].
  split; [lra|]. split; [|lra].
  destruct (overflows q) eqn:O, (overflows q') eqn:O'.
  - specialize (Ho eq_refl). specialize (Ho' eq_refl).
    destruct (Qltb q 0) eqn:S; [lra|]. apply Qltb_ge in S.
    assert (Qltb q' 0 = false) as S' by (apply Qltb_ge; lra).
    rewrite S' in Ho'. lra.
  - specialize (Ho eq_refl).
    destruct (Qltb q 0) eqn:S; [lra|]. apply Qltb_ge in S.
    rewrite (overflows_above q q' O S Hq) in O'. discriminate.
  - specialize (Ho' eq_refl).
    destruct (Qltb q' 0) eqn:S'; [|lra]. apply Qltb_lt in S'.
    rewrite (overflows_below q q' O') in O by lra. discriminate.
  - rewrite (Hf eq_refl), (Hf' eq_refl). apply Qclamp_mono, rnd_mono, Hq.
Qed.

(** The clamped quotient by a positive finite divisor never decreases as
    the exact value of the dividend grows. *)
Lemma clamp_div_mono bn N bn' N' b d :
  0 < d -> N <= N' ->
  exists s t s' t',
    Math_max 0%js (Math_min 1%js (result bn N / Fin b d)%js) = Fin s t
    /\ Math_max 0%js (Math_min 1%js (result bn' N' / Fin b d)%js) = Fin s' t'
    /\ 0 <= t /\ t <= t' /\ t' <= 1.
Proof.
  intros Hd HN.
  assert (~ d == 0) as Hd0 by lra.
  assert (signbit (Fin b d) = false) as Hs
    by (rewrite (signbit_nonzero _ _ Hd0); apply Qltb_ge; lra).
  assert (forall s, (Infinity s / Fin b d)%js = Infinity s) as Einf
    by (intros s; unfold div; rewrite Hs; destruct s; reflexivity).
  assert (forall s n, exists bq, (Fin s n / Fin b d)%js = result bq (n / d)) as Efin.
  { intros s n. unfold div. apply Qeq_bool_false in Hd0. rewrite Hd0.
    eexists. reflexivity. }
  assert (forall s n, exists s' t,
    Math_max 0%js (Math_min 1%js (Fin s n / Fin b d)%js) = Fin s' t /\ 0 <= t <= 1)
    as Hunit.
  { intros s n. destruct (Efin s n) as [bq ->].
    destruct (clamp_result bq (n / d)) as (s' & t & E & Ht & _).
    exists s', t. split; assumption. }
  unfold result.
  destruct (overflows N) eqn:O, (overflows N') eqn:O'.
  - rewrite !Einf, !clamp_Infinity.
    destruct (Qltb N 0) eqn:S; [apply Qltb_lt in S | apply Qltb_ge in S].
    + destruct (Qltb N' 0); [exists false, 0, false, 0 | exists false, 0, false, 1];
        (split; [reflexivity|]); (split; [reflexivity|]); lra.
    + assert (Qltb N' 0 = false) as -> by (apply Qltb_ge; lra).
      exists false, 1, false, 1. split; [reflexivity|]. split; [reflexivity|]. lra.
  - rewrite Einf, clamp_Infinity.
    destruct (Qltb N 0) eqn:S; [|apply Qltb_ge in S].
    + destruct (Hunit bn' (rnd N')) as (s' & t' & -> & Ht').
      exists false, 0, s', t'. split; [reflexivity|]. split; [reflexivity|]. lra.
    + rewrite (overflows_above N N' O S HN) in O'. discriminate.
  - rewrite Einf, clamp_Infinity.
    destruct (Qltb N' 0) eqn:S'; [apply Qltb_lt in S'|].
    + rewrite (overflows_below N N' O') in O by lra. discriminate.
    + destruct (Hunit bn (rnd N)) as (s & t & -> & Ht).
      exists s, t, false, 1. split; [reflexivity|]. split; [reflexivity|]. lra.
  - destruct (Efin bn (rnd N)) as [bq ->]. destruct (Efin bn' (rnd N')) as [bq' ->].
    apply clamp_result_mono.
    apply Qmult_le_compat_r; [apply rnd_mono, HN|].
    apply Qlt_le_weak, Qinv_lt_0_compat, Hd.
Qed.

(** The parameter [t] never decreases as [x] grows. *)
Lemma smoothstep_t_mono s0 p0 s1 p1 sx px sy py :
  p0 < p1 -> overflows (p1 + - p0) = false -> px <= py ->
  exists s t s' t',
    smoothstep_t (Fin s0 p0) (Fin s1 p1) (Fin sx px) = Fin s t
    /\ smoothstep_t (Fin s0 p0) (Fin s1 p1) (Fin sy py) = Fin s' t'
    /\ 0 <= t /\ t <= t' /\ t' <= 1.
Proof.
  intros Hlt Hov Hxy. unfold smoothstep_t.
  destruct (width_Fin s0 p0 s1 p1) as (b & -> & _ & _); [lra | exact Hov |].
  destruct (sub_Fin sx px s0 p0) as [bx ->].
  destruct (sub_Fin sy py s0 p0) as [bySign ->].
  apply clamp_div_mono; [apply rnd_pos; lra | lra].
Qed.

(** The quotient of two rounded values, rounded: for [0 < N < D] it is
    within 1e-5 of the exact quotient. *)
Lemma rnd_quotient_near N D :
  0 < N -> N < D ->
  Qabs (rnd (rnd N / rnd D) - N / D) <= 1 # 100000.
Proof.
  intros HN HD.
  destruct rnd_u_small as [Hu0 Hu1].
  set (n := rnd N). set (d := rnd D). set (r := N / D). set (q := n / d).
  assert (0 < d) as Hd by (apply rnd_pos; lra).
  assert (0 < n) as Hn by (apply rnd_pos; lra).
  assert (r * D == N) as Hr by (unfold r; field; lra).
  assert (q * d == n) as Hq by (unfold q; field; lra).
  destruct (rnd_error_bounds N) as [EN _]. specialize (EN (Qlt_le_weak _ _ HN)).
  destruct (rnd_error_bounds D) as [ED _].
  assert (0 <= D) as HD0 by lra. specialize (ED HD0). fold n in EN. fold d in ED.
  assert (0 < r) as Hr0.
  { unfold r. apply Qlt_shift_div_l; lra. }
  assert (r < 1) as Hr1.
  { unfold r. apply Qlt_shift_div_r; lra. }
  assert (0 < q) as Hq0.
  { unfold q. apply Qlt_shift_div_l; lra. }
  assert (q * (1 - rnd_u) <= r * (1 + rnd_u)) as Hup.
  { assert (q * (1 - rnd_u) * D <= r * (1 + rnd_u) * D) as H by nra.
    apply Qmult_lt_0_le_reg_r in H; lra. }
  assert (r * (1 - rnd_u) <= q * (1 + rnd_u)) as Hlo.
  { assert (r * (1 - rnd_u) * D <= q * (1 + rnd_u) * D) as H by nra.
    apply Qmult_lt_0_le_reg_r in H; lra. }
  assert (q <= 1 + 3 * rnd_u) as Hq1 by nra.
  destruct (rnd_error_bounds q) as [EQ _]. specialize (EQ (Qlt_le_weak _ _ Hq0)).
  apply Qabs_Qle_condition. split; nra.
Qed.

(** The parameter [t] is within 1e-5 of the exact ratio
    [(x - edge0) / (edge1 - edge0)] clamped to the unit interval. *)
Lemma smoothstep_t_near s0 p0 s1 p1 sx px :
  p0 < p1 -> overflows (p1 + - p0) = false ->
  exists s t,
    smoothstep_t (Fin s0 p0) (Fin s1 p1) (Fin sx px) = Fin s t
    /\ Qabs (t - Qclamp ((px - p0) / (p1 - p0))) <= 1 # 100000.
Proof.
  intros Hlt Hov. unfold smoothstep_t.
  destruct (width_Fin s0 p0 s1 p1) as (b & -> & Hd0 & Hs); [lra | exact Hov |].
  destruct (sub_Fin sx px s0 p0) as [bx ->].
  change ((px - p0) / (p1 - p0)) with ((px + - p0) / (p1 + - p0)).
  set (N := px + - p0). set (D := p1 + - p0) in *. set (d := rnd D) in *.
  assert (0 < D) as HD by (unfold D; lra).
  assert (0 < d) as Hd by (apply rnd_pos, HD).
  assert (d <= rnd_max) as Hmax.
  { unfold overflows in Hov. apply Qltb_ge in Hov.
    eapply Qle_trans; [apply Qle_Qabs | exact Hov]. }
  assert (Qltb D 0 = false) as HsD by (apply Qltb_ge; lra).
  rewrite HsD in Hs.
  assert (N <= 0 -> N / D <= 0) as Rlow
    by (intros; apply Qdiv_nonpos; left; split; assumption).
  assert (D <= N -> 1 <= N / D) as Rhigh
    by (intros; apply Qdiv_ge_1; left; split; assumption).
  assert (rnd_max < rnd N -> D <= N) as Hbig.
  { intros H. destruct (Qlt_le_dec N D) as [HND | HND]; [|exact HND].
    pose proof (rnd_mono N D (Qlt_le_weak _ _ HND)). fold d in H0. lra. }
  assert (forall t c : Q, t == c -> Qabs (t - c) <= 1 # 100000) as Hsame.
  { intros t c E. apply Qabs_Qle_condition. split; lra. }
  pose proof rnd_max_large as HM.
  unfold result. destruct (overflows N) eqn:O.
  - assert ((Infinity (Qltb N 0) / Fin b d)%js = Infinity (Qltb N 0)) as ->
      by (unfold div; rewrite Hs; destruct (Qltb N 0); reflexivity).
    rewrite clamp_Infinity. unfold overflows in O. apply Qltb_lt in O.
    destruct (Qltb N 0) eqn:S; [apply Qltb_lt in S | apply Qltb_ge in S].
    + exists false, 0. split; [reflexivity|]. apply Hsame.
      symmetry. apply Qclamp_low, Rlow. lra.
    + exists false, 1. split; [reflexivity|]. apply Hsame.
      symmetry. apply Qclamp_high, Rhigh, Hbig.
      rewrite Qabs_pos in O by (apply rnd_nonneg, S). exact O.
  - set (n := rnd N).
    assert (exists bq, (Fin bx n / Fin b d)%js = result bq (n / d)) as [bq ->].
    { unfold div. apply Qeq_bool_false in Hd0. fold d in Hd0. rewrite Hd0.
      eexists. reflexivity. }
    assert (0 <= N -> 0 <= n / d) as Qnonneg.
    { intros H. apply Qle_shift_div_l; [exact Hd|].
      pose proof (rnd_nonneg N H). fold n in H0. lra. }
    assert (N <= 0 -> n / d <= 0) as Qlow.
    { intros H. apply Qdiv_nonpos. left. split; [exact Hd|]. apply rnd_nonpos, H. }
    assert (D <= N -> 1 <= n / d) as Qhigh.
    { intros H. apply Qdiv_ge_1. left. split; [exact Hd|]. apply rnd_mono, H. }
    unfold result. destruct (overflows (n / d)) eqn:Oq.
    + rewrite clamp_Infinity. unfold overflows in Oq. apply Qltb_lt in Oq.
      destruct (Qltb (n / d) 0) eqn:Sq; [apply Qltb_lt in Sq | apply Qltb_ge in Sq].
      * exists false, 0. split; [reflexivity|]. apply Hsame.
        symmetry. apply Qclamp_low, Rlow.
        destruct (Qlt_le_dec 0 N) as [H | H]; [|exact H].
        pose proof (Qnonneg (Qlt_le_weak _ _ H)). lra.
      * exists false, 1. split; [reflexivity|]. apply Hsame.
        symmetry. apply Qclamp_high, Rhigh.
        rewrite Qabs_pos in Oq by (apply rnd_nonneg, Sq).
        destruct (Qlt_le_dec N D) as [H | H]; [|exact H]. exfalso.
        assert (n / d <= 1) as H1.
        { apply Qle_shift_div_r; [exact Hd|].
          pose proof (rnd_mono N D (Qlt_le_weak _ _ H)). fold n d in H0. lra. }
        pose proof (rnd_mono _ _ H1). pose proof rnd_1. lra.
    + destruct (clamp_Fin bq (rnd (n / d))) as (s & t & -> & Ht).
      exists s, t. split; [reflexivity|]. rewrite Ht.
      destruct (Qlt_le_dec 0 N) as [H0 | H0]; [destruct (Qlt_le_dec N D) as [H1 | H1]|].
      * apply Qclamp_near.
        -- apply Qclamp_unit.
        -- rewrite (Qclamp_eq (N / D) (N / D)); [apply rnd_quotient_near; assumption
             | reflexivity |].
           split; [apply Qle_shift_div_l; lra | apply Qle_shift_div_r; lra].
      * apply Hsame. rewrite (Qclamp_high (N / D)) by auto.
        apply Qclamp_high, rnd_ge_1, Qhigh, H1.
      * apply Hsame. rewrite (Qclamp_low (N / D)) by auto.
        apply Qclamp_low, rnd_nonpos, Qlow, H0.
Qed.

(** The value returned for a parameter of the unit interval is within
    2e-5 of the cubic [3t^2 - 2t^3]. *)
Lemma smoothstep_poly_near s t :
  0 <= t <= 1 ->
  exists s' w,
    Math_max 0%js (Math_min 1%js
      (Fin s t * Fin s t * (3 - 2 * Fin s t))%js) = Fin s' w
    /\ Qabs (w - t * t * (3 + - (2 * t))) <= 1 # 50000.
Proof.
  intros Ht.
  destruct (smoothstep_poly_value s t Ht) as [b ->].
  destruct (clamp_Fin b (rnd (rnd (t * t) * rnd (3 + - rnd (2 * t)))))
    as (s' & w & -> & Hw).
  exists s', w. split; [reflexivity|]. rewrite Hw.
  apply Qclamp_near; [apply hermite_unit, Ht|].
  destruct rnd_u_small as [Hu0 Hu1].
  set (A := rnd (t * t)). set (r2 := rnd (2 * t)).
  set (B := rnd (3 + - r2)).
  assert (0 <= t * t <= 1) as Htt by nra.
  assert (0 <= A <= 1) as HA by (apply rnd_unit, Htt).
  assert (Qabs (A - t * t) <= rnd_u) as EA.
  { apply Qabs_Qle_condition.
    destruct (rnd_error_bounds (t * t)) as [H _]. specialize (H (proj1 Htt)).
    fold A in H. split; nra. }
  assert (0 <= r2 <= 2) as Hr2.
  { pose proof (rnd_mono 0 (2 * t)). pose proof (rnd_mono (2 * t) 2).
    pose proof rnd_0. pose proof rnd_2. unfold r2. lra. }
  assert (Qabs (r2 - 2 * t) <= 2 * rnd_u) as Er2.
  { apply Qabs_Qle_condition.
    destruct (rnd_error_bounds (2 * t)) as [H _].
    assert (0 <= 2 * t) as H2 by lra. specialize (H H2).
    fold r2 in H. split; nra. }
  assert (1 <= B <= 3) as HB.
  { pose proof (rnd_mono 1 (3 + - r2)). pose proof (rnd_mono (3 + - r2) 3).
    pose proof rnd_1. pose proof rnd_3. unfold B. lra. }
  assert (Qabs (B - (3 + - r2)) <= 3 * rnd_u) as EB.
  { apply Qabs_Qle_condition.
    destruct (rnd_error_bounds (3 + - r2)) as [H _].
    assert (0 <= 3 + - r2) as H3 by lra. specialize (H H3).
    fold B in H. split; nra. }
  assert (Qabs (rnd (A * B) - A * B) <= 3 * rnd_u) as EP.
  { apply Qabs_Qle_condition.
    destruct (rnd_error_bounds (A * B)) as [H _].
    assert (0 <= A * B) as H3 by nra. specialize (H H3).
    assert (A * B <= 3) by nra. split; nra. }
  apply Qabs_Qle_condition in EA, Er2, EB, EP. apply Qabs_Qle_condition.
  assert (- (5 * rnd_u) <= B - (3 + - (2 * t)) <= 5 * rnd_u) as EB' by lra.
  assert (A * B - t * t * (3 + - (2 * t))
          == A * (B - (3 + - (2 * t))) + (A - t * t) * (3 + - (2 * t))) as E by ring.
  assert (- (5 * rnd_u) <= A * (B - (3 + - (2 * t))) <= 5 * rnd_u) by nra.
  assert (- (3 * rnd_u) <= (A - t * t) * (3 + - (2 * t)) <= 3 * rnd_u) by nra.
  split; lra.
Qed.

(** X4. For finite edges with [edge0 < edge1] whose width is finite and
    finite [x <= y], under any rounding: the clamped parameters [t] of [x]
    and of [y] are in [[0,1]], in the order of [x] and [y], and within 1e-5
    of the exact ratio [(x - edge0) / (edge1 - edge0)] clamped to [[0,1]];
    the value [smoothstep] returns is within 2e-5 of the cubic
    [3t^2 - 2t^3] of its parameter; hence the weight of [x] exceeds the
    weight of [y] by at most 4e-5.  (The rounded weights themselves need
    not be monotone.) *)
Theorem smoothstep_monotone_within_rounding (edge0 edge1 x y : number) :
  finite edge0 -> finite edge1 -> finite x -> finite y ->
  (edge0 < edge1)%js = true -> finite (edge1 - edge0)%js ->
  (y < x)%js = false ->
  exists e0 e1 px py tx ty a b,
    valueOf edge0 = Some e0 /\ valueOf edge1 = Some e1
    /\ valueOf x = Some px /\ valueOf y = Some py
    /\ represents (smoothstep_t edge0 edge1 x) tx
    /\ represents (smoothstep_t edge0 edge1 y) ty
    /\ 0 <= tx /\ tx <= ty /\ ty <= 1
    /\ Qabs (tx - Qclamp ((px - e0) / (e1 - e0))) <= 1 # 100000
    /\ Qabs (ty - Qclamp ((py - e0) / (e1 - e0))) <= 1 # 100000
    /\ represents (smoothstep edge0 edge1 x) a
    /\ represents (smoothstep edge0 edge1 y) b
    /\ Qabs (a - (3 * tx ^ 2 - 2 * tx ^ 3)) <= 1 # 50000
    /\ Qabs (b - (3 * ty ^ 2 - 2 * ty ^ 3)) <= 1 # 50000
    /\ a <= b + (1 # 25000).
Proof.
  destruct edge0 as [| |s0 p0], edge1 as [| |s1 p1], x as [| |sx px], y as [| |sy py];
    try contradiction.
  intros _ _ _ _ Hlt Hwidth Hxy. apply Qltb_lt in Hlt. apply Qltb_ge in Hxy.
  destruct (sub_Fin s1 p1 s0 p0) as [bw Ew]. rewrite Ew in Hwidth.
  apply finite_result in Hwidth.
  destruct (smoothstep_t_mono s0 p0 s1 p1 sx px sy py Hlt Hwidth Hxy)
    as (s & tx & s' & ty & Ex & Ey & H0 & Ht & H1).
  destruct (smoothstep_t_near s0 p0 s1 p1 sx px Hlt Hwidth) as (s2 & tx2 & Ex2 & Nx).
  destruct (smoothstep_t_near s0 p0 s1 p1 sy py Hlt Hwidth) as (s3 & ty3 & Ey3 & Ny).
  rewrite Ex in Ex2. rewrite Ey in Ey3.
  injection Ex2 as _ <-. injection Ey3 as _ <-.
  unfold smoothstep. rewrite Ex, Ey. cbv zeta.
  destruct (smoothstep_poly_near s tx) as (sa & a & -> & Ha); [lra|].
  destruct (smoothstep_poly_near s' ty) as (sb & b & -> & Hb); [lra|].
  exists p0, p1, px, py, tx, ty, a, b.
  do 4 (split; [reflexivity|]).
  do 2 (split; [reflexivity|]). do 3 (split; [assumption|]).
  do 2 (split; [assumption|]).
  do 2 (split; [reflexivity|]).
  assert (3 * tx ^ 2 - 2 * tx ^ 3 == tx * tx * (3 + - (2 * tx))) as -> by ring.
  assert (3 * ty ^ 2 - 2 * ty ^ 3 == ty * ty * (3 + - (2 * ty))) as -> by ring.
  split; [exact Ha|]. split; [exact Hb|].
  pose proof (hermite_mono tx ty H0 Ht H1).
  apply Qabs_Qle_condition in Ha, Hb. lra.
Qed.

End SmoothstepMonotone.

(** ** The vertex loops *)

Lemma flat_map_length4 {A B} (f : A -> list B) (l : list A) :
  (forall p, length (f p) = 4) -> length (flat_map f l) = 4 * length l.
Proof.
  intros Hf. induction l as [|p l IH]; [reflexivity|].
  simpl. rewrite length_app, Hf, IH. lia.
Qed.

Lemma vertexSlots_flat_map {A B} (f : A -> list B) (l : list A) i p :
  l !! i = Some p -> (forall p, length (f p) = 4) ->
  vertexSlots (flat_map f l) i = f p.
Proof.
  intros Hi Hf. unfold vertexSlots. revert i Hi.
  induction l as [|q l IH]; intros i Hi; [by rewrite lookup_nil in Hi|].
  destruct i as [|i]; simpl in Hi.
  - injection Hi as ->. simpl. rewrite drop_0.
    rewrite take_app_length'; [reflexivity | by rewrite Hf].
  - simpl flat_map. replace (4 * S i) with (length (f q) + 4 * i) by (rewrite Hf; lia).
    rewrite drop_app_add'; [|reflexivity]. by apply IH.
Qed.

Section VertexLoopFacts.
Context {R : Rounding}.
Local Open Scope Q_scope.

#[local] Instance rnd_Proper_loops : Proper (Qeq ==> Qeq) rnd.
Proof. intros p q H. apply rnd_proper, H. Qed.

(** Rounding moves a value of size at most 1 by at most 1e-6. *)
Lemma rnd_near q : -1 <= q <= 1 -> q - (1 # 1000000) <= rnd q <= q + (1 # 1000000).
Proof.
  intros [Hl Hh]. destruct (rnd_error_bounds q) as [Hp Hn].
  destruct rnd_u_small as [Hu0 Hu1].
  destruct (Qlt_le_dec q 0) as [Hq | Hq].
  - assert (q <= 0) as Hq' by lra. specialize (Hn Hq'). split; nra.
  - specialize (Hp Hq). split; nra.
Qed.

(** Sums, differences and products of small finite numbers are finite. *)
Lemma add_small s p s' q :
  -1000 <= p + q <= 1000 -> exists b, (Fin s p + Fin s' q)%js = Fin b (rnd (p + q)).
Proof. intros H. eexists. unfold add. apply result_small, H. Qed.

Lemma sub_small s p s' q :
  -1000 <= p + - q <= 1000 ->
  exists b, (Fin s p - Fin s' q)%js = Fin b (rnd (p + - q)).
Proof. intros H. eexists. unfold sub, add. cbn [neg]. apply result_small, H. Qed.

Lemma mul_small s p s' q :
  -1000 <= p * q <= 1000 -> exists b, (Fin s p * Fin s' q)%js = Fin b (rnd (p * q)).
Proof. intros H. eexists. unfold mul. apply result_small, H. Qed.

Lemma neg_dec q : exists b, (- dec q)%js = Fin b (- rnd q).
Proof. eexists. reflexivity. Qed.

(** The pair pushed for a weight: the complement is rounded once. *)
Lemma blend_pair_of s w :
  0 <= w <= 1 ->
  exists sa a,
    (1 - Fin s w)%js = Fin sa a
    /\ 0 <= a <= 1 /\ Qabs (a + w - 1) <= 1 # 1000000
    /\ (w == 0 -> a == 1) /\ (w == 1 -> a == 0).
Proof.
  intros Hw. destruct (complement_Fin s w Hw) as (b & E & Ha & Hs).
  exists b, (rnd (1 + - w)). split; [exact E|]. split; [exact Ha|].
  split; [exact Hs|]. split; intros Ew; rewrite Ew.
  - assert (1 + - 0 == 1) as -> by reflexivity. apply rnd_1.
  - assert (1 + - (1) == 0) as -> by reflexivity. apply rnd_0.
Qed.

Lemma blend_pair_Fin s0 p0 s1 p1 sx px :
  p0 < p1 -> overflows (p1 + - p0) = false ->
  exists sa a sb b,
    smoothstep (Fin s0 p0) (Fin s1 p1) (Fin sx px) = Fin sb b
    /\ (1 - smoothstep (Fin s0 p0) (Fin s1 p1) (Fin sx px))%js = Fin sa a
    /\ 0 <= a <= 1 /\ 0 <= b <= 1
    /\ Qabs (a + b - 1) <= 1 # 1000000
    /\ (px <= p0 -> a == 1 /\ b == 0)
    /\ (p1 <= px -> a == 0 /\ b == 1).
Proof.
  intros Hlt Hov.
  destruct (smoothstep_saturates_Fin s0 p0 s1 p1 sx px) as (s & w & -> & Hw & W0 & W1);
    [lra | exact Hov |].
  destruct (blend_pair_of s w Hw) as (sa & a & Ea & Ha & Hs & A0 & A1).
  exists sa, a, s, w. split; [reflexivity|]. split; [exact Ea|].
  split; [exact Ha|]. split; [exact Hw|]. split; [exact Hs|]. split.
  - intros H. assert (w == 0) as E by (apply W0; left; split; lra). auto.
  - intros H. assert (w == 1) as E by (apply W1; left; split; lra). auto.
Qed.

(** The same at an infinite coordinate. *)
Lemma blend_pair_Infinity s0 p0 s1 p1 sx :
  p0 < p1 -> overflows (p1 + - p0) = false ->
  exists sa a sb b,
    smoothstep (Fin s0 p0) (Fin s1 p1) (Infinity sx) = Fin sb b
    /\ (1 - smoothstep (Fin s0 p0) (Fin s1 p1) (Infinity sx))%js = Fin sa a
    /\ 0 <= a <= 1 /\ 0 <= b <= 1
    /\ Qabs (a + b - 1) <= 1 # 1000000
    /\ (sx = true -> a == 1 /\ b == 0)
    /\ (sx = false -> a == 0 /\ b == 1).
Proof.
  intros Hlt Hov.
  assert (~ p0 == p1) as Hne by lra.
  pose proof (smoothstep_t_Infinity s0 p0 s1 p1 sx Hne Hov) as Et.
  assert (Qltb (p1 + - p0) 0 = false) as E by (apply Qltb_ge; lra).
  rewrite E, xorb_false_r in Et.
  assert (exists t, smoothstep_t (Fin s0 p0) (Fin s1 p1) (Infinity sx) = Fin false t
                    /\ 0 <= t <= 1 /\ (sx = true -> t == 0) /\ (sx = false -> t == 1))
    as (t & Et' & Ht & T0 & T1).
  { destruct sx; [exists 0 | exists 1]; (split; [exact Et|]); (split; [lra|]);
      split; intros; (reflexivity || discriminate). }
  destruct (smoothstep_of_t _ _ _ false t Et' Ht) as (s & w & -> & Hw & W0 & W1).
  destruct (blend_pair_of s w Hw) as (sa & a & Ea & Ha & Hs & A0 & A1).
  exists sa, a, s, w. split; [reflexivity|]. split; [exact Ea|].
  split; [exact Ha|]. split; [exact Hw|]. split; [exact Hs|]. split; intros H; auto.
Qed.

(** X5. In the arm loop, a vertex with a finite coordinate gets the bone
    indices [upper, lower, 0, 0] and two finite weights in [[0,1]] that sum
    to 1 within 1e-6, followed by two zeros; it follows the upper arm alone
    when [x * direction] is below [centerX - threshold] and the lower arm
    alone when it is not below [centerX + threshold]. *)
Theorem createArm_skin_blend (direction : number) (upper lower : nat)
    (position : list vec3) (i : nat) (p : vec3) :
  position !! i = Some p -> finite (getX p) -> finite direction ->
  vertexSlots (createArm_skin direction upper lower position).1 i
    = [upper; lower; 0%nat; 0%nat]
  /\ exists wa wb a b,
       vertexSlots (createArm_skin direction upper lower position).2 i
         = [wa; wb; 0%js; 0%js]
       /\ represents wa a /\ represents wb b
       /\ 0 <= a <= 1 /\ 0 <= b <= 1 /\ Qabs (a + b - 1) <= 1 # 1000000
       /\ ((getX p * direction < - dec 0.2 - dec 0.2)%js = true -> a == 1 /\ b == 0)
       /\ ((getX p * direction < - dec 0.2 + dec 0.2)%js = false -> a == 0 /\ b == 1).
Proof.
  intros Hp Hx Hd. unfold createArm_skin. cbn [fst snd].
  split; [by rewrite (vertexSlots_flat_map _ _ i p Hp) by (intros; reflexivity)|].
  rewrite (vertexSlots_flat_map _ _ i p Hp) by (intros; reflexivity).
  cbv zeta. destruct (getX p) as [| |sx px]; try contradiction.
  destruct direction as [| |sd d]; try contradiction.
  assert (0 < rnd 0.2) as Hr by (apply rnd_pos; reflexivity).
  assert (-1 <= 0.2 <= 1) as B2 by (split; discriminate).
  pose proof (rnd_near 0.2 B2) as N2.
  destruct (neg_dec 0.2) as [sn En]. rewrite En.
  unfold dec.
  destruct (sub_small sn (- rnd 0.2) false (rnd 0.2)) as [s0 ->]; [lra|].
  destruct (add_small sn (- rnd 0.2) false (rnd 0.2)) as [s1 ->]; [lra|].
  set (e0 := rnd (- rnd 0.2 + - rnd 0.2)).
  set (e1 := rnd (- rnd 0.2 + rnd 0.2)).
  assert (e0 < 0) as H0 by (apply rnd_neg; lra).
  assert (e1 == 0) as H1.
  { unfold e1. assert (- rnd 0.2 + rnd 0.2 == 0) as -> by ring. apply rnd_0. }
  assert (-1 <= e0) as H0'.
  { pose proof (rnd_near (- rnd 0.2 + - rnd 0.2)). unfold e0. lra. }
  assert (overflows (e1 + - e0) = false) as Hov by (apply overflows_small; lra).
  assert (exists sv, (Fin sx px * Fin sd d)%js = result sv (px * d)) as [sv ->]
    by (eexists; reflexivity).
  unfold blendSlots.
  destruct (overflows (px * d)) eqn:Ov.
  - rewrite (result_Infinity _ _ Ov).
    destruct (blend_pair_Infinity s0 e0 s1 e1 (Qltb (px * d) 0))
      as (sa & a & sb & b & Ew & Ec & Ha & Hb & Hs & L & U); [lra | exact Hov |].
    rewrite Ec, Ew.
    exists (Fin sa a), (Fin sb b), a, b. split; [reflexivity|].
    split; [reflexivity|]. split; [reflexivity|].
    split; [exact Ha|]. split; [exact Hb|]. split; [exact Hs|].
    cbn [lt]. split; [exact L | exact U].
  - rewrite (result_Fin _ _ Ov).
    destruct (blend_pair_Fin s0 e0 s1 e1 sv (rnd (px * d)))
      as (sa & a & sb & b & Ew & Ec & Ha & Hb & Hs & L & U); [lra | exact Hov |].
    rewrite Ec, Ew.
    exists (Fin sa a), (Fin sb b), a, b. split; [reflexivity|].
    split; [reflexivity|]. split; [reflexivity|].
    split; [exact Ha|]. split; [exact Hb|]. split; [exact Hs|]. split.
    + intros H. simpl in H. apply Qltb_lt in H. apply L. lra.
    + intros H. simpl in H. apply Qltb_ge in H. apply U. lra.
Qed.

(** X6. In the leg loop, a vertex with a finite height gets the bone
    indices [upperLeg, lowerLeg, 0, 0] and two finite weights in [[0,1]]
    that sum to 1 within 1e-6, followed by two zeros; it follows the lower
    leg alone when [y] is below [centerY - threshold] and the upper leg
    alone when it is not below [centerY + threshold]. *)
Theorem createLeg_skin_blend (upperLeg lowerLeg : nat)
    (position : list vec3) (i : nat) (p : vec3) :
  position !! i = Some p -> finite (getY p) ->
  vertexSlots (createLeg_skin upperLeg lowerLeg position).1 i
    = [upperLeg; lowerLeg; 0%nat; 0%nat]
  /\ exists wa wb a b,
       vertexSlots (createLeg_skin upperLeg lowerLeg position).2 i
         = [wa; wb; 0%js; 0%js]
       /\ represents wa a /\ represents wb b
       /\ 0 <= a <= 1 /\ 0 <= b <= 1 /\ Qabs (a + b - 1) <= 1 # 1000000
       /\ ((getY p < dec 0.25 - dec 0.15)%js = true -> a == 0 /\ b == 1)
       /\ ((getY p < dec 0.25 + dec 0.15)%js = false -> a == 1 /\ b == 0).
Proof.
  intros Hp Hy. unfold createLeg_skin. cbn [fst snd].
  split; [by rewrite (vertexSlots_flat_map _ _ i p Hp) by (intros; reflexivity)|].
  rewrite (vertexSlots_flat_map _ _ i p Hp) by (intros; reflexivity).
  cbv zeta. destruct (getY p) as [| |sy py]; try contradiction.
  assert (-1 <= 0.25 <= 1) as B25 by (split; discriminate).
  assert (-1 <= 0.15 <= 1) as B15 by (split; discriminate).
  pose proof (rnd_near 0.25 B25) as Hc. pose proof (rnd_near 0.15 B15) as Ht.
  unfold dec.
  destruct (sub_small false (rnd 0.25) false (rnd 0.15)) as [s0 ->]; [lra|].
  destruct (add_small false (rnd 0.25) false (rnd 0.15)) as [s1 ->]; [lra|].
  set (e0 := rnd (rnd 0.25 + - rnd 0.15)).
  set (e1 := rnd (rnd 0.25 + rnd 0.15)).
  assert (0 <= e0 <= 0.2) as H0.
  { pose proof (rnd_near (rnd 0.25 + - rnd 0.15)).
    pose proof (rnd_nonneg (rnd 0.25 + - rnd 0.15)). unfold e0. lra. }
  assert (0.3 <= e1 <= 1) as H1.
  { pose proof (rnd_near (rnd 0.25 + rnd 0.15)). unfold e1. lra. }
  destruct (blend_pair_Fin s0 e0 s1 e1 sy py)
    as (sa & a & sb & b & Ew & Ec & Ha & Hb & Hs & L & U);
    [lra | apply overflows_small; lra |].
  rewrite Ec, Ew.
  exists (Fin sb b), (Fin sa a), b, a. split; [reflexivity|].
  split; [reflexivity|]. split; [reflexivity|].
  split; [exact Hb|]. split; [exact Ha|]. split.
  { assert (b + a - 1 == a + b - 1) as -> by ring. exact Hs. }
  split.
  - intros H. simpl in H. apply Qltb_lt in H.
    assert (a == 1 /\ b == 0) by (apply L; lra). tauto.
  - intros H. simpl in H. apply Qltb_ge in H.
    assert (a == 0 /\ b == 1) by (apply U; lra). tauto.
Qed.

End VertexLoopFacts.

Section BodyLoopFacts.
Context {R : Rounding}.
Local Open Scope Q_scope.

(** Where the five edges of the body loop lie. *)
Lemma createBody_edges :
  let r5 := rnd 0.5 in
  let r8 := rnd 0.8 in
  - r5 < rnd (- r5 + rnd (r8 * rnd 0.1))
  /\ rnd (- r5 + rnd (r8 * rnd 0.1)) < rnd (- r5 + rnd (r8 * rnd 0.4))
  /\ rnd (- r5 + rnd (r8 * rnd 0.4)) < rnd (- r5 + rnd (r8 * rnd 0.8))
  /\ rnd (- r5 + rnd (r8 * rnd 0.8)) < rnd (- r5 + r8)
  /\ -1 <= - r5 /\ rnd (- r5 + r8) <= 1
  /\ 0 <= r8 <= 1 /\ 0 <= rnd 0.1 <= 1 /\ 0 <= rnd 0.4 <= 1
  /\ 0 <= rnd (r8 * rnd 0.1) <= 1 /\ 0 <= rnd (r8 * rnd 0.4) <= 1
  /\ 0 <= rnd (r8 * r8) <= 1.
Proof.
  cbv zeta.
  pose proof (rnd_near 0.5) as H5. pose proof (rnd_near 0.8) as H8.
  pose proof (rnd_near 0.1) as H1. pose proof (rnd_near 0.4) as H4.
  assert (-1 <= 0.5 <= 1) as B5 by (split; discriminate).
  assert (-1 <= 0.8 <= 1) as B8 by (split; discriminate).
  assert (-1 <= 0.1 <= 1) as B1 by (split; discriminate).
  assert (-1 <= 0.4 <= 1) as B4 by (split; discriminate).
  specialize (H5 B5). specialize (H8 B8). specialize (H1 B1). specialize (H4 B4).
  set (r5 := rnd 0.5) in *. set (r8 := rnd 0.8) in *.
  set (r1 := rnd 0.1) in *. set (r4 := rnd 0.4) in *.
  assert (0.07 <= r8 * r1 <= 0.09) as P1 by (split; nra).
  assert (0.31 <= r8 * r4 <= 0.33) as P4 by (split; nra).
  assert (0.63 <= r8 * r8 <= 0.65) as P8 by (split; nra).
  pose proof (rnd_near (r8 * r1)) as M1. pose proof (rnd_near (r8 * r4)) as M4.
  pose proof (rnd_near (r8 * r8)) as M8.
  assert (0.06 <= rnd (r8 * r1) <= 0.10) as N1 by lra.
  assert (0.30 <= rnd (r8 * r4) <= 0.34) as N4 by lra.
  assert (0.62 <= rnd (r8 * r8) <= 0.66) as N8 by lra.
  pose proof (rnd_near (- r5 + rnd (r8 * r1))) as E1.
  pose proof (rnd_near (- r5 + rnd (r8 * r4))) as E2.
  pose proof (rnd_near (- r5 + rnd (r8 * r8))) as E3.
  pose proof (rnd_near (- r5 + r8)) as E4.
  repeat split; lra.
Qed.

(** X7. In the body loop, a vertex with a finite height gets the bone
    indices of one of the four stacked segments, lower bone first, and two
    finite weights in [[0,1]] that sum to 1 within 1e-6, followed by two
    zeros; below the lowest edge it follows the hips alone, and from the
    highest edge on the neck alone; a vertex exactly on one of the three
    inner edges follows the bone of that joint alone, the spine, the chest
    or the upper chest, which is the upper bone of the segment below and
    the lower bone of the segment the vertex is put in. *)
Theorem createBody_skin_blend (hips spine chest upperChest neck : nat)
    (position : list vec3) (i : nat) (p : vec3) :
  position !! i = Some p -> finite (getY p) ->
  exists boneA boneB wa wb a b,
    vertexSlots (createBody_skin hips spine chest upperChest neck position).1 i
      = [boneA; boneB; 0%nat; 0%nat]
    /\ vertexSlots (createBody_skin hips spine chest upperChest neck position).2 i
      = [wa; wb; 0%js; 0%js]
    /\ (boneA, boneB) ∈ [(hips, spine); (spine, chest); (chest, upperChest);
                          (upperChest, neck)]
    /\ represents wa a /\ represents wb b
    /\ 0 <= a <= 1 /\ 0 <= b <= 1 /\ Qabs (a + b - 1) <= 1 # 1000000
    /\ ((getY p < - dec 0.5)%js = true ->
          (boneA, boneB) = (hips, spine) /\ a == 1 /\ b == 0)
    /\ ((getY p < - dec 0.5 + dec 0.8)%js = false ->
          (boneA, boneB) = (upperChest, neck) /\ a == 0 /\ b == 1)
    /\ (eqn (getY p) (- dec 0.5 + dec 0.8 * dec 0.1)%js = true ->
          (boneA, boneB) = (spine, chest) /\ a == 1 /\ b == 0)
    /\ (eqn (getY p) (- dec 0.5 + dec 0.8 * dec 0.4)%js = true ->
          (boneA, boneB) = (chest, upperChest) /\ a == 1 /\ b == 0)
    /\ (eqn (getY p) (- dec 0.5 + dec 0.8 * dec 0.8)%js = true ->
          (boneA, boneB) = (upperChest, neck) /\ a == 1 /\ b == 0).
Proof.
  intros Hp Hy. unfold createBody_skin. cbv zeta. cbn [fst snd].
  rewrite (vertexSlots_flat_map _ _ i p Hp)
    by (intros q; destruct (lt _ _); [|destruct (lt _ _); [|destruct (lt _ _)]];
        reflexivity).
  rewrite (vertexSlots_flat_map _ _ i p Hp)
    by (intros q; destruct (lt _ _); [|destruct (lt _ _); [|destruct (lt _ _)]];
        reflexivity).
  destruct (getY p) as [| |sy py]; try contradiction.
  destruct createBody_edges
    as (H01 & H12 & H23 & H34 & Hlo & Hhi & B8 & B1 & B4 & P1 & P4 & P8).
  cbv zeta in H01, H12, H23, H34, Hlo, Hhi, B8, B1, B4, P1, P4, P8.
  destruct (neg_dec 0.5) as [s0 E0]. rewrite E0. unfold dec.
  destruct (mul_small false (rnd 0.8) false (rnd 0.1)) as [m1 ->]; [nra|].
  destruct (mul_small false (rnd 0.8) false (rnd 0.4)) as [m4 ->]; [nra|].
  destruct (mul_small false (rnd 0.8) false (rnd 0.8)) as [m8 ->]; [nra|].
  destruct (add_small s0 (- rnd 0.5) m1 (rnd (rnd 0.8 * rnd 0.1))) as [s1 ->]; [lra|].
  destruct (add_small s0 (- rnd 0.5) m4 (rnd (rnd 0.8 * rnd 0.4))) as [s2 ->]; [lra|].
  destruct (add_small s0 (- rnd 0.5) m8 (rnd (rnd 0.8 * rnd 0.8))) as [s3 ->]; [lra|].
  destruct (add_small s0 (- rnd 0.5) false (rnd 0.8)) as [s4 ->]; [lra|].
  set (e1 := rnd (- rnd 0.5 + rnd (rnd 0.8 * rnd 0.1))) in *.
  set (e2 := rnd (- rnd 0.5 + rnd (rnd 0.8 * rnd 0.4))) in *.
  set (e3 := rnd (- rnd 0.5 + rnd (rnd 0.8 * rnd 0.8))) in *.
  set (e4 := rnd (- rnd 0.5 + rnd 0.8)) in *.
  set (e0 := - rnd 0.5) in *.
  simpl lt. unfold eqn.
  assert (forall P Q : Prop, P -> Q -> P /\ Q) as conj' by (intros; split; assumption).
  destruct (Qltb py e1) eqn:L1; [|destruct (Qltb py e2) eqn:L2;
                                   [|destruct (Qltb py e3) eqn:L3]].
  1: destruct (blend_pair_Fin s0 e0 s1 e1 sy py H01 ltac:(apply overflows_small; lra))
      as (sa & a & sb & b & Ew & Ec & Ha & Hb & Hs & L & U);
     exists hips, spine, (Fin sa a), (Fin sb b), a, b.
  2: destruct (blend_pair_Fin s1 e1 s2 e2 sy py H12 ltac:(apply overflows_small; lra))
      as (sa & a & sb & b & Ew & Ec & Ha & Hb & Hs & L & U);
     exists spine, chest, (Fin sa a), (Fin sb b), a, b.
  3: destruct (blend_pair_Fin s2 e2 s3 e3 sy py H23 ltac:(apply overflows_small; lra))
      as (sa & a & sb & b & Ew & Ec & Ha & Hb & Hs & L & U);
     exists chest, upperChest, (Fin sa a), (Fin sb b), a, b.
  4: destruct (blend_pair_Fin s3 e3 s4 e4 sy py H34 ltac:(apply overflows_small; lra))
      as (sa & a & sb & b & Ew & Ec & Ha & Hb & Hs & L & U);
     exists upperChest, neck, (Fin sa a), (Fin sb b), a, b.
  all: unfold blendSlots; rewrite Ec, Ew.
  all: do 2 (split; [reflexivity|]); (split; [set_solver|]).
  all: do 2 (split; [reflexivity|]); do 3 (split; [assumption|]).
  all: try apply Qltb_lt in L1; try apply Qltb_ge in L1.
  all: try apply Qltb_lt in L2; try apply Qltb_ge in L2.
  all: try apply Qltb_lt in L3; try apply Qltb_ge in L3.
  all: repeat apply conj'; intros H;
       first [apply Qltb_lt in H | apply Qltb_ge in H | apply Qeq_bool_iff in H];
       first [exfalso; lra
             | split; [reflexivity | first [apply L; lra | apply U; lra]]].
Qed.

End BodyLoopFacts.

Section SkinBufferFacts.
Context {R : Rounding}.

(** X8. Each of the four vertex loops writes four bone indices and four
    weights per vertex: both buffers have four times as many entries as
    there are vertices, and the single-bone loop binds every vertex to its
    bone with weight 1. *)
Theorem skin_buffers_four_per_vertex (position : list vec3) :
  (forall direction upper lower,
     length (createArm_skin direction upper lower position).1 = 4 * length position
     /\ length (createArm_skin direction upper lower position).2 = 4 * length position)
  /\ (forall upper lower,
     length (createLeg_skin upper lower position).1 = 4 * length position
     /\ length (createLeg_skin upper lower position).2 = 4 * length position)
  /\ (forall hips spine chest upperChest neck,
     length (createBody_skin hips spine chest upperChest neck position).1
       = 4 * length position
     /\ length (createBody_skin hips spine chest upperChest neck position).2
       = 4 * length position)
  /\ (forall bone,
     length (createHand_skin bone position).1 = 4 * length position
     /\ length (createHand_skin bone position).2 = 4 * length position
     /\ forall i, i < length position ->
          vertexSlots (createHand_skin bone position).1 i = [bone; 0; 0; 0]%nat
          /\ vertexSlots (createHand_skin bone position).2 i = [1; 0; 0; 0]%js).
Proof.
  repeat split; try (apply flat_map_length4; intros q; cbv zeta;
                     repeat destruct (lt _ _); reflexivity).
  all: destruct (lookup_lt_is_Some_2 position i) as [p Hp]; [assumption|].
  all: unfold createHand_skin; cbn [fst snd].
  all: by rewrite (vertexSlots_flat_map _ _ i p Hp) by (intros; reflexivity).
Qed.

End SkinBufferFacts.

(** ** The head: classification and regrouping *)

(** [a < b] and [b < a] never hold together. *)
Lemma lt_asymmetric (a b : number) : (a < b)%js = true -> (b < a)%js = false.
Proof.
  destruct a as [|sa|sa p], b as [|sb|sb q]; simpl; try discriminate; try reflexivity.
  - destruct sa, sb; simpl; try discriminate; reflexivity.
  - intros ->. reflexivity.
  - destruct sb; [discriminate | reflexivity].
  - intros H. apply Qltb_lt in H. apply Qltb_ge. lra.
Qed.

Lemma StronglySorted_snoc (l : list N) (m : N) :
  StronglySorted N.lt l -> (forall x, x ∈ l -> (x < m)%N) ->
  StronglySorted N.lt (l ++ [m]).
Proof.
  induction 1 as [|x l Hs IH Hx]; intros Hm; simpl.
  - repeat constructor.
  - constructor.
    + apply IH. intros y Hy. apply Hm. by right.
    + apply Forall_app. split; [exact Hx|]. constructor; [|constructor].
      apply Hm. left.
Qed.

Section ClassificationFurther.
Context {R : Rounding}.

(** The two eye tests exclude one another. *)
Lemma eyes_exclusive t : inLeftEye t = true -> inRightEye t = false.
Proof.
  unfold inLeftEye, inRightEye. intros H.
  apply andb_prop in H as [H _]. apply andb_prop in H as [H _].
  apply andb_prop in H as [_ H]. apply lt_asymmetric in H. by rewrite H.
Qed.

(** What the three lists hold after the first [n] vertices. *)
Lemma classify_fold pos uv n :
  n <= length pos ->
  let vs := foldl (classifyVertex pos uv)
              {| mouthVertexIndices := []; leftEyeVertexIndices := [];
                 rightEyeVertexIndices := [] |} (seq 0 n) in
  let uvAt i := default (NaN, NaN) (uv !! i) in
  (forall v, v ∈ mouthVertexIndices vs <->
     exists i p, v = N.of_nat i /\ i < n /\ pos !! i = Some p /\ inMouth p = true)
  /\ (forall v, v ∈ leftEyeVertexIndices vs <->
     exists i p, v = N.of_nat i /\ i < n /\ pos !! i = Some p
                 /\ inMouth p = false /\ inLeftEye (uvAt i) = true)
  /\ (forall v, v ∈ rightEyeVertexIndices vs <->
     exists i p, v = N.of_nat i /\ i < n /\ pos !! i = Some p
                 /\ inMouth p = false /\ inRightEye (uvAt i) = true)
  /\ StronglySorted N.lt (mouthVertexIndices vs)
  /\ StronglySorted N.lt (leftEyeVertexIndices vs)
  /\ StronglySorted N.lt (rightEyeVertexIndices vs).
Proof.
  induction n as [|n IH]; intros Hn; cbv zeta.
  - simpl. repeat split; try constructor; try (intros H; by apply elem_of_nil in H);
      intros (i & p & _ & Hi & _); lia.
  - rewrite foldl_seq_S. cbv zeta in IH.
    destruct IH as (Hm & Hl & Hr & Sm & Sl & Sr); [lia|].
    set (vs := foldl _ _ (seq 0 n)) in *.
    destruct (lookup_lt_is_Some_2 pos n) as [p Hp]; [lia|].
    assert (forall (P : nat -> vec3 -> Prop) v,
              (exists i q, v = N.of_nat i /\ i < S n /\ pos !! i = Some q /\ P i q)
              <-> (exists i q, v = N.of_nat i /\ i < n /\ pos !! i = Some q /\ P i q)
                  \/ (v = N.of_nat n /\ P n p)) as Hsplit.
    { intros P v. split.
      - intros (i & q & -> & Hi & Hq & HP).
        destruct (decide (i = n)) as [-> | Hne].
        + right. rewrite Hp in Hq. injection Hq as <-. done.
        + left. exists i, q. repeat split; [lia | done | done].
      - intros [(i & q & -> & Hi & Hq & HP) | [-> HP]].
        + exists i, q. repeat split; [lia | done | done].
        + exists n, p. repeat split; [lia | done | done]. }
    assert (forall l : list N,
              (forall v, v ∈ l -> exists i, v = N.of_nat i /\ i < n) ->
              forall x, x ∈ l -> (x < N.of_nat n)%N) as Hbelow.
    { intros l Hin x Hx. destruct (Hin x Hx) as (i & -> & Hi). lia. }
    assert (forall x, x ∈ mouthVertexIndices vs -> (x < N.of_nat n)%N) as Bm.
    { apply Hbelow. intros v Hv. apply Hm in Hv as (i & q & -> & Hi & _). eauto. }
    assert (forall x, x ∈ leftEyeVertexIndices vs -> (x < N.of_nat n)%N) as Bl.
    { apply Hbelow. intros v Hv. apply Hl in Hv as (i & q & -> & Hi & _). eauto. }
    assert (forall x, x ∈ rightEyeVertexIndices vs -> (x < N.of_nat n)%N) as Br.
    { apply Hbelow. intros v Hv. apply Hr in Hv as (i & q & -> & Hi & _). eauto. }
    unfold classifyVertex. unfold vec3 in *. rewrite Hp.
    change (default (NaN, NaN, NaN) (Some p)) with p.
    set (t := default (NaN, NaN) (uv !! n)).
    pose proof (eyes_exclusive t) as Hex.
    destruct (inMouth p) eqn:EM; [|destruct (inLeftEye t) eqn:EL;
                                    [|destruct (inRightEye t) eqn:ER]]; cbn.
    all: split; [|split; [|split; [|split; [|split]]]].
    all: try (by apply StronglySorted_snoc).
    all: try assumption.
    all: intros v; rewrite ?elem_of_app, ?list_elem_of_singleton;
         rewrite (Hsplit _ v); rewrite ?Hm, ?Hl, ?Hr; fold t.
    all: intuition congruence.
Qed.
End ClassificationFurther.

Section ClassificationTheorem.
Context {R : Rounding}.

(** X9. After the classification loop of [createHead], the mouth list holds
    exactly the indices below [pos.count] whose position passes the mouth
    test; the left-eye list exactly those that fail the mouth test and
    whose UV passes the left-eye test; the right-eye list exactly those
    that fail the mouth test and whose UV passes the right-eye test (the
    two eye tests exclude one another, so the order of the two [else if]
    branches does not matter).  Each list is strictly increasing, so no
    index is pushed twice. *)
Theorem classifyVertices_membership (pos : list vec3) (uv : list (number * number)) :
  let vs := classifyVertices pos uv in
  let uvAt i := default (NaN, NaN) (uv !! i) in
  (forall v, v ∈ mouthVertexIndices vs <->
     exists i p, v = N.of_nat i /\ i < length pos /\ pos !! i = Some p
                 /\ inMouth p = true)
  /\ (forall v, v ∈ leftEyeVertexIndices vs <->
     exists i p, v = N.of_nat i /\ i < length pos /\ pos !! i = Some p
                 /\ inMouth p = false /\ inLeftEye (uvAt i) = true)
  /\ (forall v, v ∈ rightEyeVertexIndices vs <->
     exists i p, v = N.of_nat i /\ i < length pos /\ pos !! i = Some p
                 /\ inMouth p = false /\ inRightEye (uvAt i) = true)
  /\ (forall t, ~ (inLeftEye t = true /\ inRightEye t = true))
  /\ StronglySorted N.lt (mouthVertexIndices vs)
  /\ StronglySorted N.lt (leftEyeVertexIndices vs)
  /\ StronglySorted N.lt (rightEyeVertexIndices vs).
Proof.
  cbv zeta. unfold classifyVertices.
  destruct (classify_fold pos uv (length pos) (le_n _)) as (Hm & Hl & Hr & Sm & Sl & Sr).
  do 3 (split; [assumption|]).
  split; [|by repeat split].
  intros t [Hl' Hr']. apply eyes_exclusive in Hl'. congruence.
Qed.

End ClassificationTheorem.

(** *** The regrouped index buffer *)

Lemma triangles_flat index m :
  flat_map (triangleAt index) (seq 0 m) = vertexAt index <$> seq 0 (3 * m).
Proof.
  induction m as [|m IH]; [reflexivity|].
  rewrite seq_S, flat_map_app, IH.
  replace (3 * S m) with (3 * m + 3) by lia.
  rewrite seq_app, fmap_app. f_equal. unfold triangleAt. simpl.
  repeat f_equal; lia.
Qed.

Lemma lookups_all {A} (l : list A) : (fun k => l !! k) <$> seq 0 (length l) = Some <$> l.
Proof.
  apply list_eq. intros i. rewrite !list_lookup_fmap.
  destruct (decide (i < length l)) as [Hi | Hi].
  - rewrite lookup_seq_lt by done. simpl.
    destruct (lookup_lt_is_Some_2 l i Hi) as [x Hx]. by rewrite Hx.
  - rewrite lookup_seq_ge by lia. rewrite lookup_ge_None_2 by lia. done.
Qed.

Lemma facesOf_Permutation vs index n :
  facesOf vs index n GROUP_FACE ++ facesOf vs index n GROUP_MOUTH
  ++ facesOf vs index n GROUP_LEFT_EYE ++ facesOf vs index n GROUP_RIGHT_EYE
  ≡ₚ flat_map (triangleAt index) (seq 0 n).
Proof.
  unfold facesOf. rewrite <- !flat_map_app.
  apply Permutation_flat_map.
  apply (filter4_Permutation (faceGroupOf vs index)), faceGroupOf_range.
Qed.

Lemma facesOf_all vs index n k :
  (forall f, f < n -> faceGroupOf vs index f = k) ->
  facesOf vs index n k = flat_map (triangleAt index) (seq 0 n)
  /\ forall k', k' <> k -> facesOf vs index n k' = [].
Proof.
  intros H. induction n as [|n IH]; [by split|].
  destruct IH as [IH1 IH2]; [intros f Hf; apply H; lia|].
  split.
  - rewrite facesOf_S, IH1, H, Nat.eqb_refl by lia.
    rewrite seq_S, flat_map_app. simpl. by rewrite ?app_nil_r.
  - intros k' Hk. rewrite facesOf_S, IH2, H by (done || lia).
    destruct (Nat.eqb_spec k k'); [congruence | done].
Qed.

(** X10. The index buffer written back by [createHead] holds the vertex
    slots of the faces of the loop, rearranged: no slot is lost or repeated.
    For an index buffer of whole triangles these are the entries of the old
    buffer, reduced to 32 bits.  When every face falls in the default group
    the buffer is written back in its old order and the three other groups
    are empty ranges. *)
Theorem newIndices_rearranged (vs : VertexSets) (index : option (list N))
    (positionCount : nat) :
  let n := faceIterations index positionCount in
  let g := groupFaces vs index positionCount in
  newIndices g ≡ₚ toUint32 <$> (vertexAt index <$> seq 0 (3 * n))
  /\ (forall ix m, index = Some ix -> length ix = 3 * m ->
        newIndices g ≡ₚ (fun v => (v mod 2 ^ 32)%N) <$> ix)
  /\ ((forall f, f < n -> faceGroupOf vs index f = GROUP_FACE) ->
        newIndices g = toUint32 <$> (vertexAt index <$> seq 0 (3 * n))
        /\ group_count <$> addGroups g = [3 * n; 0; 0; 0]).
Proof.
  cbv zeta. unfold groupFaces.
  destruct (groupFaces_fold vs index (faceIterations index positionCount))
    as (Hf & Hm & Hl & Hr).
  set (g := foldl _ _ _) in *.
  set (n := faceIterations index positionCount) in *.
  assert (newIndices g ≡ₚ toUint32 <$> (vertexAt index <$> seq 0 (3 * n))) as Hperm.
  { unfold newIndices. rewrite Hf, Hm, Hl, Hr, <- triangles_flat.
    apply fmap_Permutation, facesOf_Permutation. }
  split; [exact Hperm|]. split.
  - intros ix m -> Hix. rewrite Hperm. subst n.
    rewrite (faceIterations_exact ix positionCount m Hix), <- Hix.
    change (vertexAt (Some ix)) with (fun k : nat => ix !! k).
    rewrite lookups_all, <- list_fmap_compose. reflexivity.
  - intros Hall. destruct (facesOf_all vs index n GROUP_FACE Hall) as [Hface Hnone].
    unfold newIndices, addGroups. simpl. rewrite Hf, Hm, Hl, Hr.
    rewrite (Hnone GROUP_MOUTH), (Hnone GROUP_LEFT_EYE), (Hnone GROUP_RIGHT_EYE)
      by discriminate.
    rewrite Hface, !app_nil_r, triangles_flat. split; [reflexivity|].
    simpl. by rewrite length_fmap, length_seq.
Qed.

(** ** The head: UVs and the texture atlas *)

Section AtlasFacts.
Context {R : Rounding}.

#[local] Instance rnd_Proper_atlas : Proper (Qeq ==> Qeq) rnd.
Proof. intros p q H. apply rnd_proper, H. Qed.

Lemma flipUV_Fin s q :
  (0 <= q <= 1)%Q ->
  exists s',
    ((1 - Fin s q) / int (Z.of_nat (length TextureKinds)))%js
    = Fin s' (rnd (rnd (1 + - q) / 8)).
Proof.
  intros Hq. change (int (Z.of_nat (length TextureKinds))) with (Fin false 8%Q).
  assert (0 <= rnd (1 + - q) <= 1)%Q as Hr by (apply rnd_unit; lra).
  destruct (sub_small false 1%Q s q) as [b E]; [lra|].
  change (Fin false 1%Q) with 1%js in E. rewrite E.
  eexists. unfold div. change (Qeq_bool 8%Q 0%Q) with false. cbv iota.
  apply result_small. split.
  - apply Qle_trans with 0%Q; [discriminate|].
    apply Qle_shift_div_l; [reflexivity | lra].
  - apply Qle_shift_div_r; [reflexivity | lra].
Qed.

(** X11. The UV loop of [createHead] keeps the number of UVs and every [u];
    a [v] between 0 and 1 is sent between 0 and the rounded eighth, the
    height of the first of the eight tiles of the atlas; [v = 0] is sent
    to the rounded eighth and [v = 1] to 0; a NaN stays a NaN. *)
Theorem flipUV_first_tile (uv : list (number * number)) :
  length (flipUV uv) = length uv
  /\ forall i u v, uv !! i = Some (u, v) ->
       exists v', flipUV uv !! i = Some (u, v')
         /\ (forall q, represents v q -> (0 <= q <= 1)%Q ->
               exists q', represents v' q' /\ (0 <= q' <= rnd (1 # 8))%Q)
         /\ (represents v 0 -> represents v' (rnd (1 # 8)))
         /\ (represents v 1 -> represents v' 0)
         /\ (v = NaN -> v' = NaN).
Proof.
  unfold flipUV. split; [apply length_fmap|].
  intros i u v Hi. rewrite list_lookup_fmap, Hi.
  exists ((1 - v) / int (Z.of_nat (length TextureKinds)))%js. split; [reflexivity|].
  split; [|split; [|split]].
  - intros q Hv Hq. destruct v as [| |s p]; simpl in Hv; try contradiction.
    destruct (flipUV_Fin s p) as [s' ->]; [lra|]. eexists. split; [simpl; reflexivity|].
    assert (0 <= rnd (1 + - p) <= 1)%Q as Hr by (apply rnd_unit; lra).
    split.
    + rewrite <- rnd_0. apply rnd_mono.
      apply Qle_shift_div_l; [reflexivity | lra].
    + apply rnd_mono. apply Qle_shift_div_r; [reflexivity | lra].
  - intros Hv. destruct v as [| |s p]; simpl in Hv; try contradiction.
    destruct (flipUV_Fin s p) as [s' ->]; [lra|]. simpl.
    apply rnd_proper.
    assert (rnd (1 + - p) == 1)%Q as -> by (rewrite <- rnd_1 at 2; apply rnd_proper; lra).
    reflexivity.
  - intros Hv. destruct v as [| |s p]; simpl in Hv; try contradiction.
    destruct (flipUV_Fin s p) as [s' ->]; [lra|]. simpl.
    assert (rnd (1 + - p) == 0)%Q as -> by (rewrite <- rnd_0; apply rnd_proper; lra).
    rewrite <- rnd_0 at 2. apply rnd_proper. reflexivity.
  - intros ->. reflexivity.
Qed.

Lemma textureBind_offset_Fin st materialName kind :
  exists s, bind_offset (textureBind st materialName kind)
  = (0%js, Fin s (rnd (inject_Z (Z.of_nat (TextureKindToIndex kind)) * rnd (1 / 8)))).
Proof.
  unfold textureBind. cbn [bind_offset].
  change (int (Z.of_nat (length TextureKinds))) with (Fin false 8%Q).
  assert (0 <= rnd (1 / 8) <= 1)%Q as Hr by (apply rnd_unit; split; discriminate).
  assert (exists b, (1 / Fin false 8%Q)%js = Fin b (rnd (1 / 8)%Q)) as [b ->].
  { eexists. unfold div, int. change (Qeq_bool 8%Q 0%Q) with false. cbv iota.
    apply result_small. split; discriminate. }
  assert (0 <= inject_Z (Z.of_nat (TextureKindToIndex kind)) <= 7)%Q as Hk
    by (destruct kind; split; discriminate).
  unfold int at 2.
  destruct (mul_small false (inject_Z (Z.of_nat (TextureKindToIndex kind))) b (rnd (1 / 8)%Q))
    as [s ->]; [nra|].
  exists s. reflexivity.
Qed.

Lemma atlas_draws_lookup kinds j d :
  canvas_draws (createFaceTextureAtlasCanvas_of kinds) !! j = Some d ->
  kinds !! j = Some (draw_kind d) /\ draw_dx d = 0 /\ draw_dy d = j * 256
  /\ draw_dWidth d = 256 /\ draw_dHeight d = 256.
Proof.
  unfold createFaceTextureAtlasCanvas_of. cbn [canvas_draws].
  rewrite list_lookup_imap. destruct (kinds !! j) as [k|] eqn:E; [|discriminate].
  simpl. intros [= <-]. simpl. auto.
Qed.

(** X12. [createFaceTextureAtlasCanvas] draws one tile per texture kind,
    256 high and as wide as the canvas, the tile of the [j]-th kind at
    height [256 * j]: the tiles follow one another and stay inside the
    canvas, whose height is 256 times the number of kinds.  Each kind has
    exactly one tile, at the index [TextureKindToIndex] gives it; and when
    the eighths are representable, the vertical texture offset that
    [afterParse] writes for a kind is the top of that tile as a fraction
    of the canvas height, with scale 1 and no horizontal offset. *)
Theorem atlas_tiles_and_offsets (st : PluginState) (materialName : string)
    (kind : TextureKind) (kinds : list TextureKind) :
  (forall k : Z, (0 <= k <= 8)%Z -> rnd (inject_Z k / 8) == inject_Z k / 8) ->
  (forall j d, canvas_draws (createFaceTextureAtlasCanvas_of kinds) !! j = Some d ->
     kinds !! j = Some (draw_kind d)
     /\ draw_dx d = 0 /\ draw_dWidth d = canvas_width (createFaceTextureAtlasCanvas_of kinds)
     /\ draw_dy d = j * draw_dHeight d
     /\ draw_dy d + draw_dHeight d <= canvas_height (createFaceTextureAtlasCanvas_of kinds))
  /\ length (canvas_draws (createFaceTextureAtlasCanvas_of kinds)) = length kinds
  /\ canvas_height (createFaceTextureAtlasCanvas_of kinds) = 256 * length kinds
  /\ exists d y,
       canvas_draws createFaceTextureAtlasCanvas !! TextureKindToIndex kind = Some d
       /\ draw_kind d = kind
       /\ (forall j d', canvas_draws createFaceTextureAtlasCanvas !! j = Some d' ->
             draw_kind d' = kind -> j = TextureKindToIndex kind)
       /\ bind_offset (textureBind st materialName kind) = (0%js, y)
       /\ bind_scale (textureBind st materialName kind) = (1%js, 1%js)
       /\ represents y (inject_Z (Z.of_nat (draw_dy d))
                        / inject_Z (Z.of_nat (canvas_height createFaceTextureAtlasCanvas))).
Proof.
  intros Heighths. split; [|split; [|split]].
  - intros j d Hd. pose proof (lookup_lt_Some _ _ _ Hd) as Hj.
    apply atlas_draws_lookup in Hd as (Hk & Hx & Hy & Hw & Hh).
    unfold createFaceTextureAtlasCanvas_of in *. cbn [canvas_draws canvas_width canvas_height] in *.
    rewrite length_imap in Hj. rewrite Hx, Hy, Hw, Hh. repeat split; try done. lia.
  - apply length_imap.
  - reflexivity.
  - destruct (textureBind_offset_Fin st materialName kind) as [s Hoff].
    assert (TextureKindToIndex kind < 8) as Hlt by (destruct kind; vm_compute; lia).
    assert (exists d, canvas_draws createFaceTextureAtlasCanvas !! TextureKindToIndex kind = Some d
                      /\ draw_kind d = kind /\ draw_dy d = TextureKindToIndex kind * 256)
      as (d & Hd & Hk & Hy) by (destruct kind; eexists; repeat split).
    exists d. eexists. split; [exact Hd|]. split; [exact Hk|]. split; [|split; [exact Hoff|split]].
    + intros j d' Hd' Hk'. apply atlas_draws_lookup in Hd' as (Hj & _).
      rewrite Hk' in Hj.
      destruct j as [|[|[|[|[|[|[|[|j]]]]]]]]; destruct kind; try discriminate Hj;
        reflexivity.
    + reflexivity.
    + simpl. rewrite Hy.
      change (canvas_height createFaceTextureAtlasCanvas) with (256 * 8).
      set (n := TextureKindToIndex kind) in *.
      assert (rnd (1 / 8) == 1 / 8) as -> by (apply (Heighths 1%Z); lia).
      assert (inject_Z (Z.of_nat n) * (1 / 8) == inject_Z (Z.of_nat n) / 8) as ->
        by (field).
      rewrite Heighths by lia.
      rewrite Nat2Z.inj_mul, inject_Z_mult. 
      change (inject_Z (Z.of_nat (256 * 8))) with (256 * 8)%Q.
      change (inject_Z (Z.of_nat 256)) with 256%Q. field.
Qed.
End AtlasFacts.

(** ** Debug colours *)

Section VisualizationFacts.
Context {R : Rounding}.

Lemma flat_map_length3 {A B} (f : A -> list B) (l : list A) :
  (forall p, length (f p) = 3) -> length (flat_map f l) = 3 * length l.
Proof.
  intros Hf. induction l as [|p l IH]; [reflexivity|].
  simpl. rewrite length_app, Hf, IH. lia.
Qed.

Lemma flat_map_triple {A B} (f : A -> list B) (l : list A) i p :
  l !! i = Some p -> (forall p, length (f p) = 3) ->
  take 3 (drop (3 * i) (flat_map f l)) = f p.
Proof.
  intros Hi Hf. revert i Hi.
  induction l as [|q l IH]; intros i Hi; [by rewrite lookup_nil in Hi|].
  destruct i as [|i]; simpl in Hi.
  - injection Hi as ->. simpl. rewrite drop_0.
    rewrite take_app_length'; [reflexivity | by rewrite Hf].
  - simpl flat_map. replace (3 * S i) with (length (f q) + 3 * i) by (rewrite Hf; lia).
    rewrite drop_app_add'; [|reflexivity]. by apply IH.
Qed.

(** The inner loop stops at the first slot bound to the bone. *)
Lemma slotWeight_first bone skinIndices skinWeights i js :
  (forall j, j ∈ js -> skinIndices !! (i * 4 + j) <> Some bone) ->
  forall j rest,
    slotWeight bone skinIndices skinWeights i (js ++ j :: rest)
    = if bool_decide (skinIndices !! (i * 4 + j) = Some bone)
      then default NaN (skinWeights !! (i * 4 + j))
      else slotWeight bone skinIndices skinWeights i rest.
Proof.
  induction js as [|k js IH]; intros Hjs j rest; [reflexivity|].
  simpl. rewrite bool_decide_eq_false_2 by (apply Hjs; left).
  apply IH. intros j' Hj'. apply Hjs. by right.
Qed.

Lemma slotWeight_none bone skinIndices skinWeights i js :
  (forall j, j ∈ js -> skinIndices !! (i * 4 + j) <> Some bone) ->
  slotWeight bone skinIndices skinWeights i js = 0%js.
Proof.
  induction js as [|k js IH]; intros Hjs; [reflexivity|].
  simpl. rewrite bool_decide_eq_false_2 by (apply Hjs; left).
  apply IH. intros j' Hj'. apply Hjs. by right.
Qed.

(** X13. [addBoneWeightVisualization] writes three colour components per
    vertex: red is the weight of the first of the vertex's four slots that
    is bound to the bone being shown, whatever later slots hold, green is
    that weight times 0.3, blue is 0.  A vertex none of whose slots is
    bound to the bone is black. *)
Theorem addBoneWeightVisualization_colors (debugBoneWeights vertexCount : nat)
    (skinIndices : list nat) (skinWeights : list number) :
  let colors :=
    addBoneWeightVisualization debugBoneWeights vertexCount skinIndices skinWeights in
  length colors = 3 * vertexCount
  /\ forall i, i < vertexCount ->
       exists weight,
         take 3 (drop (3 * i) colors) = [weight; (weight * dec 0.3)%js; 0%js]
         /\ (forall j, j < 4 ->
               skinIndices !! (i * 4 + j) = Some debugBoneWeights ->
               (forall j', j' < j -> skinIndices !! (i * 4 + j') <> Some debugBoneWeights) ->
               weight = default NaN (skinWeights !! (i * 4 + j)))
         /\ ((forall j, j < 4 -> skinIndices !! (i * 4 + j) <> Some debugBoneWeights) ->
               weight = 0%js /\ represents (weight * dec 0.3)%js 0).
Proof.
  cbv zeta. unfold addBoneWeightVisualization. split.
  - rewrite flat_map_length3 by reflexivity. by rewrite length_seq.
  - intros i Hi.
    exists (slotWeight debugBoneWeights skinIndices skinWeights i (seq 0 4)).
    split; [|split].
    + rewrite (flat_map_triple _ _ i i); [reflexivity | | reflexivity].
      by apply lookup_seq_lt.
    + intros j Hj Hbound Hfirst.
      replace (seq 0 4) with (seq 0 j ++ j :: seq (S j) (3 - j))
        by (destruct j as [|[|[|[|j]]]]; try lia; reflexivity).
      rewrite slotWeight_first.
      * by rewrite bool_decide_eq_true_2.
      * intros j' Hj'. apply elem_of_seq in Hj'. apply Hfirst. lia.
    + intros Hnone.
      rewrite slotWeight_none.
      * split; [reflexivity|]. unfold dec, int.
        destruct (mul_small false (inject_Z 0) false (rnd 0.3)) as [b ->].
        { change (inject_Z 0) with 0%Q. lra. }
        simpl. rewrite <- rnd_0. apply rnd_proper. change (inject_Z 0) with 0%Q. ring.
      * intros j Hj. apply elem_of_seq in Hj. apply Hnone. lia.
Qed.

End VisualizationFacts.

(** ** Scene composition, further *)

Section SceneFurther.
Context {Geometry Material : Type}.

Lemma groupOf_not_mesh (p : Part Geometry Material) : isMesh (groupOf p) = false.
Proof. by destruct p. Qed.

Lemma meshOf_mesh (p : Part Geometry Material) :
  isMesh (meshOf p) = true /\ object_children (meshOf p) = []
  /\ object_name (meshOf p) = part_name p.
Proof. by destruct p. Qed.

Lemma traverse_groupOf (p : Part Geometry Material) :
  traverse (groupOf p) = flat_map (fun q => [groupOf q; meshOf q]) (parts p).
Proof.
  induction p as [name geometry material position children IH] using Part_induction.
  simpl. f_equal. f_equal.
  induction IH as [|c cs Hc _ IHcs]; simpl; [reflexivity|].
  rewrite flat_map_app. rewrite Hc. f_equal. exact IHcs.
Qed.

Lemma filter_meshes (l : list (Part Geometry Material)) :
  List.filter isMesh (flat_map (fun q => [groupOf q; meshOf q]) l) = meshOf <$> l.
Proof.
  induction l as [|q l IH]; [reflexivity|]. simpl.
  rewrite groupOf_not_mesh. destruct (meshOf_mesh q) as [-> _]. by rewrite IH.
Qed.

(** X14. [Part.build] pushes one skinned mesh for each part of the tree on
    the [meshes] array, the part itself first and then its children's
    subtrees in order, after what the array held, which it keeps.  The
    meshes pushed are childless, carry the names of their parts and are
    exactly the meshes of the group returned, in traversal order; the
    group has two objects for each part. *)
Theorem Part_build_meshes (p : Part Geometry Material)
    (meshes : list (Object3D Geometry Material)) :
  let built := Part_build p meshes in
  built.2 = meshes ++ (meshOf <$> parts p)
  /\ length built.2 = length meshes + length (parts p)
  /\ (forall k m, meshes !! k = Some m -> built.2 !! k = Some m)
  /\ (forall k q, parts p !! k = Some q ->
        exists m, built.2 !! (length meshes + k) = Some m
                  /\ isMesh m = true /\ object_children m = []
                  /\ object_name m = part_name q)
  /\ List.filter isMesh (traverse built.1) = drop (length meshes) built.2
  /\ length (traverse built.1) = 2 * length (parts p).
Proof.
  cbv zeta. rewrite Part_build_spec. cbn [fst snd].
  split; [reflexivity|]. split; [by rewrite length_app, length_fmap|].
  split; [intros k m Hk; by apply lookup_app_l_Some|].
  split; [|split].
  - intros k q Hq. exists (meshOf q). split; [|apply meshOf_mesh].
    rewrite lookup_app_r by lia.
    replace (length meshes + k - length meshes) with k by lia.
    by rewrite list_lookup_fmap, Hq.
  - rewrite drop_app_length, traverse_groupOf. apply filter_meshes.
  - rewrite traverse_groupOf. induction (parts p) as [|q l IH]; simpl in *; lia.
Qed.

(** X15. Building a part after [add] has given it one more child is
    building the part as it was, then building the child on the [meshes]
    array as that build left it, and adding the child's group to the
    part's group as its last child.  [add] keeps the part's own name and
    puts the meshes of the child's parts after those of the parts already
    in the tree. *)
Theorem Part_add_build (p child : Part Geometry Material)
    (meshes : list (Object3D Geometry Material)) :
  let built := Part_build p meshes in
  let builtChild := Part_build child built.2 in
  Part_build (Part_add p child) meshes
  = (Object3D_add built.1 builtChild.1, builtChild.2)
  /\ meshOf <$> parts (Part_add p child) = (meshOf <$> parts p) ++ (meshOf <$> parts child)
  /\ part_name (Part_add p child) = part_name p
  /\ part_children (Part_add p child) = part_children p ++ [child].
Proof.
  cbv zeta. rewrite !Part_build_spec. cbn [fst snd].
  destruct p as [name geometry material position children]. simpl.
  rewrite map_app, flat_map_app. simpl. rewrite !app_nil_r.
  repeat split.
  - f_equal. rewrite fmap_app, <- app_assoc. reflexivity.
  - by rewrite fmap_app.
Qed.

End SceneFurther.

(** ** The counters of the exporter plugin *)

(** A counter stepped at each element and a map that records it under the
    element's key when the element passes a test. *)
Lemma record_last {A} (test : A -> bool) (key : A -> string) (l : list A)
    (m : gmap string nat) (c : nat) :
  let r := foldl (fun acc x => (if test x then <[key x := acc.2]> acc.1 else acc.1,
                                S acc.2)) (m, c) l in
  r.2 = c + length l
  /\ forall s i, r.1 !! s = Some i <->
       (exists k x, i = c + k /\ l !! k = Some x /\ test x = true /\ key x = s
          /\ forall k' x', k < k' -> l !! k' = Some x' -> ~ (test x' = true /\ key x' = s))
       \/ (m !! s = Some i /\ forall x, x ∈ l -> ~ (test x = true /\ key x = s)).
Proof.
  induction l as [|y l IH] using rev_ind; cbv zeta.
  - simpl. split; [lia|]. intros s i. split.
    + intros H. right. split; [done|]. intros x Hx. by apply elem_of_nil in Hx.
    + intros [(k & x & _ & Hk & _) | [H _]]; [by rewrite lookup_nil in Hk | done].
  - rewrite foldl_app. simpl. cbv zeta in IH. destruct IH as [Hc Hm].
    set (r := foldl _ (m, c) l) in *.
    split; [rewrite length_app; simpl; lia|].
    intros s i.
    destruct (test y) eqn:Ht; [destruct (decide (key y = s)) as [Hk | Hk]|].
    + subst s. rewrite lookup_insert_eq, Hc. split.
      * intros [= <-]. left. exists (length l), y.
        split; [done|]. split; [by rewrite lookup_app_r, Nat.sub_diag by lia|].
        split; [done|]. split; [done|].
        intros k' x' Hk' Hx'. apply lookup_lt_Some in Hx'.
        rewrite length_app in Hx'. simpl in Hx'. lia.
      * intros [(k & x & -> & Hx & Htx & Hkx & Hlast) | [_ Habs]].
        -- destruct (decide (k = length l)) as [-> | Hne]; [done|].
           exfalso. pose proof (lookup_lt_Some _ _ _ Hx) as Hlt.
           rewrite length_app in Hlt. simpl in Hlt.
           apply (Hlast (length l) y); [lia | | done].
           by rewrite lookup_app_r, Nat.sub_diag by lia.
        -- exfalso. apply (Habs y); [set_solver | done].
    + rewrite lookup_insert_ne by done. rewrite Hm. split.
      * intros [(k & x & -> & Hx & Htx & Hkx & Hlast) | [Hs Hnone]].
        -- left. exists k, x. split; [done|]. split; [by apply lookup_app_l_Some|].
           split; [done|]. split; [done|].
           intros k' x' Hk' Hx'. apply lookup_app_Some in Hx' as [Hx' | [_ Hx']].
           ++ by apply (Hlast k' x').
           ++ apply list_lookup_singleton_Some in Hx' as [_ <-]. intros [_ ?]. done.
        -- right. split; [done|]. intros x Hx.
           apply elem_of_app in Hx as [Hx | Hx]; [by apply Hnone|].
           apply list_elem_of_singleton in Hx as ->. intros [_ ?]. done.
      * intros [(k & x & -> & Hx & Htx & Hkx & Hlast) | [Hs Hnone]].
        -- left. exists k, x. split; [done|].
           apply lookup_app_Some in Hx as [Hx | [_ Hx]].
           ++ split; [done|]. split; [done|]. split; [done|].
              intros k' x' Hk' Hx'. apply (Hlast k' x' Hk'). by apply lookup_app_l_Some.
           ++ apply list_lookup_singleton_Some in Hx as [_ <-]. done.
        -- right. split; [done|]. intros x Hx. apply Hnone. set_solver.
    + rewrite Hm. split.
      * intros [(k & x & -> & Hx & Htx & Hkx & Hlast) | [Hs Hnone]].
        -- left. exists k, x. split; [done|]. split; [by apply lookup_app_l_Some|].
           split; [done|]. split; [done|].
           intros k' x' Hk' Hx'. apply lookup_app_Some in Hx' as [Hx' | [_ Hx']].
           ++ by apply (Hlast k' x').
           ++ apply list_lookup_singleton_Some in Hx' as [_ <-]. intros [? _]. congruence.
        -- right. split; [done|]. intros x Hx.
           apply elem_of_app in Hx as [Hx | Hx]; [by apply Hnone|].
           apply list_elem_of_singleton in Hx as ->. intros [? _]. congruence.
      * intros [(k & x & -> & Hx & Htx & Hkx & Hlast) | [Hs Hnone]].
        -- left. exists k, x. split; [done|].
           apply lookup_app_Some in Hx as [Hx | [_ Hx]].
           ++ split; [done|]. split; [done|]. split; [done|].
              intros k' x' Hk' Hx'. apply (Hlast k' x' Hk'). by apply lookup_app_l_Some.
           ++ apply list_lookup_singleton_Some in Hx as [_ <-]. congruence.
        -- right. split; [done|]. intros x Hx. apply Hnone. set_solver.
Qed.

Lemma writeNodes_fold {Geometry Material : Type}
    (objs : list (Object3D Geometry Material)) (st : PluginState) :
  let r := foldl (fun acc x => (if isMesh x then <[object_name x := acc.2]> acc.1
                                else acc.1, S acc.2))
                 (meshToNodeIndex st, nodeCount st) objs in
  meshToNodeIndex (writeNodes objs st) = r.1
  /\ nodeCount (writeNodes objs st) = r.2
  /\ materialCount (writeNodes objs st) = materialCount st
  /\ materialToIndex (writeNodes objs st) = materialToIndex st.
Proof.
  unfold writeNodes. revert st. induction objs as [|o objs IH]; intros st; [done|].
  simpl. destruct (IH (writeNode o st)) as (H1 & H2 & H3 & H4).
  cbv zeta in *. rewrite H1, H2, H3, H4. done.
Qed.

Lemma writeMaterials_fold (names : list string) (st : PluginState) :
  let r := foldl (fun acc x => (if (fun _ : string => true) x
                                then <[(fun s : string => s) x := acc.2]> acc.1
                                else acc.1, S acc.2))
                 (materialToIndex st, materialCount st) names in
  materialToIndex (writeMaterials names st) = r.1
  /\ materialCount (writeMaterials names st) = r.2
  /\ nodeCount (writeMaterials names st) = nodeCount st
  /\ meshToNodeIndex (writeMaterials names st) = meshToNodeIndex st.
Proof.
  unfold writeMaterials. revert st. induction names as [|o names IH]; intros st; [done|].
  simpl. destruct (IH (writeMaterialAsync o st)) as (H1 & H2 & H3 & H4).
  cbv zeta in *. rewrite H1, H2, H3, H4. done.
Qed.

(** X16. After [writeNode] has been called on a sequence of objects, the
    node counter has advanced by their number; the mesh map sends a name
    to the counter value at the last mesh of that name in the sequence, or
    to what it held before when no mesh of the sequence has the name;
    objects that are not meshes only advance the counter, and the material
    counter and map are untouched. *)
Theorem writeNodes_last_mesh {Geometry Material : Type}
    (objs : list (Object3D Geometry Material)) (st : PluginState) :
  let st' := writeNodes objs st in
  nodeCount st' = nodeCount st + length objs
  /\ materialCount st' = materialCount st
  /\ materialToIndex st' = materialToIndex st
  /\ (forall s i, meshToNodeIndex st' !! s = Some i <->
        (exists k o, i = nodeCount st + k /\ objs !! k = Some o
           /\ isMesh o = true /\ object_name o = s
           /\ forall k' o', k < k' -> objs !! k' = Some o' ->
                ~ (isMesh o' = true /\ object_name o' = s))
        \/ (meshToNodeIndex st !! s = Some i
            /\ forall o, o ∈ objs -> ~ (isMesh o = true /\ object_name o = s)))
  /\ ((forall o, o ∈ objs -> isMesh o = false) ->
        meshToNodeIndex st' = meshToNodeIndex st).
Proof.
  cbv zeta. destruct (writeNodes_fold objs st) as (H1 & H2 & H3 & H4).
  destruct (record_last isMesh object_name objs (meshToNodeIndex st) (nodeCount st))
    as [Hc Hm].
  cbv zeta in *. rewrite H1, H2.
  split; [exact Hc|]. split; [exact H3|]. split; [exact H4|]. split; [exact Hm|].
  intros Hnone. apply map_eq. intros s. apply option_eq. intros i. rewrite Hm. split.
  - intros [(k & o & _ & Ho & Hmesh & _) | [H _]]; [|done].
    rewrite Hnone in Hmesh; [done|]. by eapply list_elem_of_lookup_2.
  - intros H. right. split; [done|]. intros o Ho [Hmesh _].
    rewrite Hnone in Hmesh; done.
Qed.

(** X17. After [writeMaterialAsync] has been called on a sequence of
    materials, the material counter has advanced by their number and the
    material map sends a name to the counter value at the last material of
    that name, or to what it held before when none has the name; when the
    names of the sequence are distinct and the plugin is fresh, the map
    sends each name to its position in the sequence and back.  The node
    counter and the mesh map are untouched. *)
Theorem writeMaterials_last_index (names : list string) (st : PluginState) :
  let st' := writeMaterials names st in
  materialCount st' = materialCount st + length names
  /\ nodeCount st' = nodeCount st
  /\ meshToNodeIndex st' = meshToNodeIndex st
  /\ (forall s i, materialToIndex st' !! s = Some i <->
        (exists k, i = materialCount st + k /\ names !! k = Some s
           /\ forall k', k < k' -> names !! k' <> Some s)
        \/ (materialToIndex st !! s = Some i /\ s ∉ names))
  /\ (NoDup names -> st = initialPluginState ->
        forall s k, materialToIndex st' !! s = Some k <-> names !! k = Some s).
Proof.
  cbv zeta. destruct (writeMaterials_fold names st) as (H1 & H2 & H3 & H4).
  destruct (record_last (fun _ => true) (fun s => s) names
              (materialToIndex st) (materialCount st)) as [Hc Hm].
  cbv zeta in *. rewrite H1, H2.
  assert (forall s i, (foldl (fun acc x => (if (fun _ : string => true) x
                                then <[(fun s : string => s) x := acc.2]> acc.1
                                else acc.1, S acc.2))
                 (materialToIndex st, materialCount st) names).1 !! s = Some i <->
        (exists k, i = materialCount st + k /\ names !! k = Some s
           /\ forall k', k < k' -> names !! k' <> Some s)
        \/ (materialToIndex st !! s = Some i /\ s ∉ names)) as Hm'.
  { intros s i. rewrite Hm. split.
    - intros [(k & x & -> & Hx & _ & -> & Hlast) | [Hs Hnone]].
      + left. exists k. split; [done|]. split; [done|].
        intros k' Hk' Hx'. by apply (Hlast k' s Hk' Hx').
      + right. split; [done|]. intros Hin. by apply (Hnone s Hin).
    - intros [(k & -> & Hx & Hlast) | [Hs Hnone]].
      + left. exists k, s. split; [done|]. split; [done|]. split; [done|]. split; [done|].
        intros k' x' Hk' Hx' [_ ->]. by apply (Hlast k' Hk').
      + right. split; [done|]. intros x Hx [_ ->]. done. }
  split; [exact Hc|]. split; [exact H3|]. split; [exact H4|]. split; [exact Hm'|].
  intros Hnd -> s k. rewrite Hm'. simpl. rewrite lookup_empty. split.
  - intros [(k0 & -> & Hk & _) | [? _]]; done.
  - intros Hk. left. exists k. split; [done|]. split; [done|].
    intros k' Hk' Hx'. pose proof (NoDup_lookup _ _ _ _ Hnd Hk Hx'). lia.
Qed.

(** ** The hook, further *)

Section AfterParseFurther.
Context {R : Rounding}.

Lemma presetExpressions_reads st st' :
  materialToIndex st !! head_mouthMaterial_name
    = materialToIndex st' !! head_mouthMaterial_name ->
  materialToIndex st !! head_leftEyeMaterial_name
    = materialToIndex st' !! head_leftEyeMaterial_name ->
  materialToIndex st !! head_rightEyeMaterial_name
    = materialToIndex st' !! head_rightEyeMaterial_name ->
  presetExpressions st = presetExpressions st'.
Proof.
  intros Hm Hl Hr. unfold presetExpressions, textureBind. by rewrite Hm, Hl, Hr.
Qed.

(** X18. The hook throws a [TypeError] exactly when the document has no
    [nodes] array, and otherwise ends normally.  When it does, the nodes
    are what they were; every entry of the document's [extensions] other
    than [VRMC_vrm] is kept, and so is every key of the exporter's own
    [extensionsUsed] other than [VRMC_vrm]; the [VRMC_vrm] entry is
    written whatever was there before; the identifiers already in the
    document's [extensionsUsed] list stay in front of the one appended.
    Of the plugin's state the hook reads only the material indices of the
    head's mouth and eye materials: neither counter nor the mesh map
    changes its result. *)
Theorem afterParse_frame (st : PluginState) (parser : Parser) :
  (afterParse st parser = Throw TypeError <-> nodes (json parser) = None)
  /\ (forall nds, nodes (json parser) = Some nds ->
        exists parser' warnings vrm,
          afterParse st parser = Normal (parser', warnings)
          /\ nodes (json parser') = Some nds
          /\ (exists exts, extensions (json parser') = Some exts
                /\ exts !! "VRMC_vrm" = Some (VrmExtension vrm)
                /\ forall k, k <> "VRMC_vrm" ->
                     exts !! k = default ∅ (extensions (json parser)) !! k)
          /\ (forall k, k <> "VRMC_vrm" ->
                parser_extensionsUsed parser' !! k = parser_extensionsUsed parser !! k)
          /\ parser_extensionsUsed parser' !! "VRMC_vrm" = Some true
          /\ (exists used, extensionsUsed (json parser') = Some used
                /\ default [] (extensionsUsed (json parser)) `prefix_of` used
                /\ length used = S (length (default [] (extensionsUsed (json parser))))))
  /\ (forall st',
        materialToIndex st' !! head_mouthMaterial_name
          = materialToIndex st !! head_mouthMaterial_name ->
        materialToIndex st' !! head_leftEyeMaterial_name
          = materialToIndex st !! head_leftEyeMaterial_name ->
        materialToIndex st' !! head_rightEyeMaterial_name
          = materialToIndex st !! head_rightEyeMaterial_name ->
        afterParse st' parser = afterParse st parser).
Proof.
  split; [|split].
  - destruct (nodes (json parser)) as [nds|] eqn:Hn.
    + rewrite (afterParse_Normal st parser nds Hn). split; discriminate.
    + unfold afterParse. rewrite Hn. done.
  - intros nds Hn. rewrite (afterParse_Normal st parser nds Hn).
    eexists _, _, _. split; [reflexivity|]. cbn [json nodes extensions extensionsUsed
                                                 parser_extensionsUsed].
    split; [reflexivity|]. split; [|split; [|split; [|]]].
    + eexists. split; [reflexivity|]. split; [apply lookup_insert_eq|].
      intros k Hk. by apply lookup_insert_ne.
    + intros k Hk. by apply lookup_insert_ne.
    + apply lookup_insert_eq.
    + eexists. split; [reflexivity|]. split; [by eexists|].
      rewrite length_app. simpl. lia.
  - intros st' Hm Hl Hr. unfold afterParse.
    by rewrite (presetExpressions_reads st' st Hm Hl Hr).
Qed.

(** X19. Running the hook a second time on the document it has produced
    ends normally, logs the same warnings and leaves the same nodes, the
    same [extensions], with the same [VRMC_vrm] entry, and the same keys of
    the exporter's [extensionsUsed]: only the document's [extensionsUsed]
    list differs, by the identifier appended once more. *)
Theorem afterParse_again (st : PluginState) (parser : Parser) (nds : list NodeDef) :
  nodes (json parser) = Some nds ->
  exists once twice warnings,
    afterParse st parser = Normal (once, warnings)
    /\ afterParse st once = Normal (twice, warnings)
    /\ nodes (json twice) = nodes (json once)
    /\ extensions (json twice) = extensions (json once)
    /\ vrmOf (json twice) = vrmOf (json once)
    /\ parser_extensionsUsed twice = parser_extensionsUsed once
    /\ extensionsUsed (json twice)
       = Some (default [] (extensionsUsed (json once)) ++ ["VRMC_vrm"]).
Proof.
  intros Hn. rewrite (afterParse_Normal st parser nds Hn).
  eexists _, _, _. split; [reflexivity|].
  rewrite (afterParse_Normal st _ nds) by reflexivity.
  split; [reflexivity|].
  cbn [json nodes extensions extensionsUsed parser_extensionsUsed default].
  unfold id. split; [reflexivity|].
  assert (forall (A : Type) (m : gmap string A) k (a : A),
            <[k := a]> (<[k := a]> m) = <[k := a]> m) as Hii
    by (intros; apply insert_insert_eq).
  split; [by rewrite Hii|]. split; [unfold vrmOf; simpl; by rewrite Hii|].
  split; [apply Hii | reflexivity].
Qed.

(** X20. In the [humanBones] map the hook writes, every entry's [node] is
    the index of a node of the document carrying the bone's name, so it is
    below the number of nodes, and two different bones never get the same
    node.  The warnings are logged in the order of the list of bone names,
    one for each name that no node carries. *)
Theorem humanBones_nodes_distinct (st : PluginState) (parser : Parser)
    (nds : list NodeDef) :
  nodes (json parser) = Some nds ->
  exists parser' warnings vrm,
    afterParse st parser = Normal (parser', warnings)
    /\ vrmOf (json parser') = Some vrm
    /\ (forall b hb, humanBones vrm !! b = Some hb ->
          b ∈ boneNames /\ node hb < length nds /\ named nds (node hb) b)
    /\ (forall b b' hb hb', humanBones vrm !! b = Some hb ->
          humanBones vrm !! b' = Some hb' -> node hb = node hb' -> b = b')
    /\ warnings
       = boneWarning <$> List.filter (fun b => bool_decide (nodeNameToIndex nds !! b = None))
                           boneNames
    /\ (forall b, b ∈ boneNames ->
          (nodeNameToIndex nds !! b = None <-> forall i, ~ named nds i b)).
Proof.
  intros Hn. rewrite (afterParse_Normal st parser nds Hn).
  eexists _, _, _. split; [reflexivity|].
  split; [unfold vrmOf; simpl; rewrite lookup_insert_eq; reflexivity|].
  cbn [humanBones snd fst]. unfold collectHumanBones.
  destruct (collect_fold (nodeNameToIndex nds) boneNames) as [Hm Hw]. cbv zeta in Hm, Hw.
  set (r := foldl (humanBones_step (nodeNameToIndex nds)) (∅, []) boneNames) in *.
  assert (forall b hb, r.1 !! b = Some hb ->
            b ∈ boneNames /\ node hb < length nds /\ named nds (node hb) b) as Hentry.
  { intros b hb Hb. apply Hm in Hb as [Hin Hb]. split; [done|].
    apply nodeNameToIndex_spec in Hb as (_ & Hnamed & _). split; [|done].
    unfold named in Hnamed. destruct (nds !! node hb) eqn:E; [|done].
    by apply lookup_lt_Some in E. }
  split; [exact Hentry|]. split; [|split; [exact Hw|]].
  - intros b b' hb hb' Hb Hb' Heq.
    apply Hentry in Hb as (_ & _ & Hb). apply Hentry in Hb' as (_ & _ & Hb').
    unfold named in Hb, Hb'. rewrite Heq in Hb. rewrite Hb in Hb'. congruence.
  - intros b Hb. split.
    + intros Hnone i Hi. destruct (named_last nds b i Hi) as [k Hk].
      assert (nodeNameToIndex nds !! b = Some k) as Hsome
        by (apply nodeNameToIndex_spec; split; [by apply boneNames_nonempty | done]).
      congruence.
    + intros Hnone. destruct (nodeNameToIndex nds !! b) as [i|] eqn:E; [|done].
      apply nodeNameToIndex_spec in E as (_ & Hi & _). by apply Hnone in Hi.
Qed.

End AfterParseFurther.

(** ** The capsule geometry *)

Section CapsuleFacts.
Context {R : Rounding}.
Local Open Scope Q_scope.

Lemma rnd_within q B : - B <= q <= B -> q - rnd_u * B <= rnd q <= q + rnd_u * B.
Proof.
  intros [Hl Hh]. destruct (rnd_error_bounds q) as [Hp Hn].
  destruct rnd_u_small as [Hu0 Hu1].
  destruct (Qlt_le_dec q 0) as [Hq | Hq].
  - assert (q <= 0) as Hq' by lra. specialize (Hn Hq'). split; nra.
  - specialize (Hp Hq). split; nra.
Qed.

Lemma near_Fin s q : near (Fin s q) q 0.
Proof. exists s, q. split; [reflexivity | lra]. Qed.

Lemma add_near a b qa qb ea eb B :
  near a qa ea -> near b qb eb ->
  - B <= qa + qb - (ea + eb) -> qa + qb + (ea + eb) <= B -> B <= 1000 ->
  near (a + b)%js (qa + qb) (ea + eb + rnd_u * B).
Proof.
  intros (sa & pa & -> & Ha) (sb & pb & -> & Hb) Hl Hh HB.
  unfold add. rewrite result_small by lra.
  eexists _, _. split; [reflexivity|].
  pose proof (rnd_within (pa + pb) B). lra.
Qed.

Lemma neg_near a q e : near a q e -> near (- a)%js (- q) e.
Proof.
  intros (s & p & -> & H). eexists _, _. split; [reflexivity|]. lra.
Qed.

Lemma sub_near a b qa qb ea eb B :
  near a qa ea -> near b qb eb ->
  - B <= qa - qb - (ea + eb) -> qa - qb + (ea + eb) <= B -> B <= 1000 ->
  near (a - b)%js (qa - qb) (ea + eb + rnd_u * B).
Proof.
  intros Ha Hb Hl Hh HB. unfold sub.
  destruct (add_near a (- b)%js qa (- qb) ea eb B Ha (neg_near _ _ _ Hb))
    as (s & p & E & H); [lra | lra | exact HB |].
  exists s, p. split; [exact E | lra].
Qed.

Lemma half_near a q e B :
  near a q e -> - B <= q - e -> q + e <= B -> B <= 1000 ->
  near (a / 2)%js ((1 # 2) * q) ((1 # 2) * e + rnd_u * B).
Proof.
  intros (s & p & -> & H) Hl Hh HB.
  unfold div, int. change (Qeq_bool (inject_Z 2) 0) with false. cbv iota.
  change (inject_Z 2) with 2.
  assert (p / 2 == (1 # 2) * p) as Hp by (field; discriminate).
  rewrite result_small by lra.
  eexists _, _. split; [reflexivity|].
  pose proof (rnd_within (p / 2) B). lra.
Qed.

(** X21. [createSphereCylinder] hands [mergeGeometries] the cylinder, with
    the top sphere before it and the bottom sphere after it when they are
    asked for, and nothing else.  For radii and a height of size at most
    10, under any rounding and up to 200 rounding units: the cylinder has
    the height that is left once the caps are taken off, and the
    translations move its centre to the middle of the interval from
    [bottomHeight] to [height - topHeight], the centre of the top sphere to
    [height - radiusTop] and the centre of the bottom sphere to
    [radiusBottom]: with spheres centred at the origin the shape stands on
    0 and ends at [height]. *)
Theorem createSphereCylinder_layout (radiusTop radiusBottom height : number)
    (sphereTop sphereBottom : bool) (rt rb h : Q) :
  valueOf radiusTop = Some rt -> valueOf radiusBottom = Some rb ->
  valueOf height = Some h ->
  -10 <= rt <= 10 -> -10 <= rb <= 10 -> -10 <= h <= 10 ->
  exists topSphere cylinder bottomSphere cylinderHeight,
    createSphereCylinder radiusTop radiusBottom height sphereTop sphereBottom
    = (if sphereTop then [topSphere] else []) ++ [cylinder]
      ++ (if sphereBottom then [bottomSphere] else [])
    /\ (let topHeight := if sphereTop then rt else 0 in
        let bottomHeight := if sphereBottom then rb else 0 in
        shape cylinder = CylinderGeometry radiusTop radiusBottom cylinderHeight 16 16
        /\ (exists c, represents cylinderHeight c
              /\ Qabs (c - (h - topHeight - bottomHeight)) <= 200 * rnd_u)
        /\ (exists y, represents (translatedY cylinder 0%js) y
              /\ Qabs (y - (bottomHeight + (h - topHeight - bottomHeight) / 2))
                 <= 200 * rnd_u))
    /\ (sphereTop = true ->
          shape topSphere = SphereGeometry radiusTop 16 16
          /\ exists y, represents (translatedY topSphere 0%js) y
               /\ Qabs (y - (h - rt)) <= 200 * rnd_u)
    /\ (sphereBottom = true ->
          shape bottomSphere = SphereGeometry radiusBottom 16 16
          /\ exists y, represents (translatedY bottomSphere 0%js) y
               /\ Qabs (y - rb) <= 200 * rnd_u).
Proof.
  destruct radiusTop as [| |st rt'], radiusBottom as [| |sb rb'], height as [| |sh h'];
    try discriminate.
  intros [= ->] [= ->] [= ->] Hrt Hrb Hh.
  destruct rnd_u_small as [Hu0 Hu1].
  set (topHeight := if sphereTop then Fin st rt else 0%js).
  set (bottomHeight := if sphereBottom then Fin sb rb else 0%js).
  set (tq := if sphereTop then rt else 0).
  set (bq := if sphereBottom then rb else 0).
  assert (-10 <= tq <= 10) as Htq by (unfold tq; destruct sphereTop; lra).
  assert (-10 <= bq <= 10) as Hbq by (unfold bq; destruct sphereBottom; lra).
  assert (near topHeight tq 0) as Ntop
    by (unfold topHeight, tq; destruct sphereTop; apply near_Fin).
  assert (near bottomHeight bq 0) as Nbot
    by (unfold bottomHeight, bq; destruct sphereBottom; apply near_Fin).
  set (cylinderHeight := (Fin sh h - topHeight - bottomHeight)%js).
  set (half := (cylinderHeight / 2)%js).
  set (shift := (half + bottomHeight)%js).
  assert (near 0%js 0 0) as Nzero by apply near_Fin.
  pose proof (sub_near _ _ _ _ _ _ 20 (near_Fin sh h) Ntop
                ltac:(lra) ltac:(lra) ltac:(lra)) as N1.
  pose proof (sub_near _ _ _ _ _ _ 31 N1 Nbot
                ltac:(lra) ltac:(lra) ltac:(lra)) as Nc.
  fold cylinderHeight in Nc.
  pose proof (half_near _ _ _ 32 Nc ltac:(lra) ltac:(lra) ltac:(lra)) as Nhalf.
  fold half in Nhalf.
  pose proof (add_near _ _ _ _ _ _ 26 Nhalf Nbot
                ltac:(lra) ltac:(lra) ltac:(lra)) as Nshift.
  fold shift in Nshift.
  pose proof (add_near _ _ _ _ _ _ 26 Nzero Nshift
                ltac:(lra) ltac:(lra) ltac:(lra)) as Ncyl.
  pose proof (add_near _ _ _ _ _ _ 16 Nzero Nhalf
                ltac:(lra) ltac:(lra) ltac:(lra)) as Ntop1.
  pose proof (add_near _ _ _ _ _ _ 41 Ntop1 Nshift
                ltac:(lra) ltac:(lra) ltac:(lra)) as Ntop2.
  pose proof (half_near _ _ _ 32 (neg_near _ _ _ Nc)
                ltac:(lra) ltac:(lra) ltac:(lra)) as Nnhalf.
  pose proof (add_near _ _ _ _ _ _ 16 Nzero Nnhalf
                ltac:(lra) ltac:(lra) ltac:(lra)) as Nbot1.
  pose proof (add_near _ _ _ _ _ _ 11 Nbot1 Nshift
                ltac:(lra) ltac:(lra) ltac:(lra)) as Nbot2.
  exists
    {| shape := SphereGeometry (Fin st rt) 16 16;
       translations := [half; shift] |},
    {| shape := CylinderGeometry (Fin st rt) (Fin sb rb) cylinderHeight 16 16;
       translations := [shift] |},
    {| shape := SphereGeometry (Fin sb rb) 16 16;
       translations := [(- cylinderHeight / 2)%js; shift] |},
    cylinderHeight.
  split; [destruct sphereTop, sphereBottom; reflexivity|].
  fold tq bq. cbv zeta.
  split; [split; [reflexivity|split]|split].
  - destruct Nc as (s & c & -> & Hc). exists c. split; [reflexivity|].
    apply Qabs_Qle_condition. lra.
  - unfold translatedY. cbn [translations foldl].
    destruct Ncyl as (s & y & -> & Hy). exists y. split; [reflexivity|].
    assert ((h - tq - bq) / 2 == (1 # 2) * (h - tq - bq)) as Hhalf
      by (field; discriminate).
    apply Qabs_Qle_condition. lra.
  - intros E. split; [reflexivity|].
    unfold translatedY. cbn [translations foldl].
    destruct Ntop2 as (s & y & -> & Hy). exists y. split; [reflexivity|].
    apply Qabs_Qle_condition. unfold tq in Hy. rewrite E in Hy. lra.
  - intros E. split; [reflexivity|].
    unfold translatedY. cbn [translations foldl].
    destruct Nbot2 as (s & y & -> & Hy). exists y. split; [reflexivity|].
    apply Qabs_Qle_condition. unfold bq in Hy. rewrite E in Hy. lra.
Qed.

End CapsuleFacts.


(** ** Parts as shared objects *)

Lemma mapM_agree {A B} (f g : A -> option B) (l : list A) :
  (forall x, x ∈ l -> f x = g x) -> mapM f l = mapM g l.
Proof.
  induction l as [|a l IH]; intros H; [reflexivity|].
  simpl. rewrite (H a) by left. rewrite IH; [reflexivity|].
  intros x Hx. apply H. by right.
Qed.

Lemma mapM_snoc {A B} (f : A -> option B) (l : list A) (a : A) ks k :
  mapM f l = Some ks -> f a = Some k -> mapM f (l ++ [a]) = Some (ks ++ [k]).
Proof.
  intros Hl Ha. apply mapM_Some. apply Forall2_app; [by apply mapM_Some|].
  by constructor.
Qed.

(** An [add] on an object that is not met from [r] leaves the tree under
    [r] as it was. *)
Lemma Store_part_fixed fuel (s : list PartCell) parent child r :
  parent ∉ Store_reach fuel s r ->
  Store_part fuel (Store_add parent child s) r = Store_part fuel s r.
Proof.
  revert r. induction fuel as [|fuel IH]; intros r Hr; [reflexivity|].
  cbn [Store_part Store_reach] in *. apply not_elem_of_cons in Hr as [Hne Hr].
  unfold Store_add at 1. rewrite list_lookup_alter_ne by done.
  destruct (s !! r) as [c|]; [|reflexivity].
  rewrite (mapM_agree (Store_part fuel (Store_add parent child s)) (Store_part fuel s));
    [reflexivity|].
  intros k Hk. apply IH. intros Hin. apply Hr.
  apply list_elem_of_In, in_flat_map. exists k. split; by apply list_elem_of_In.
Qed.

(** The tree under the parent after an [add]. *)
Lemma Store_part_added fuel (s : list PartCell) parent child c tp tc :
  s !! parent = Some c ->
  Store_part (S fuel) s parent = Some tp ->
  Store_part fuel s child = Some tc ->
  (forall k, k ∈ cell_children c ++ [child] -> parent ∉ Store_reach fuel s k) ->
  Store_part (S fuel) (Store_add parent child s) parent = Some (Part_add tp tc).
Proof.
  intros Hc Hp Htc Hacyclic. cbn [Store_part] in *. rewrite Hc in Hp.
  assert (Store_add parent child s !! parent
          = Some {| cell_name := cell_name c; cell_position := cell_position c;
                    cell_children := cell_children c ++ [child] |}) as ->
    by (unfold Store_add; rewrite list_lookup_alter, decide_True by done; rewrite Hc; reflexivity).
  cbn [cell_children cell_name cell_position].
  destruct (mapM (Store_part fuel s) (cell_children c)) as [ts|] eqn:Hts; [|discriminate].
  injection Hp as <-.
  rewrite (mapM_agree _ (Store_part fuel s))
    by (intros k Hk; apply Store_part_fixed, Hacyclic, Hk).
  by rewrite (mapM_snoc _ _ _ ts tc).
Qed.

(** X22. Parts are objects shared by reference.  Two [add] calls on
    different parents can be made in either order.  When no part met from
    the child or from the parent's children is the parent itself, the tree
    [build] walks from the parent after [parent.add(child)] is the tree it
    walked before with the child's tree as a new last child; and a holder
    of the parent sees the change: the tree walked from an object that has
    the parent among its children is the old one with that child's tree
    replaced, the trees of its other children being untouched when the
    parent is not met from them. *)
Theorem Store_add_shared (s : list PartCell) (parent child : nat) (fuel : nat)
    (c : PartCell) (tp tc : Part unit unit) :
  s !! parent = Some c ->
  Store_part (S fuel) s parent = Some tp ->
  Store_part fuel s child = Some tc ->
  (forall k, k ∈ cell_children c ++ [child] -> parent ∉ Store_reach fuel s k) ->
  Store_part (S fuel) (Store_add parent child s) parent = Some (Part_add tp tc)
  /\ (forall parent' child', parent' <> parent ->
        Store_add parent' child' (Store_add parent child s)
        = Store_add parent child (Store_add parent' child' s))
  /\ (forall holder ch ts,
        holder <> parent -> s !! holder = Some ch ->
        mapM (Store_part (S fuel) s) (cell_children ch) = Some ts ->
        (forall k, k ∈ cell_children ch -> k <> parent ->
           parent ∉ Store_reach (S fuel) s k) ->
        Store_part (S (S fuel)) (Store_add parent child s) holder
        = Some (mkPart (cell_name ch) tt tt (cell_position ch)
                  (zip_with (fun k t => if decide (k = parent) then Part_add t tc else t)
                     (cell_children ch) ts))).
Proof.
  intros Hc Hp Htc Hacyclic.
  pose proof (Store_part_added fuel s parent child c tp tc Hc Hp Htc Hacyclic) as Hadd.
  split; [exact Hadd|]. split.
  - intros parent' child' Hne. unfold Store_add. by apply list_alter_alter_ne.
  - intros holder ch ts Hne Hch Hts Hothers.
    change (Store_part (S (S fuel)) (Store_add parent child s) holder)
      with (match Store_add parent child s !! holder with
            | Some c0 =>
                match mapM (Store_part (S fuel) (Store_add parent child s))
                        (cell_children c0) with
                | Some children =>
                    Some (mkPart (cell_name c0) tt tt (cell_position c0) children)
                | None => None
                end
            | None => None
            end).
    unfold Store_add at 1. rewrite list_lookup_alter_ne by done. rewrite Hch.
    assert (mapM (Store_part (S fuel) (Store_add parent child s)) (cell_children ch)
            = Some (zip_with (fun k t => if decide (k = parent) then Part_add t tc else t)
                      (cell_children ch) ts)) as ->; [|reflexivity].
    apply mapM_Some. apply mapM_Some in Hts.
    clear Hch. induction Hts as [|k t ks ts' Hk _ IH]; [constructor|].
    simpl zip_with. constructor.
    + destruct (decide (k = parent)) as [-> | Hkp].
      * rewrite Hp in Hk. injection Hk as <-. exact Hadd.
      * rewrite Store_part_fixed; [exact Hk|]. apply Hothers; [left | done].
    + apply IH. intros k' Hk' Hne'. apply Hothers; [by right | done].
Qed.

(** X23. [add] does not look at what it is given: a part can be added to
    itself.  A part that is one of its own children has no tree: [build]
    called on it calls itself on the same part again, however deep the
    calls may go, and so does [build] on a part that holds it. *)
Theorem Store_add_self (s : list PartCell) (r : nat) (c : PartCell) :
  s !! r = Some c ->
  (exists c', Store_add r r s !! r = Some c' /\ r ∈ cell_children c')
  /\ (forall fuel, Store_part fuel (Store_add r r s) r = None)
  /\ (forall fuel holder ch, Store_add r r s !! holder = Some ch ->
        r ∈ cell_children ch ->
        Store_part fuel (Store_add r r s) holder = None).
Proof.
  intros Hc.
  assert (exists c', Store_add r r s !! r = Some c' /\ r ∈ cell_children c')
    as (c' & Hc' & Hin).
  { eexists. unfold Store_add. rewrite list_lookup_alter, decide_True by done. rewrite Hc. simpl.
    split; [reflexivity|]. simpl. set_solver. }
  assert (forall fuel holder ch, Store_add r r s !! holder = Some ch ->
            r ∈ cell_children ch ->
            Store_part fuel (Store_add r r s) r = None ->
            Store_part (S fuel) (Store_add r r s) holder = None) as Hstep.
  { intros fuel holder ch Hch Hr Hnone. cbn [Store_part]. rewrite Hch.
    destruct (mapM (Store_part fuel (Store_add r r s)) (cell_children ch))
      as [ts|] eqn:Hts; [|reflexivity].
    apply mapM_Some in Hts.
    apply list_elem_of_lookup in Hr as [i Hi].
    destruct (Forall2_lookup_l _ _ _ _ _ Hts Hi) as (t & _ & Ht). congruence. }
  assert (forall fuel, Store_part fuel (Store_add r r s) r = None) as Hself.
  { induction fuel as [|fuel IH]; [reflexivity|]. by apply (Hstep fuel r c'). }
  split; [by exists c'|]. split; [exact Hself|].
  intros [|fuel] holder ch Hch Hr; [reflexivity|]. by apply (Hstep fuel holder ch).
Qed.

(** ** The further statements at concrete inputs *)

(** X1 on the interval [[0,1]], three units below it. *)
Lemma smoothstep_saturates_witness : represents (smoothstep 0 1 (- int 3))%js 0.
Proof.
  destruct (smoothstep_saturates (R := exact) 0%js 1%js (- int 3)%js I I eq_refl I)
    as [H0 _].
  apply H0. left. reflexivity.
Defined.

(** X2 on the interval from 1 down to 0, at 3. *)
Lemma smoothstep_reversed_witness : represents (smoothstep 1 0 (int 3))%js 0.
Proof.
  destruct (smoothstep_reversed (R := exact) 1%js 0%js (int 3) I I I eq_refl I)
    as [H0 _].
  apply H0. left. reflexivity.
Defined.

(** X4 on the interval [[0,1]], at a quarter and three quarters. *)
Lemma smoothstep_monotone_within_rounding_witness :
  exists tx ty a b : Q,
    represents (smoothstep_t 0 1 (dec 0.25))%js tx
    /\ represents (smoothstep_t 0 1 (dec 0.75))%js ty
    /\ (tx <= ty)%Q
    /\ represents (smoothstep 0 1 (dec 0.25))%js a
    /\ represents (smoothstep 0 1 (dec 0.75))%js b
    /\ (a <= b + (1 # 25000))%Q.
Proof.
  destruct (smoothstep_monotone_within_rounding (R := exact) 0%js 1%js
              (dec (R := exact) 0.25) (dec (R := exact) 0.75)
              I I I I eq_refl I eq_refl)
    as (e0 & e1 & px & py & tx & ty & a & b & _ & _ & _ & _ & Hx & Hy & _ & Ht & _
        & _ & _ & Ha & Hb & _ & _ & Hab).
  exists tx, ty, a, b. repeat (split; [assumption|]). exact Hab.
Defined.

(** X5 for the left arm, at a vertex one unit to the right. *)
Lemma createArm_skin_blend_witness :
  vertexSlots (createArm_skin 1%js 1 2 [(- int 1, 0, 0)%js]).1 0 = [1; 2; 0; 0].
Proof.
  destruct (createArm_skin_blend (R := exact) 1%js 1 2 [(- int 1, 0, 0)%js] 0
              (- int 1, 0, 0)%js eq_refl I I) as [H _].
  exact H.
Defined.

(** X6 at a vertex at height 1. *)
Lemma createLeg_skin_blend_witness :
  vertexSlots (createLeg_skin 14 15 [(0, 1, 0)%js]).1 0 = [14; 15; 0; 0].
Proof.
  destruct (createLeg_skin_blend (R := exact) 14 15 [(0, 1, 0)%js] 0
              (0, 1, 0)%js eq_refl I) as [H _].
  exact H.
Defined.

(** X7 at a vertex at height 1, above the highest edge. *)
Lemma createBody_skin_blend_witness :
  exists boneA boneB,
    vertexSlots (createBody_skin 9 10 11 12 13 [(0, 1, 0)%js]).1 0
    = [boneA; boneB; 0; 0]
    /\ (boneA, boneB) = (12, 13).
Proof.
  destruct (createBody_skin_blend (R := exact) 9 10 11 12 13 [(0, 1, 0)%js] 0
              (0, 1, 0)%js eq_refl I)
    as (boneA & boneB & wa & wb & a & b & H1 & _ & _ & _ & _ & _ & _ & _ & _ & Hhigh & _).
  exists boneA, boneB. split; [exact H1|]. apply Hhigh. reflexivity.
Defined.

(** X12 in exact arithmetic, for the kind [aa] of the mouth. *)
Lemma atlas_tiles_and_offsets_witness :
  exists d y,
    canvas_draws createFaceTextureAtlasCanvas !! TextureKindToIndex aa = Some d
    /\ draw_kind d = aa
    /\ bind_offset (textureBind initialPluginState head_mouthMaterial_name aa) = (0%js, y)
    /\ represents y (inject_Z (Z.of_nat (draw_dy d))
                     / inject_Z (Z.of_nat (canvas_height createFaceTextureAtlasCanvas))).
Proof.
  destruct (atlas_tiles_and_offsets (R := exact) initialPluginState
              head_mouthMaterial_name aa TextureKinds
              (fun k _ => Qeq_refl (inject_Z k / 8)))
    as (_ & _ & _ & d & y & Hd & Hk & _ & Hoff & _ & Hy).
  exists d, y. split; [exact Hd|]. split; [exact Hk|]. split; [exact Hoff | exact Hy].
Defined.

(** X19 on the empty document. *)
Lemma afterParse_again_witness :
  exists once twice warnings,
    afterParse initialPluginState emptyDocument = Normal (once, warnings)
    /\ afterParse initialPluginState once = Normal (twice, warnings)
    /\ extensions (json twice) = extensions (json once).
Proof.
  destruct (afterParse_again (R := exact) initialPluginState emptyDocument [] eq_refl)
    as (once & twice & warnings & H1 & H2 & _ & H3 & _).
  exists once, twice, warnings. split; [exact H1|]. split; [exact H2 | exact H3].
Defined.

(** X20 on a document whose nodes are named after the twenty bones. *)
Lemma humanBones_nodes_distinct_witness :
  exists parser' warnings vrm,
    afterParse initialPluginState rigDocument = Normal (parser', warnings)
    /\ vrmOf (json parser') = Some vrm
    /\ forall b hb, humanBones vrm !! b = Some hb -> node hb < 20.
Proof.
  destruct (humanBones_nodes_distinct (R := exact) initialPluginState rigDocument
              ((fun s => {| node_name := Some s |}) <$> boneNames) eq_refl)
    as (parser' & warnings & vrm & H1 & H2 & H3 & _).
  exists parser', warnings, vrm. split; [exact H1|]. split; [exact H2|].
  intros b hb Hb. destruct (H3 b hb Hb) as (_ & Hlt & _). exact Hlt.
Defined.

(** X21 for a capsule of height 5 with two caps of radius 1. *)
Lemma createSphereCylinder_layout_witness :
  exists cylinder cylinderHeight c y,
    cylinder ∈ createSphereCylinder 1%js 1%js (int 5) true true
    /\ shape cylinder = CylinderGeometry 1%js 1%js cylinderHeight 16 16
    /\ represents cylinderHeight c /\ (Qabs (c - (5 - 1 - 1)) <= 200 * rnd_u)%Q
    /\ represents (translatedY cylinder 0%js) y
    /\ (Qabs (y - (1 + (5 - 1 - 1) / 2)) <= 200 * rnd_u)%Q.
Proof.
  destruct (createSphereCylinder_layout (R := exact) 1%js 1%js (int 5) true true
              1 1 5 eq_refl eq_refl eq_refl)
    as (topSphere & cylinder & bottomSphere & cylinderHeight
        & Hlist & (Hshape & (c & Hc & Ec) & (y & Hy & Ey)) & _).
  1-3: split; discriminate.
  exists cylinder, cylinderHeight, c, y.
  split; [rewrite Hlist; simpl; right; left|].
  split; [exact Hshape|]. split; [exact Hc|]. split; [exact Ec|].
  split; [exact Hy | exact Ey].
Defined.

(** X22 on a body that already holds an arm, when the arm is given a
    hand. *)
Lemma Store_add_shared_witness :
  let cell name children :=
    {| cell_name := name; cell_position := (0, 0, 0)%js; cell_children := children |} in
  let part name children := mkPart name tt tt (0, 0, 0)%js children in
  Store_part 3 (Store_add 1 2 [cell "body" [1]; cell "arm" []; cell "hand" []]) 0
  = Some (part "body" [part "arm" [part "hand" []]]).
Proof.
  cbv zeta.
  destruct (Store_add_shared
              [{| cell_name := "body"; cell_position := (0, 0, 0)%js;
                  cell_children := [1] |};
               {| cell_name := "arm"; cell_position := (0, 0, 0)%js;
                  cell_children := [] |};
               {| cell_name := "hand"; cell_position := (0, 0, 0)%js;
                  cell_children := [] |}]
              1 2 1
              {| cell_name := "arm"; cell_position := (0, 0, 0)%js;
                 cell_children := [] |}
              (mkPart "arm" tt tt (0, 0, 0)%js [])
              (mkPart "hand" tt tt (0, 0, 0)%js [])
              eq_refl eq_refl eq_refl) as (_ & _ & Hholder).
  - intros k Hk. apply list_elem_of_singleton in Hk as ->.
    simpl. intros Hin. apply list_elem_of_singleton in Hin. discriminate.
  - apply (Hholder 0
             {| cell_name := "body"; cell_position := (0, 0, 0)%js;
                cell_children := [1] |}
             [mkPart "arm" tt tt (0, 0, 0)%js []]).
    + discriminate.
    + reflexivity.
    + reflexivity.
    + intros k Hk Hne. apply list_elem_of_singleton in Hk. congruence.
Defined.

(** X23 on a single part added to itself. *)
Lemma Store_add_self_witness :
  Store_part 5
    (Store_add 0 0 [{| cell_name := "body"; cell_position := (0, 0, 0)%js;
                       cell_children := [] |}]) 0 = None.
Proof.
  destruct (Store_add_self
              [{| cell_name := "body"; cell_position := (0, 0, 0)%js;
                  cell_children := [] |}] 0
              {| cell_name := "body"; cell_position := (0, 0, 0)%js;
                 cell_children := [] |} eq_refl) as (_ & Hnone & _).
  apply Hnone.
Defined.

(** ** Further evaluation *)

(** The [new Part] and [add] calls of the top level, made in program order
    on shared objects, give the tree of parts. *)
Example topLevelParts_tree :
  Store_part 3 topLevelParts.2 topLevelParts.1 = Some characterParts.
Proof. reflexivity. Qed.
